(** * Head/body boundary resolution for Lua symbols

    A shallow embedding of [VpLspExtenderLua] from
    [src/vscodeextension/src/outlineproviders/lspextenderlua.ts] and of the
    file-level helper [stripLuaComments], with the properties of the
    boundary resolver stated and proved over the embedding.

    Modelling conventions.
    - A JavaScript string is the list of its code units.  Code units are
      [ascii] characters, so the development covers documents whose code
      units are below 256; the keywords and delimiters the program looks
      for lie in that range, and [is_space] lists the blanks of that
      range.
    - [s.indexOf(..)] returns [option nat] ([None] for -1).
    - A [while] loop whose index can jump is a fixpoint on a step budget;
      a run that exhausts the budget is reported as such ([Fuel]) and is
      never confused with a result or with a raised error.
    - The editor's document is a line-addressable buffer: its lines and
      its end-of-line sequence. *)

From Stdlib Require Import Ascii String.
From Stdlib Require Import List Arith Bool Lia PeanoNat ZArith.
Import ListNotations.

Set Implicit Arguments.

(** ** JavaScript strings *)

Module Js.

Definition str := list ascii.

(** A string literal of the source. *)
Definition lit (s : string) : str := list_ascii_of_string s.
Arguments lit s%_string.

Definition ch (s : string) : ascii :=
  match s with String c _ => c | EmptyString => zero end.
Arguments ch s%_string.

Definition LF : ascii := ascii_of_nat 10.
Definition CR : ascii := ascii_of_nat 13.
Definition SP : ascii := ascii_of_nat 32.

(** [s[i]]: [None] stands for [undefined]. *)
Definition at_ (s : str) (i : nat) : option ascii := nth_error s i.

(** [s[i] === c] *)
Definition at_is (s : str) (i : nat) (c : ascii) : bool :=
  match at_ s i with Some d => Ascii.eqb d c | None => false end.

Fixpoint streq (a b : str) : bool :=
  match a, b with
  | [], [] => true
  | x :: a', y :: b' => Ascii.eqb x y && streq a' b'
  | _, _ => false
  end.

(** [needle] is a prefix of [s]. *)
Fixpoint starts_with (needle s : str) : bool :=
  match needle, s with
  | [], _ => true
  | x :: n', y :: s' => Ascii.eqb x y && starts_with n' s'
  | _ :: _, [] => false
  end.

(** First position at or after [pos] (the position of the head of [s]) at
    which [needle] occurs. *)
Fixpoint index_from (needle s : str) (pos : nat) : option nat :=
  if starts_with needle s then Some pos
  else match s with
       | [] => None
       | _ :: t => index_from needle t (S pos)
       end.

(** [s.indexOf(needle, from)] *)
Definition indexOf (needle s : str) (from : nat) : option nat :=
  index_from needle (skipn from s) (Nat.min from (length s)).

(** [s.substring(a, b)]: arguments are clamped to the length and swapped
    when [a > b]. *)
Definition substring (s : str) (a b : nat) : str :=
  let a' := Nat.min a (length s) in
  let b' := Nat.min b (length s) in
  firstn (Nat.max a' b' - Nat.min a' b') (skipn (Nat.min a' b') s).

(** [s.substring(a)] and, for the non-negative starts used here,
    [s.substr(a)]. *)
Definition substring_from (s : str) (a : nat) : str := skipn a s.

(** [' '.repeat(n)] *)
Definition spaces (n : nat) : str := repeat SP n.

(** The white space of [\s] and of [trim()] among code units below 256:
    TAB, LF, VT, FF, CR, SPACE and NBSP. *)
Definition is_space (c : ascii) : bool :=
  let n := nat_of_ascii c in
  ((9 <=? n) && (n <=? 13)) || (n =? 32) || (n =? 160).

(** [s.trim() === ''] *)
Definition is_blank (s : str) : bool := forallb is_space s.

(** [s.match(/^\s*/)[0]]: the leading white space. *)
Fixpoint leading_space (s : str) : str :=
  match s with
  | c :: t => if is_space c then c :: leading_space t else []
  | [] => []
  end.

(** [\w] without the unicode flag: [[A-Za-z0-9_]]. *)
Definition is_word (c : ascii) : bool :=
  let n := nat_of_ascii c in
  ((48 <=? n) && (n <=? 57)) || ((65 <=? n) && (n <=? 90))
  || ((97 <=? n) && (n <=? 122)) || (n =? 95).

(** Case folding of the [i] flag restricted to what it can change for an
    ASCII pattern: the letters A-Z. *)
Definition lower (c : ascii) : ascii :=
  let n := nat_of_ascii c in
  if (65 <=? n) && (n <=? 90) then ascii_of_nat (n + 32) else c.

(** [s.toLowerCase()] on code units below 256: A-Z and the Latin-1 capitals
    (0xC0-0xDE without the multiplication sign) move up by 32, the rest
    stays, and the length is kept. *)
Definition to_lower_char (c : ascii) : ascii :=
  let n := nat_of_ascii c in
  if ((65 <=? n) && (n <=? 90))
     || ((192 <=? n) && (n <=? 222) && negb (n =? 215))
  then ascii_of_nat (n + 32) else c.

Definition toLowerCase (s : str) : str := map to_lower_char s.

(** Number of leading occurrences of [c]. *)
Fixpoint count_leading (c : ascii) (s : str) : nat :=
  match s with
  | d :: t => if Ascii.eqb d c then S (count_leading c t) else 0
  | [] => 0
  end.

(** Number of characters before the first [c] (the whole length when [c]
    does not occur). *)
Fixpoint count_until (c : ascii) (s : str) : nat :=
  match s with
  | d :: t => if Ascii.eqb d c then 0 else S (count_until c t)
  | [] => 0
  end.

End Js.

Import Js.

(** ** Outcomes of a call *)

(** What a call can raise. *)
Inductive error : Type :=
| HeadRangeNull      (* 'Function not parsable (rangeHead is null).' *)
| NoMatchingEnd      (* 'Function not parsable (Could not find matching end keyword).' *)
| NotImplemented     (* 'outlines for ranges are not yet implemented' *)
| IllegalLine        (* the editor's [lineAt] on a line that does not exist *)
| ParseFailure       (* raised by the parser on text it rejects *)
| HostFailure.       (* raised by a collaborator outside this file *)

(** [Ok] is a normal return, [Throw] a raised error, [Fuel] a run of the
    model that used up its step budget (no behaviour of the program). *)
Inductive result (A : Type) : Type :=
| Ok (a : A)
| Throw (e : error)
| Fuel.
Arguments Ok {A} a.
Arguments Throw {A} e.
Arguments Fuel {A}.

Definition bind {A B : Type} (m : result A) (k : A -> result B) : result B :=
  match m with
  | Ok a => k a
  | Throw e => Throw e
  | Fuel => Fuel
  end.

Notation "x <- m ;; k" := (bind m (fun x => k))
  (at level 61, m at next level, right associativity).

(** ** The editor's document, positions and ranges *)

Record Position : Type := mkPos { line : nat; character : nat }.

(** [p.isBefore(q)] *)
Definition isBefore (p q : Position) : bool :=
  (line p <? line q) || ((line p =? line q) && (character p <? character q)).

Record Range : Type := mkRange { range_start : Position; range_end : Position }.

(** [new vscode.Range(a, b)]: the ends are stored in order. *)
Definition Range_new (a b : Position) : Range :=
  if isBefore a b then mkRange a b else mkRange b a.

(** Modelled from the spec: [utils.range_new] is not part of the sources at
    hand.  The spec's Range is an ordered pair of positions (start, end)
    with start <= end, which is what the editor's constructor builds from
    two line/character pairs. *)
Definition range_new (l1 c1 l2 c2 : nat) : Range :=
  Range_new (mkPos l1 c1) (mkPos l2 c2).

(** A [number[]] holding a line and a character. *)
Definition loc := (nat * nat)%type.

Record TextDocument : Type := mkDoc { lines : list str; eol : str }.

(** A document with LF line ends. *)
Definition document (ls : list str) : TextDocument := mkDoc ls [LF].

Definition lineCount (d : TextDocument) : nat := length (lines d).

(** [document.lineAt(ln).text]; the editor raises on a line out of range. *)
Definition lineAt (d : TextDocument) (ln : nat) : result str :=
  match nth_error (lines d) ln with
  | Some t => Ok t
  | None => Throw IllegalLine
  end.

Fixpoint join (sep : str) (ls : list str) : str :=
  match ls with
  | [] => []
  | [l] => l
  | l :: rest => l ++ sep ++ join sep rest
  end.

(** [document.getText()] *)
Definition getText (d : TextDocument) : str := join (eol d) (lines d).

(** [document.positionAt(offset)]: the line whose span (text and line end)
    holds the offset, the column cut to the line's length; an offset past
    the end lands at the end of the last line. *)
Fixpoint positionAt_from (ls : list str) (eolLen ln offset : nat) : Position :=
  match ls with
  | [] => mkPos ln 0
  | l :: rest =>
    match rest with
    | [] => mkPos ln (Nat.min offset (length l))
    | _ :: _ =>
      if offset <? length l + eolLen then mkPos ln (Nat.min offset (length l))
      else positionAt_from rest eolLen (S ln) (offset - (length l + eolLen))
    end
  end.

Definition positionAt (d : TextDocument) (offset : nat) : Position :=
  positionAt_from (lines d) (length (eol d)) 0 offset.

(** Sum of the spans of the first [n] lines. *)
Fixpoint line_start (ls : list str) (eolLen n : nat) : nat :=
  match n, ls with
  | S n', l :: rest => length l + eolLen + line_start rest eolLen n'
  | _, _ => 0
  end.

(** [document.offsetAt(p)]: the position is first brought into the
    document (a line past the end becomes the end of the last line, a
    column past the line's end becomes the line's end). *)
Definition offsetAt (d : TextDocument) (p : Position) : nat :=
  let n := lineCount d in
  if n <=? line p then
    line_start (lines d) (length (eol d)) (n - 1) + length (nth (n - 1) (lines d) [])
  else
    line_start (lines d) (length (eol d)) (line p)
    + Nat.min (character p) (length (nth (line p) (lines d) [])).

(** The rough symbol handed over by the symbol provider. *)
Record DocumentSymbol : Type :=
  mkSym { symRange : Range; selectionRange : Range }.

(** [Outline.Attribute]; the resolver never builds one. *)
Inductive Attribute : Type := .

(** The value returned by a resolution: [[rangeHead, rangeBody, attributes]]. *)
Record Resolved : Type :=
  mkResolved { rangeHead : Range; rangeBody : Range; attributes : list Attribute }.

(** ** [stripLuaComments] *)

(** The [while (i < src.length)] loop; [out] and [i] are its variables. *)
Fixpoint strip_loop (fuel : nat) (src out : str) (i : nat) : option str :=
  match fuel with
  | 0 => None
  | S fuel' =>
    if i <? length src then
      if at_is src i (ch "-") && at_is src (i + 1) (ch "-") then
        (* single-line comment: skip until newline *)
        let single_line :=
          let k := i + 2 + count_until LF (skipn (i + 2) src) in
          strip_loop fuel' src (out ++ spaces (k - i)) k in
        if at_is src (i + 2) (ch "[") then
          let eq := count_leading (ch "=") (skipn (i + 3) src) in
          let j := i + 3 + eq in
          if at_is src j (ch "[") then
            let endToken := ch "]" :: repeat (ch "=") eq ++ [ch "]"] in
            match indexOf endToken src (j + 1) with
            | Some endIdx =>
              strip_loop fuel' src
                (out ++ spaces (endIdx + length endToken - i))
                (endIdx + length endToken)
            | None => Some (out ++ spaces (length src - i))
            end
          else single_line
        else single_line
      else
        match at_ src i with
        | Some c => strip_loop fuel' src (out ++ [c]) (i + 1)
        | None => Some out
        end
    else Some out
  end.

(** Every turn of the loop moves [i] forward, so [length src] turns and one
    more test of the loop condition are enough ([strip_loop_runs] below);
    the empty default is never produced. *)
Definition stripLuaComments (src : str) : str :=
  match strip_loop (S (length src)) src [] 0 with
  | Some out => out
  | None => []
  end.

(** ** The regular expressions of the resolver *)

Module Regex.

Definition word_at (s : str) (p : nat) : bool :=
  match at_ s p with Some c => is_word c | None => false end.

(** [\b] at position [p] of [s]: one side is a word character, the other
    is not (the outside of the string counts as non-word). *)
Definition boundary (s : str) (p : nat) : bool :=
  xorb (match p with 0 => false | S q => word_at s q end) (word_at s p).

(** A lower-case literal matched under the [i] flag at the head of [s]. *)
Fixpoint ci_starts_with (kw s : str) : bool :=
  match kw, s with
  | [], _ => true
  | x :: kw', y :: s' => Ascii.eqb x (lower y) && ci_starts_with kw' s'
  | _ :: _, [] => false
  end.

(** [/\bkw\b/] at position [pos]; [rest] is [s] from [pos] on. *)
Definition kw_at (kw s rest : str) (pos : nat) : bool :=
  ci_starts_with kw rest && boundary s pos && boundary s (pos + length kw).

(** Leftmost match of [/\bkw\b/i] at or after [pos]. *)
Fixpoint kw_search (kw s rest : str) (pos : nat) : option nat :=
  if kw_at kw s rest pos then Some pos
  else match rest with
       | [] => None
       | _ :: t => kw_search kw s t (S pos)
       end.

(** [re.exec(s)] for the global expression [/\bkw\b/gi] whose [lastIndex]
    is [lastIndex]: the index of the match and the new [lastIndex], which
    is the end of the match, or 0 after a failure. *)
Definition exec (kw s : str) (lastIndex : nat) : option nat * nat :=
  match kw_search kw s (skipn lastIndex s) lastIndex with
  | Some idx => (Some idx, idx + length kw)
  | None => (None, 0)
  end.

(** [/^\[=*\[/] on [s]: the number of [=] between the two brackets. *)
Definition long_open (s : str) : option nat :=
  match s with
  | c :: t =>
    if Ascii.eqb c (ch "[") then
      let eq := count_leading (ch "=") t in
      if at_is t eq (ch "[") then Some eq else None
    else None
  | [] => None
  end.

(** The block-comment opener (two dashes, a bracket, any number of [=],
    a bracket) at the head of [s]: the number of [=] it captured. *)
Definition block_open_here (s : str) : option nat :=
  match s with
  | a :: b :: t =>
    if Ascii.eqb a (ch "-") && Ascii.eqb b (ch "-") then long_open t else None
  | _ => None
  end.

(** [s.match(..)] for the block-comment opener: index of the leftmost
    match and the number of [=] it captured. *)
Fixpoint block_open_search (s : str) (pos : nat) : option (nat * nat) :=
  match block_open_here s with
  | Some eq => Some (pos, eq)
  | None => match s with
            | [] => None
            | _ :: t => block_open_search t (S pos)
            end
  end.

(** [/\belse\s*$/i] matching from position [p]. *)
Definition else_tail_at (s : str) (p : nat) : bool :=
  boundary s p && ci_starts_with (lit "else") (skipn p s)
  && is_blank (skipn (p + 4) s).

(** [/\belse\s*$/i.test(s)] *)
Definition test_else_tail (s : str) : bool :=
  existsb (else_tail_at s) (seq 0 (S (length s))).

End Regex.

Import Regex.

(** [']' + equals + ']'] *)
Definition close_token (eq : nat) : str :=
  ch "]" :: repeat (ch "=") eq ++ [ch "]"].

(** ** Skipping a quoted string

    [i++; while (i < len && s[i] !== quote) { if (s[i] === '\\') i += 2; else i++; } i++;]
    The fixpoint runs on the text from [i] on and returns the index at
    which the inner loop stops. *)
Fixpoint skip_quoted (quote : ascii) (rest : str) (i : nat) : nat :=
  match rest with
  | [] => i
  | c :: t =>
    if Ascii.eqb c quote then i
    else if Ascii.eqb c (ch "\") then
      match t with
      | [] => i + 2
      | _ :: t' => skip_quoted quote t' (i + 2)
      end
    else skip_quoted quote t (i + 1)
  end.

(** Index after the string that opens at [i]. *)
Definition after_quoted (s : str) (i : nat) (quote : ascii) : nat :=
  skip_quoted quote (skipn (i + 1) s) (i + 1) + 1.

Definition is_quote (c : ascii) : bool :=
  Ascii.eqb c (ascii_of_nat 34) || Ascii.eqb c (ch "'").

(** ** The body-end scan of the heuristic route *)

Module BodyEnd.

Inductive keyword : Type :=
| KFunction | KDo | KRepeat | KIf | KFor | KWhile | KEnd | KUntil.

(** The [lastIndex] of the eight global expressions. *)
Record Regexes : Type := mkRx {
  funcRegex : nat; doRegex : nat; repeatRegex : nat; ifRegex : nat;
  forRegex : nat; whileRegex : nat; endRegex : nat; untilRegex : nat }.

Definition fresh : Regexes := mkRx 0 0 0 0 0 0 0 0.

(** The five assignments [re.lastIndex = 0] made for each line; the
    expressions for [if], [for] and [while] keep theirs. *)
Definition reset_lastIndex (rx : Regexes) : Regexes :=
  mkRx 0 0 0 (ifRegex rx) (forRegex rx) (whileRegex rx) 0 0.

(** The eight [exec] calls of one turn of the loop, each moving its own
    expression. *)
Record Matches : Type := mkMatches {
  funcMatch : option nat; doMatch : option nat; repeatMatch : option nat;
  ifMatch : option nat; forMatch : option nat; whileMatch : option nat;
  endMatch : option nat; untilMatch : option nat }.

Definition exec_all (sub : str) (rx : Regexes) : Matches * Regexes :=
  let '(mf, lf) := exec (lit "function") sub (funcRegex rx) in
  let '(md, ld) := exec (lit "do") sub (doRegex rx) in
  let '(mr, lr) := exec (lit "repeat") sub (repeatRegex rx) in
  let '(mi, li) := exec (lit "if") sub (ifRegex rx) in
  let '(mo, lo) := exec (lit "for") sub (forRegex rx) in
  let '(mw, lw) := exec (lit "while") sub (whileRegex rx) in
  let '(me, le) := exec (lit "end") sub (endRegex rx) in
  let '(mu, lu) := exec (lit "until") sub (untilRegex rx) in
  (mkMatches mf md mr mi mo mw me mu, mkRx lf ld lr li lo lw le lu).

(** The candidate list after [filter(c => c.idx !== null)]. *)
Definition candidates (m : Matches) : list (nat * keyword) :=
  let entry (o : option nat) (k : keyword) :=
    match o with Some idx => [(idx, k)] | None => [] end in
  entry (funcMatch m) KFunction ++ entry (doMatch m) KDo
  ++ entry (repeatMatch m) KRepeat ++ entry (ifMatch m) KIf
  ++ entry (forMatch m) KFor ++ entry (whileMatch m) KWhile
  ++ entry (endMatch m) KEnd ++ entry (untilMatch m) KUntil.

(** [candidates.sort((a, b) => a.idx - b.idx)]: a stable sort. *)
Fixpoint insert (c : nat * keyword) (l : list (nat * keyword))
  : list (nat * keyword) :=
  match l with
  | [] => [c]
  | d :: t => if fst c <=? fst d then c :: l else d :: insert c t
  end.

Definition sort (l : list (nat * keyword)) : list (nat * keyword) :=
  fold_right insert [] l.

Inductive scanned : Type :=
| Accepted (at_loc : loc)                    (* [return [ln, ...]] *)
| LineDone (rx : Regexes) (depth : nat).     (* [break] *)

(** The [while (true)] loop over one line.  [lineText] is
    [document.lineAt(ln).text], [sub] the text that is searched. *)
Fixpoint scan_tokens (fuel : nat) (lineText sub : str) (ln searchFrom : nat)
    (startIndent : str) (rx : Regexes) (depth : nat) : result scanned :=
  match fuel with
  | 0 => Fuel
  | S fuel' =>
    let '(m, rx') := exec_all sub rx in
    let again := scan_tokens fuel' lineText sub ln searchFrom startIndent rx' in
    match sort (candidates m) with
    | [] => Ok (LineDone rx' depth)
    | (_, pick) :: _ =>
      match pick with
      | KFunction | KDo | KRepeat | KFor | KWhile => again (depth + 1)
      | KIf =>
        match ifMatch m with
        | Some idx =>
          let absoluteIdx := searchFrom + idx in
          let beforeText := substring lineText 0 absoluteIdx in
          if test_else_tail beforeText then again depth else again (depth + 1)
        | None => again (depth + 1)
        end
      | KEnd =>
        if depth =? 0 then
          let endIndent := leading_space lineText in
          if streq endIndent startIndent
          then match endMatch m with
               | Some idx => Ok (Accepted (ln, searchFrom + idx))
               | None => Throw HostFailure   (* [.index] of [null] *)
               end
          else again depth
        else again (depth - 1)
      | KUntil =>
        if depth =? 0 then
          let endIndent := leading_space lineText in
          if streq endIndent startIndent
          then match untilMatch m with
               | Some idx => Ok (Accepted (ln, searchFrom + idx))
               | None => Throw HostFailure   (* [.index] of [null] *)
               end
          else again depth
        else again (depth - 1)
      end
    end
  end.

(** The comment handling at the head of the [for] body.  [None] is the
    [continue] taken when the whole line lies inside a block comment;
    otherwise the text left of the line and the new block-comment state
    ([blockClosePattern] when [inBlockComment] holds). *)
Definition uncomment_line (inBlock : option str) (lineText : str)
  : option (str * option str) :=
  let after_close :=
    match inBlock with
    | Some pat =>
      match indexOf pat lineText 0 with
      | Some closeIdx => Some (substring_from lineText (closeIdx + length pat))
      | None => None
      end
    | None => Some lineText
    end in
  match after_close with
  | None => None
  | Some textLine =>
    let '(textLine1, inBlock1) :=
      match block_open_search textLine 0 with
      | Some (startIdx, eq) =>
        let close := close_token eq in
        (* blockStartMatch[0].length *)
        let openLen := 4 + eq in
        match indexOf close textLine (startIdx + openLen) with
        | Some closeIdx =>
          (substring textLine 0 startIdx
             ++ substring_from textLine (closeIdx + length close), None)
        | None => (substring textLine 0 startIdx, Some close)
        end
      | None => (textLine, None)
      end in
    let textLine2 :=
      match indexOf (lit "--") textLine1 0 with
      | Some commentIdx => substring textLine1 0 commentIdx
      | None => textLine1
      end in
    Some (textLine2, inBlock1)
  end.

(** One turn of the [for] loop, on line [ln] whose text is [lineText]:
    either the accepted terminator or the state the next line starts
    from. *)
Inductive line_result : Type :=
| Found (at_loc : loc)
| Continue (inBlock : option str) (rx : Regexes) (depth : nat).

Definition scan_line (fuel : nat) (lineText : str) (ln : nat)
    (body_start_line body_start_char : nat) (startIndent : str)
    (inBlock : option str) (rx : Regexes) (depth : nat) : result line_result :=
  match uncomment_line inBlock lineText with
  | None => Ok (Continue inBlock rx depth)
  | Some (textLine, inBlock') =>
    let searchFrom := if ln =? body_start_line then body_start_char else 0 in
    let sub := substring_from textLine searchFrom in
    if length sub =? 0 then Ok (Continue inBlock' rx depth)
    else
      r <- scan_tokens fuel lineText sub ln searchFrom startIndent
             (reset_lastIndex rx) depth ;;
      match r with
      | Accepted p => Ok (Found p)
      | LineDone rx' depth' => Ok (Continue inBlock' rx' depth')
      end
  end.

(** The [for (let ln = body_start_line; ln < document.lineCount; ++ln)]
    loop; [rest] holds the lines from [ln] on.  [Ok None] is the final
    [return null]. *)
Fixpoint scan_lines (fuel : nat) (rest : list str) (ln : nat)
    (body_start_line body_start_char : nat) (startIndent : str)
    (inBlock : option str) (rx : Regexes) (depth : nat)
  : result (option loc) :=
  match rest with
  | [] => Ok None
  | lineText :: rest' =>
    r <- scan_line fuel lineText ln body_start_line body_start_char
           startIndent inBlock rx depth ;;
    match r with
    | Found p => Ok (Some p)
    | Continue inBlock' rx' depth' =>
      scan_lines fuel rest' (S ln) body_start_line body_start_char
        startIndent inBlock' rx' depth'
    end
  end.

(** The function whose value is [endPos]. *)
Definition find_end (fuel : nat) (d : TextDocument) (head_start_line : nat)
    (body_start_line body_start_char : nat) : result (option loc) :=
  headLine <- lineAt d head_start_line ;;
  let startIndent := leading_space headLine in
  scan_lines fuel (skipn body_start_line (lines d)) body_start_line
    body_start_line body_start_char startIndent None fresh 0.

End BodyEnd.

(** ** Matching a parenthesis line by line (heuristic route) *)

Module ParenScan.

Inductive scanned : Type :=
| Closed (at_loc : loc)                 (* [return [ln, i]] *)
| Unterminated                          (* [return null] inside the loop *)
| LineDone (ln : nat) (depth : nat).    (* the inner [while] ran to its end *)

(** The search for the close of a long bracket that opened on line [ln]:
    [for (let ln2 = ln; ln2 < document.lineCount && !closed; ++ln2)].
    [rest] holds the lines from [ln2] on; the result is the line and the
    index at which the close token was found. *)
Fixpoint find_close (close : str) (rest : list str) (ln ln2 startFirst : nat)
  : option loc :=
  match rest with
  | [] => None
  | text2 :: rest' =>
    let startIdx := if ln2 =? ln then startFirst else 0 in
    match indexOf close text2 startIdx with
    | Some idx => Some (ln2, idx)
    | None => find_close close rest' ln (S ln2) startFirst
    end
  end.

(** The inner [while (i < lineText.length)] of the first strategy.  It
    skips quoted strings and long brackets.  After a long bracket that
    closes on a later line the loop goes on in the same [lineText] with
    the line number and the index of that later line. *)
Fixpoint scan_line (fuel : nat) (d : TextDocument) (lineText : str)
    (ln i depth : nat) : result scanned :=
  match fuel with
  | 0 => Fuel
  | S fuel' =>
    match at_ lineText i with
    | None => Ok (LineDone ln depth)
    | Some c =>
      if is_quote c then
        scan_line fuel' d lineText ln (after_quoted lineText i c) depth
      else
        match (if Ascii.eqb c (ch "[")
               then long_open (substring_from lineText i) else None) with
        | Some eq =>
          let close := close_token eq in
          match find_close close (skipn ln (lines d)) ln ln (i + (2 + eq)) with
          | Some (ln2, idx) => scan_line fuel' d lineText ln2 (idx + length close) depth
          | None => Ok Unterminated
          end
        | None =>
          if Ascii.eqb c (ch "(") then scan_line fuel' d lineText ln (i + 1) (depth + 1)
          else if Ascii.eqb c (ch ")") then
            if depth - 1 <=? 0 then Ok (Closed (ln, i))
            else scan_line fuel' d lineText ln (i + 1) (depth - 1)
          else scan_line fuel' d lineText ln (i + 1) depth
        end
    end
  end.

(** [for (let ln = parenLoc[0]; ln < document.lineCount; ++ln)] of the
    first strategy. *)
Fixpoint scan_from (fuel : nat) (d : TextDocument) (parenLoc : loc)
    (ln depth : nat) : result (option loc) :=
  match fuel with
  | 0 => Fuel
  | S fuel' =>
    if ln <? lineCount d then
      lineText <- lineAt d ln ;;
      let i := if ln =? fst parenLoc then snd parenLoc else 0 in
      r <- scan_line fuel d lineText ln i depth ;;
      match r with
      | Closed p => Ok (Some p)
      | Unterminated => Ok None
      | LineDone ln' depth' => scan_from fuel' d parenLoc (S ln') depth'
      end
    else Ok None
  end.

Definition matching_paren (fuel : nat) (d : TextDocument) (parenLoc : loc)
  : result (option loc) :=
  scan_from fuel d parenLoc (fst parenLoc) 0.

(** The inner [while] of the second and third strategies: parentheses
    only. *)
Fixpoint plain_line (rest : str) (ln i depth : nat) : loc + nat :=
  match rest with
  | [] => inr depth
  | c :: t =>
    if Ascii.eqb c (ch "(") then plain_line t ln (i + 1) (depth + 1)
    else if Ascii.eqb c (ch ")") then
      if depth - 1 <=? 0 then inl (ln, i) else plain_line t ln (i + 1) (depth - 1)
    else plain_line t ln (i + 1) depth
  end.

(** The [for] loop of the second and third strategies; [rest] holds the
    lines from [ln] on. *)
Fixpoint plain_from (rest : list str) (parenLoc : loc) (ln depth : nat)
  : option loc :=
  match rest with
  | [] => None
  | lineText :: rest' =>
    let i := if ln =? fst parenLoc then snd parenLoc else 0 in
    match plain_line (substring_from lineText i) ln i depth with
    | inl p => Some p
    | inr depth' => plain_from rest' parenLoc (S ln) depth'
    end
  end.

Definition plain_matching_paren (d : TextDocument) (parenLoc : loc) : option loc :=
  plain_from (skipn (fst parenLoc) (lines d)) parenLoc (fst parenLoc) 0.

End ParenScan.

(** ** The parse tree of the structural route

    The parser is an outside package; it is called with
    [locations: true, ranges: true], so every node object carries [type],
    [loc] and [range].  A node is kept with its type, its range and its
    other properties in key order; an array is kept with its items; every
    other value (strings, numbers, booleans, [null], the [loc] records) is
    an atom: [visit] returns at once on it or finds no node below it. *)

Module Ast.

#[local] Set Warnings "-register-all".

Inductive value : Type :=
| Node (type : string) (range : nat * nat) (props : list (string * value))
| Arr (items : list value)
| Atom.

(** Induction over a tree, with the hypothesis for every item of an array
    and for every property of a node. *)
Section Induction.
Variable P : value -> Prop.
Hypothesis HAtom : P Atom.
Hypothesis HArr : forall items, Forall P items -> P (Arr items).
Hypothesis HNode : forall type range props,
  Forall (fun kv => P (snd kv)) props -> P (Node type range props).

Fixpoint value_induction (v : value) : P v :=
  match v with
  | Atom => HAtom
  | Arr items =>
    HArr ((fix all (l : list value) : Forall P l :=
             match l with
             | [] => Forall_nil _
             | x :: t => Forall_cons _ (value_induction x) (all t)
             end) items)
  | Node type range props =>
    HNode type range
      ((fix all (l : list (string * value)) : Forall (fun kv => P (snd kv)) l :=
          match l with
          | [] => Forall_nil _
          | kv :: t => Forall_cons _ (value_induction (snd kv)) (all t)
          end) props)
  end.
End Induction.

(** [node[key]] *)
Fixpoint lookup (key : string) (props : list (string * value)) : option value :=
  match props with
  | [] => None
  | (k, v) :: rest => if String.eqb k key then Some v else lookup key rest
  end.

Definition prop (key : string) (v : value) : option value :=
  match v with Node _ _ props => lookup key props | _ => None end.
Arguments prop key%_string v.

Definition type_of (v : value) : string :=
  match v with Node t _ _ => t | _ => EmptyString end.

Definition has_type (v : value) (t : string) : bool := String.eqb (type_of v) t.
Arguments has_type v t%_string.

(** [v.range], present on nodes only. *)
Definition range_of (v : value) : option (nat * nat) :=
  match v with Node _ r _ => Some r | _ => None end.

(** [arr[0]] *)
Definition first (v : value) : option value :=
  match v with Arr (x :: _) => Some x | _ => None end.

(** The test on [node.type] inside [visit]. *)
Definition accepted (t : string) : bool :=
  (String.eqb t "FunctionDeclaration" || String.eqb t "FunctionStatement"
   || String.eqb t "ForNumericStatement" || String.eqb t "ForGenericStatement"
   || String.eqb t "IfStatement" || String.eqb t "RepeatStatement")%string.

(** [visit(node)]; the assigned variable [foundNode] is threaded through. *)
Fixpoint visit (selOffset : nat) (node : value) (foundNode : option value)
  : option value :=
  match node with
  | Atom => foundNode
  | Arr items =>
    fold_left (fun found child => visit selOffset child found) items foundNode
  | Node type (start, end_) props =>
    let found :=
      if (start <=? selOffset) && (selOffset <=? end_) && accepted type
      then Some node else foundNode in
    fold_left (fun found kv => visit selOffset (snd kv) found) props found
  end.

End Ast.

(** ** The structural route *)

Module Structural.

Import Ast.

(** [findMatchingParen(src, openIdx)]: the [while (i < len)] loop with its
    variables [i] and [depth].  [Ok None] is the result -1. *)
Fixpoint findMatchingParen_loop (fuel : nat) (src : str) (i : nat) (depth : Z)
  : result (option nat) :=
  match fuel with
  | 0 => Fuel
  | S fuel' =>
    match at_ src i with
    | None => Ok None
    | Some c =>
      if is_quote c then
        findMatchingParen_loop fuel' src (after_quoted src i c) depth
      else
        match (if Ascii.eqb c (ch "[")
               then long_open (substring_from src i) else None) with
        | Some eq =>
          let close := close_token eq in
          match indexOf close src (i + (2 + eq)) with
          | Some endIdx => findMatchingParen_loop fuel' src (endIdx + length close) depth
          | None => Ok None
          end
        | None =>
          if Ascii.eqb c (ch "(") then
            findMatchingParen_loop fuel' src (i + 1) (depth + 1)
          else if Ascii.eqb c (ch ")") then
            if (depth - 1 =? 0)%Z then Ok (Some i)
            else findMatchingParen_loop fuel' src (i + 1) (depth - 1)
          else findMatchingParen_loop fuel' src (i + 1) depth
        end
    end
  end.

Definition findMatchingParen (fuel : nat) (src : str) (openIdx : nat)
  : result (option nat) :=
  findMatchingParen_loop fuel src openIdx 0%Z.

(** The four offsets the dispatch on the node kind computes. *)
Record Split : Type := mkSplit {
  headStartIdx : nat; headEndIdx : nat; bodyStartIdx : nat; bodyEndIdx : nat }.

(** [x.range[0]] of an optional value that, when present, has a range. *)
Definition range_start_of (o : option value) : option nat :=
  match o with
  | Some v => option_map fst (range_of v)
  | None => None
  end.

(** The clause of an [IfStatement] that is used: the first one whose range
    holds the offset, else the first clause.  The items of [clauses] are
    node objects, as the parser builds them. *)
Definition holds (selOffset : nat) (c : value) : bool :=
  match range_of c with
  | Some (s, e) => (s <=? selOffset) && (selOffset <=? e)
  | None => false
  end.

Definition select_clause (selOffset : nat) (foundNode : value) : option value :=
  match prop "clauses" foundNode with
  | Some (Arr cs) =>
    match find (holds selOffset) cs with
    | Some c => Some c
    | None => first (Arr cs)
    end
  | _ => None
  end.

(** The [if / else if] chain on [foundNode.type]. *)
Definition split (fuel : nat) (src : str) (selOffset : nat) (foundNode : value)
  : result Split :=
  match range_of foundNode with
  | None => Throw HostFailure
  | Some (nodeRangeStart, nodeRangeEnd) =>
    let lowerSrc := toLowerCase src in
    if has_type foundNode "FunctionDeclaration"
       || has_type foundNode "FunctionStatement" then
      let headStart :=
        match range_start_of (prop "identifier" foundNode) with
        | Some s => s
        | None => nodeRangeStart
        end in
      headEnd <-
        match indexOf (lit "(") src headStart with
        | Some openIdx =>
          if openIdx <? nodeRangeEnd then
            closeIdx <- findMatchingParen fuel src openIdx ;;
            match closeIdx with
            | Some c => Ok (c + 1)
            | None => Ok (openIdx + 1)
            end
          else Ok (nodeRangeStart + 8)
        | None => Ok (nodeRangeStart + 8)
        end ;;
      Ok (mkSplit headStart headEnd headEnd nodeRangeEnd)
    else if has_type foundNode "AssignmentStatement"
            && match option_map first (prop "init" foundNode) with
               | Some (Some f) =>
                 has_type f "FunctionDeclaration" || has_type f "FunctionExpression"
               | _ => false
               end then
      match option_map first (prop "init" foundNode) with
      | Some (Some funcNode) =>
        let headStart :=
          match option_map first (prop "variables" foundNode) with
          | Some v0 =>
            match range_start_of v0 with
            | Some s => s
            | None => nodeRangeStart
            end
          | None => nodeRangeStart
          end in
        match range_of funcNode with
        | None => Throw HostFailure
        | Some (funcStart, funcEnd) =>
          headEnd <-
            match indexOf (lit "(") src funcStart with
            | Some openIdx =>
              closeIdx <- findMatchingParen fuel src openIdx ;;
              match closeIdx with
              | Some c => Ok (c + 1)
              | None => Ok (funcStart + 8)
              end
            | None => Ok (funcStart + 8)
            end ;;
          Ok (mkSplit headStart headEnd headEnd funcEnd)
        end
      | _ => Throw HostFailure
      end
    else if has_type foundNode "IfStatement" then
      match select_clause selOffset foundNode with
      | Some clause =>
        match range_of clause with
        | None => Throw HostFailure
        | Some (clauseStart, clauseEnd) =>
          let bound :=
            match range_start_of (prop "body" clause) with
            | Some s => s
            | None => nodeRangeEnd
            end in
          let fallback :=
            match prop "condition" clause with
            | Some (Node _ (_, condEnd) _) => condEnd
            | _ => clauseEnd
            end in
          let headEnd :=
            match indexOf (lit "then") lowerSrc clauseStart with
            | Some thenIdx => if thenIdx <? bound then thenIdx + 4 else fallback
            | None => fallback
            end in
          Ok (mkSplit clauseStart headEnd headEnd nodeRangeEnd)
        end
      | None => Ok (mkSplit nodeRangeStart nodeRangeStart nodeRangeStart nodeRangeEnd)
      end
    else if has_type foundNode "ForNumericStatement"
            || has_type foundNode "ForGenericStatement"
            || has_type foundNode "WhileStatement" then
      let headEnd :=
        match indexOf (lit " do") lowerSrc nodeRangeStart with
        | Some doIdx => if doIdx <? nodeRangeEnd then doIdx + 1 else nodeRangeStart + 4
        | None => nodeRangeStart + 4
        end in
      Ok (mkSplit nodeRangeStart headEnd headEnd nodeRangeEnd)
    else if has_type foundNode "RepeatStatement" then
      Ok (mkSplit nodeRangeStart (nodeRangeStart + 6) (nodeRangeStart + 6) nodeRangeEnd)
    else
      let headEnd := Nat.min (nodeRangeStart + 10) nodeRangeEnd in
      Ok (mkSplit nodeRangeStart headEnd headEnd nodeRangeEnd)
  end.

(** [document.positionAt(Math.max(0, Math.min(idx, src.length)))] *)
Definition clampedPosition (d : TextDocument) (src : str) (idx : nat) : Position :=
  positionAt d (Nat.max 0 (Nat.min idx (length src))).

(** The four positions, then the two ranges that are returned. *)
Definition ranges (d : TextDocument) (src : str) (s : Split) : Resolved :=
  let headStartPos := clampedPosition d src (headStartIdx s) in
  let headEndPos := clampedPosition d src (headEndIdx s) in
  let bodyStartPos := clampedPosition d src (bodyStartIdx s) in
  let bodyEndPos := clampedPosition d src (bodyEndIdx s) in
  mkResolved (Range_new headStartPos headEndPos)
             (Range_new bodyStartPos bodyEndPos) [].

End Structural.

(** ** [VpLspExtenderLua] *)

Section VpLspExtenderLua.

(** The parser package: [None] when [require('luaparse')] failed; a run of
    the parser returns the tree or raises. *)
Variable luaparse : option (str -> result Ast.value).

(** [utils.findInDocument(needle, document, start)] of this repository,
    whose definition is not part of the sources at hand: a location or
    [null]. *)
Variable findInDocument : str -> TextDocument -> loc -> option loc.

(** Whether [utils.range_fromArray([a, b])] is truthy. *)
Variable range_fromArray : loc -> loc -> bool.

(** [OutlineUtils.getDocumentSymbolsInRange] and the element type of an
    outline. *)
Variable OutlineItem : Type.
Variable DocumentSymbols : Type.
Variable getDocumentSymbolsInRange : TextDocument -> Range -> result DocumentSymbols.

Definition getLanguageStr : str := lit "lua".

Definition isDefinition (_doc : TextDocument) (_position : Position) : bool := false.

(** *** Structural route: the [if (luaparse) { try { .. } catch .. }] block.
    [Ok (Some r)] is its [return]; [Ok None] and [Throw] both lead on to
    the heuristic scan. *)
Definition structural (fuel : nat) (d : TextDocument) (docSymbol : DocumentSymbol)
  : result (option Resolved) :=
  match luaparse with
  | None => Ok None
  | Some parse =>
    let src := getText d in
    ast <- parse src ;;
    let selOffset := offsetAt d (range_start (selectionRange docSymbol)) in
    match Ast.visit selOffset ast None with
    | None => Ok None
    | Some foundNode =>
      s <- Structural.split fuel src selOffset foundNode ;;
      Ok (Some (Structural.ranges d src s))
    end
  end.

(** *** Heuristic route: the head end *)

Definition later (a b : loc) : bool :=
  (fst b <? fst a) || ((fst a =? fst b) && (snd b <? snd a)).

(** First strategy: the parenthesis found in the comment-stripped text from
    [startOffset] on, and its match. *)
Definition paren_head_end (fuel : nat) (d : TextDocument) (docSymbol : DocumentSymbol)
  : result (option loc) :=
  let docText := getText d in
  let stripped := stripLuaComments docText in
  let startOffset := offsetAt d (range_start (symRange docSymbol)) in
  match indexOf (lit "(") stripped startOffset with
  | Some parenIdx =>
    let ppos := positionAt d parenIdx in
    ParenScan.matching_paren fuel d (line ppos, character ppos)
  | None => Ok None
  end.

Definition head_end (fuel : nat) (d : TextDocument) (docSymbol : DocumentSymbol)
  : result loc :=
  let sel := selectionRange docSymbol in
  let name_start := (line (range_start sel), character (range_start sel)) in
  let name_end := (line (range_end sel), character (range_end sel)) in
  let head_start_line := fst name_start in
  let head_start_char := snd name_start in
  (* 1) *)
  headEnd1 <- paren_head_end fuel d docSymbol ;;
  let doLoc :=
    match findInDocument (lit " do") d name_end with
    | Some p => Some p
    | None => findInDocument (lit "do") d name_end
    end in
  let repeatLoc := findInDocument (lit "repeat") d name_end in
  let headEnd2 :=
    match headEnd1 with
    | None => match doLoc with Some p => Some p | None => repeatLoc end
    | Some headEnd =>
      match doLoc with
      | Some p => if later p headEnd then Some p else Some headEnd
      | None => Some headEnd
      end
    end in
  (* 2) *)
  let headEnd3 :=
    match headEnd2 with
    | Some _ => headEnd2
    | None =>
      match findInDocument (lit "(") d (head_start_line, head_start_char) with
      | Some parenLoc => ParenScan.plain_matching_paren d parenLoc
      | None => None
      end
    end in
  (* 3) *)
  let headEnd4 :=
    match headEnd3 with
    | Some _ => headEnd3
    | None =>
      match findInDocument (lit "function") d (head_start_line, head_start_char) with
      | Some funcKeyword =>
        if range_fromArray funcKeyword funcKeyword then
          match findInDocument (lit "(") d funcKeyword with
          | Some parenAfterFunc => ParenScan.plain_matching_paren d parenAfterFunc
          | None => None
          end
        else None
      | None => None
      end
    end in
  (* 4) *)
  match headEnd4 with
  | Some headEnd => Ok headEnd
  | None =>
    lineText <- lineAt d head_start_line ;;
    match indexOf (lit " do") lineText head_start_char with
    | Some doIdx => Ok (head_start_line, doIdx + 1)
    | None =>
      match indexOf (lit "repeat") lineText head_start_char with
      | Some repeatIdx => Ok (head_start_line, repeatIdx)
      | None => Ok name_end
      end
    end
  end.

(** *** Heuristic route: the body start *)

(** From [rangeHead.end] to the start of the body: one step over a [)]
    that stands at the head end, then on to the next line when nothing but
    blanks is left on the line. *)
Definition body_start (d : TextDocument) (headEnd : Position) : result loc :=
  let body_start_line := line headEnd in
  let body_start_char := Nat.max 0 (character headEnd) in
  text <- lineAt d body_start_line ;;
  let body_start_char :=
    if (body_start_char <? length text) && at_is text body_start_char (ch ")")
    then body_start_char + 1 else body_start_char in
  let rest := substring_from text body_start_char in
  if is_blank rest then Ok (body_start_line + 1, 0)
  else Ok (body_start_line, body_start_char).

(** ['end'.length] *)
Definition END_KEYWORD_length : nat := 3.

(** [rangeHead]: from the start of the name to the head end. *)
Definition head_range (docSymbol : DocumentSymbol) (headEnd : loc) : Range :=
  let name_start := range_start (selectionRange docSymbol) in
  range_new (line name_start) (character name_start) (fst headEnd) (snd headEnd).

(** *** The heuristic route as a whole

    [rangeHead] is a [Range] from here on, so the guard
    [if (!rangeHead) throw ..] never fires. *)
Definition heuristic (fuel : nat) (d : TextDocument) (docSymbol : DocumentSymbol)
  : result Resolved :=
  headEnd <- head_end fuel d docSymbol ;;
  let rangeHead := head_range docSymbol headEnd in
  bs <- body_start d (range_end rangeHead) ;;
  let '(body_start_line, body_start_char) := bs in
  endPos <- BodyEnd.find_end fuel d (line (range_start rangeHead))
              body_start_line body_start_char ;;
  match endPos with
  | None => Throw NoMatchingEnd
  | Some (body_end_line, endIdx) =>
    let body_end_char := endIdx + END_KEYWORD_length in
    Ok (mkResolved rangeHead
          (range_new body_start_line body_start_char body_end_line body_end_char)
          [])
  end.

(** *** [getLanguageSpecificSymbolInformation] *)
Definition getLanguageSpecificSymbolInformation (fuel : nat) (d : TextDocument)
    (docSymbol : DocumentSymbol) : result Resolved :=
  match structural fuel d docSymbol with
  | Ok (Some r) => Ok r
  | Fuel => Fuel
  | Ok None | Throw _ => heuristic fuel d docSymbol
  end.

(** *** [provideOutlineForRange]

    An [async] method: [Throw] is the rejection of the promise it
    returns, [Ok] its fulfilment.  The earlier version of the provider
    among the sources has the same method, word for word. *)
Definition provideOutlineForRange (d : TextDocument) (symbolRange : Range)
  : result (list OutlineItem) :=
  let ret : list OutlineItem := [] in
  symbolsInRange <- getDocumentSymbolsInRange d symbolRange ;;
  Throw NotImplemented.

End VpLspExtenderLua.

(** ** A document search for the helper that is not at hand *)

(** Modelled from the spec: [utils.findInDocument] is not part of the
    sources at hand.  The spec has the resolver "locate the first" token
    "at or after" a position, so the model returns the location of the
    first occurrence of the needle at or after the start location,
    looking through the start line from the start character and through
    every later line from its beginning. *)
Fixpoint find_in_lines (needle : str) (rest : list str) (ln : nat) (start : loc)
  : option loc :=
  match rest with
  | [] => None
  | text :: rest' =>
    match indexOf needle text (if ln =? fst start then snd start else 0) with
    | Some idx => Some (ln, idx)
    | None => find_in_lines needle rest' (S ln) start
    end
  end.

Definition findInDocument_first (needle : str) (d : TextDocument) (start : loc)
  : option loc :=
  find_in_lines needle (skipn (fst start) (lines d)) (fst start) start.

(** A symbol from the lines and characters of its two ranges. *)
Definition symbol (range_ sel : (nat * nat) * (nat * nat)) : DocumentSymbol :=
  let mk (r : (nat * nat) * (nat * nat)) :=
    mkRange (mkPos (fst (fst r)) (snd (fst r))) (mkPos (fst (snd r)) (snd (snd r))) in
  mkSym (mk range_) (mk sel).

(** ** What the comment stripper is to produce *)

Module StripSpec.

(** [tok] occurs in [s] at index [k]. *)
Definition occurs_at (tok s : str) (k : nat) : Prop :=
  exists a b, s = a ++ tok ++ b /\ length a = k.

(** The opening of a block comment of level [eq]: two dashes, a bracket,
    [eq] equal signs, a bracket. *)
Definition block_opener (eq : nat) : str :=
  lit "--[" ++ repeat (ch "=") eq ++ lit "[".

(** [Stripped src out]: [out] is [src] with every comment blanked.  The
    text is read from left to right.  Two dashes start a comment.  When a
    block opener stands there the comment runs through the first close
    token of the same level after the opener, or to the end of the text
    when there is none; otherwise it runs up to the next line feed.  A
    character outside a comment is kept. *)
Inductive Stripped : str -> str -> Prop :=
| Stripped_end : Stripped [] []
| Stripped_code (c : ascii) (s o : str) :
    (forall t, c :: s <> lit "--" ++ t) ->
    Stripped s o ->
    Stripped (c :: s) (c :: o)
| Stripped_line (body rest o : str) :
    (forall eq t, lit "--" ++ body ++ rest <> block_opener eq ++ t) ->
    ~ In LF body ->
    (rest = [] \/ exists t, rest = LF :: t) ->
    Stripped rest o ->
    Stripped (lit "--" ++ body ++ rest) (spaces (2 + length body) ++ o)
| Stripped_block (eq : nat) (body rest o : str) :
    (forall k, k < length body ->
       ~ occurs_at (close_token eq) (body ++ close_token eq ++ rest) k) ->
    Stripped rest o ->
    Stripped (block_opener eq ++ body ++ close_token eq ++ rest)
             (spaces (length (block_opener eq ++ body ++ close_token eq)) ++ o)
| Stripped_unterminated (eq : nat) (body : str) :
    (forall k, ~ occurs_at (close_token eq) body k) ->
    Stripped (block_opener eq ++ body)
             (spaces (length (block_opener eq ++ body))).

End StripSpec.

(** ** Inputs used below *)

Module Examples.

(** A finder for the runs below: [findInDocument_first]; and
    [range_fromArray] taken as truthy. *)
Definition heuristic_first : nat -> TextDocument -> DocumentSymbol -> result Resolved :=
  heuristic findInDocument_first (fun _ _ => true).

Definition resolve_without_parser
  : nat -> TextDocument -> DocumentSymbol -> result Resolved :=
  getLanguageSpecificSymbolInformation None findInDocument_first (fun _ _ => true).

(** A function whose body holds a block written on one line. *)
Definition one_line_block : TextDocument :=
  document [lit "function f()";
            lit "  if x then return end";
            lit "end"].

Definition one_line_block_f : DocumentSymbol :=
  symbol ((0, 0), (2, 3)) ((0, 9), (0, 10)).

(** A function holding an [if] that holds a [for], one keyword per line
    apart from [for .. do]. *)
Definition nested_blocks : TextDocument :=
  document [lit "function f()";
            lit "  if a then";
            lit "    for i=1,2 do";
            lit "      print(i)";
            lit "    end";
            lit "  end";
            lit "end"].

Definition nested_blocks_f : DocumentSymbol :=
  symbol ((0, 0), (6, 3)) ((0, 9), (0, 10)).

(** A function whose first statement shares the line of its head. *)
Definition same_line_body : TextDocument :=
  document [lit "function foo(a,b) return a+b";
            lit "end"].

Definition same_line_body_foo : DocumentSymbol :=
  symbol ((0, 0), (1, 3)) ((0, 9), (0, 12)).

(** The spec's first scenario. *)
Definition scenario1 : TextDocument :=
  document [lit "function foo(a,b)";
            lit "  return a+b";
            lit "end"].

Definition scenario1_foo : DocumentSymbol :=
  symbol ((0, 0), (2, 3)) ((0, 9), (0, 12)).

(** The spec's fourth scenario: a function without its [end]. *)
Definition unterminated : TextDocument :=
  document [lit "function f()";
            lit "  print(1)"].

Definition unterminated_f : DocumentSymbol :=
  symbol ((0, 0), (1, 10)) ((0, 9), (0, 10)).

(** Two documents that differ inside a string literal only. *)
Definition keyword_in_string : TextDocument :=
  document [lit "function f()";
            lit "  local s = 'function'";
            lit "end"].

Definition plain_string : TextDocument :=
  document [lit "function f()";
            lit "  local s = 'xxxxxxxx'";
            lit "end"].

Definition string_f : DocumentSymbol :=
  symbol ((0, 0), (2, 3)) ((0, 9), (0, 10)).

(** Two documents that differ inside a long-bracket literal only. *)
Definition keyword_in_long_bracket : TextDocument :=
  document [lit "function f()";
            lit "  local s = [[for]]";
            lit "  return s";
            lit "end"].

Definition plain_long_bracket : TextDocument :=
  document [lit "function f()";
            lit "  local s = [[xxx]]";
            lit "  return s";
            lit "end"].

Definition long_bracket_f : DocumentSymbol :=
  symbol ((0, 0), (3, 3)) ((0, 9), (0, 10)).

(** A symbol whose range starts with a parenthesised prefix: the name
    [f] stands at columns 4 to 5, the range starts at column 0. *)
Definition paren_before_name : TextDocument :=
  document [lit "(x).f = function(a)";
            lit "end"].

Definition paren_before_name_f : DocumentSymbol :=
  symbol ((0, 0), (1, 3)) ((0, 4), (0, 5)).

(** [else if] behind a block comment on the same line, and the same
    lines without the comment. *)
Definition else_if_after_comment : TextDocument :=
  document [lit "function f()";
            lit "  if a then";
            lit "    x()";
            lit "--[[ alt ]] else if b then";
            lit "    y()";
            lit "  end";
            lit "end"].

Definition else_if_plain : TextDocument :=
  document [lit "function f()";
            lit "  if a then";
            lit "    x()";
            lit "            else if b then";
            lit "    y()";
            lit "  end";
            lit "end"].

Definition else_if_f : DocumentSymbol :=
  symbol ((0, 0), (6, 3)) ((0, 9), (0, 10)).

(** The spec's third scenario. *)
Definition scenario3 : TextDocument :=
  document [lit "if x then";
            lit "  print(1)";
            lit "elseif y then";
            lit "  print(2)";
            lit "end"].

(** [if a then .. elseif b then .. else .. end] inside a function. *)
Definition if_elseif_else : TextDocument :=
  document [lit "function f()";
            lit "  if a then";
            lit "    x()";
            lit "  elseif b then";
            lit "    y()";
            lit "  else";
            lit "    z()";
            lit "  end";
            lit "end"].

Definition if_elseif_else_f : DocumentSymbol :=
  symbol ((0, 0), (8, 3)) ((0, 9), (0, 10)).

(** A block comment over three lines. *)
Definition comment_over_lines : str :=
  lit "a = 1 --[[" ++ [LF] ++ lit "note" ++ [LF] ++ lit "]] b = 2".

(** Number of line feeds. *)
Definition newlines (s : str) : nat := length (filter (Ascii.eqb LF) s).

(** A node object as the parser lays it out: [type] first, [loc] and
    [range] last. *)
Definition node (type : string) (range : nat * nat)
    (fields : list (string * Ast.value)) : Ast.value :=
  Ast.Node type range
    ((("type"%string, Ast.Atom) :: fields)
       ++ [("loc"%string, Ast.Atom); ("range"%string, Ast.Arr [Ast.Atom; Ast.Atom])]).
Arguments node type%_string range fields.

Definition identifier (range : nat * nat) : Ast.value :=
  node "Identifier" range [("name"%string, Ast.Atom)].

(** The tree of [while x do], [  y()], [end] (20 characters). *)
Definition while_text : TextDocument :=
  document [lit "while x do"; lit "  y()"; lit "end"].

Definition while_statement : Ast.value :=
  node "WhileStatement" (0, 20)
    [("condition"%string, identifier (6, 7));
     ("body"%string,
      Ast.Arr [node "CallStatement" (13, 16)
                 [("expression"%string,
                   node "CallExpression" (13, 16)
                     [("base"%string, identifier (13, 14));
                      ("arguments"%string, Ast.Arr [])])]])].

Definition while_tree : Ast.value :=
  node "Chunk" (0, 20) [("body"%string, Ast.Arr [while_statement])].

(** The tree of the spec's second scenario, [t = function(x,y)],
    [  return x*y], [end] (34 characters). *)
Definition assignment_text : TextDocument :=
  document [lit "t = function(x,y)"; lit "  return x*y"; lit "end"].

Definition function_expression : Ast.value :=
  node "FunctionDeclaration" (4, 34)
    [("identifier"%string, Ast.Atom);
     ("isLocal"%string, Ast.Atom);
     ("parameters"%string, Ast.Arr [identifier (13, 14); identifier (15, 16)]);
     ("body"%string,
      Ast.Arr [node "ReturnStatement" (20, 30)
                 [("arguments"%string,
                   Ast.Arr [node "BinaryExpression" (27, 30)
                              [("operator"%string, Ast.Atom);
                               ("left"%string, identifier (27, 28));
                               ("right"%string, identifier (29, 30))]])]])].

Definition assignment_statement : Ast.value :=
  node "AssignmentStatement" (0, 34)
    [("variables"%string, Ast.Arr [identifier (0, 1)]);
     ("init"%string, Ast.Arr [function_expression])].

Definition assignment_tree : Ast.value :=
  node "Chunk" (0, 34) [("body"%string, Ast.Arr [assignment_statement])].

End Examples.


(** The document search reports no [do] from the end of the symbol's name
    on (neither with nor without a blank in front). *)
Definition reports_no_do (find : str -> TextDocument -> loc -> option loc)
    (d : TextDocument) (sym : DocumentSymbol) : Prop :=
  let name_end := (line (range_end (selectionRange sym)),
                   character (range_end (selectionRange sym))) in
  find (lit " do") d name_end = None /\ find (lit "do") d name_end = None.

(** What [foundNode] can hold during [visit]: nothing, or a node of an
    accepted kind whose range holds the offset. *)
Definition candidate (selOffset : nat) (o : option Ast.value) : Prop :=
  forall n, o = Some n ->
  exists type start end_ props,
    n = Ast.Node type (start, end_) props
    /\ Ast.accepted type = true /\ start <= selOffset <= end_.

(** [r'] is [r] run on a larger budget: the same outcome once [r] has one. *)
Definition extends {A : Type} (r r' : result A) : Prop := r = Fuel \/ r' = r.


(** ** Termination measures

    Each of the eight global expressions walks through its matches in the
    searched text and then fails once, which sets its [lastIndex] back to 0. *)

(** [lastIndex] after [j] calls of [exec] that start with [lastIndex = li]. *)
Fixpoint after_execs (kw sub : str) (j li : nat) : nat :=
  match j with
  | 0 => li
  | S j' => after_execs kw sub j' (snd (exec kw sub li))
  end.

(** Number of matches [exec] returns from [lastIndex = li] on before it
    returns [null]. *)
Fixpoint matches_left (fuel : nat) (kw sub : str) (li : nat) : nat :=
  match fuel with
  | 0 => 0
  | S fuel' =>
    match exec kw sub li with
    | (Some _, li') => S (matches_left fuel' kw sub li')
    | (None, _) => 0
    end
  end.

(** Number of calls after which the expression is back at [lastIndex = 0]
    when it started there: its matches in [sub], and the call that fails. *)
Definition period (kw sub : str) : nat := S (matches_left (S (length sub)) kw sub 0).

(** The [lastIndex] of the eight expressions after [m] turns of the token
    loop on [sub] that started with all of them at 0. *)
Definition rx_after (sub : str) (m : nat) : BodyEnd.Regexes :=
  BodyEnd.mkRx (after_execs (lit "function") sub m 0) (after_execs (lit "do") sub m 0)
    (after_execs (lit "repeat") sub m 0) (after_execs (lit "if") sub m 0)
    (after_execs (lit "for") sub m 0) (after_execs (lit "while") sub m 0)
    (after_execs (lit "end") sub m 0) (after_execs (lit "until") sub m 0).

(** The periods of the eight expressions on [sub]. *)
Definition periods (sub : str) : list nat :=
  [period (lit "function") sub; period (lit "do") sub; period (lit "repeat") sub;
   period (lit "if") sub; period (lit "for") sub; period (lit "while") sub;
   period (lit "end") sub; period (lit "until") sub].

(** A number of turns within which the token loop on [sub] ends: a common
    multiple of the eight periods. *)
Definition turns (sub : str) : nat := fold_right Nat.mul 1 (periods sub).

(** A run that has one outcome on every budget from some budget on. *)
Definition settles {A : Type} (run : nat -> result A) : Prop :=
  exists f r, r <> Fuel /\ forall f', f <= f' -> run f' = r.

(** ** Notions the further properties speak of *)

Unset Implicit Arguments.

(** The node objects of a tree in the order in which [visit] meets them:
    a node before the nodes below its properties, properties in key
    order, array items in index order. *)
Fixpoint preorder (v : Ast.value) : list Ast.value :=
  match v with
  | Ast.Atom => []
  | Ast.Arr items => flat_map preorder items
  | Ast.Node _ _ props => v :: flat_map (fun kv => preorder (snd kv)) props
  end.

(** The test [visit] makes on a node: its range holds the offset and its
    kind is accepted. *)
Definition encloses (selOffset : nat) (n : Ast.value) : bool :=
  match n with
  | Ast.Node type (start, end_) _ =>
    (start <=? selOffset) && (selOffset <=? end_) && Ast.accepted type
  | _ => false
  end.

(** The last element of a list that passes a test. *)
Definition last_such {A : Type} (test : A -> bool) (l : list A) : option A :=
  fold_left (fun found x => if test x then Some x else found) l None.

(** The inside of a quoted string: no bare quote, and a backslash takes
    the character behind it along. *)
Inductive StringBody (quote : ascii) : str -> Prop :=
| StringBody_end : StringBody quote []
| StringBody_char (c : ascii) (s : str) :
    c <> quote -> c <> ch "\" -> StringBody quote s -> StringBody quote (c :: s)
| StringBody_escape (c : ascii) (s : str) :
    StringBody quote s -> StringBody quote (ch "\" :: c :: s).

(** A character that is neither a quote, a parenthesis nor an opening
    bracket. *)
Definition plain (c : ascii) : bool :=
  negb (is_quote c || Ascii.eqb c (ch "(") || Ascii.eqb c (ch ")")
        || Ascii.eqb c (ch "[")).

(** Text in which every parenthesis outside quoted strings and long
    brackets has its partner. *)
Inductive Nested : str -> Prop :=
| Nested_end : Nested []
| Nested_plain (c : ascii) (w : str) :
    plain c = true -> Nested w -> Nested (c :: w)
| Nested_string (quote : ascii) (s w : str) :
    is_quote quote = true -> StringBody quote s -> Nested w ->
    Nested (quote :: s ++ quote :: w)
| Nested_parens (w1 w2 : str) :
    Nested w1 -> Nested w2 -> Nested (ch "(" :: w1 ++ ch ")" :: w2)
| Nested_long_bracket (eq : nat) (body w : str) :
    (forall k, k < length body ->
       ~ StripSpec.occurs_at (close_token eq) (body ++ close_token eq) k) ->
    Nested w ->
    Nested (ch "[" :: repeat (ch "=") eq ++ ch "[" :: body ++ close_token eq ++ w).

(** ** The earlier version of the provider

    [getLanguageSpecificSymbolInformation] as the earlier version among
    the sources has it: the head runs from the name to the first closing
    parenthesis behind the first opening one, the body to the first [end]
    behind the head.  It has no loop of its own; the searches are those of
    [utils.findInDocument]. *)

Module Legacy.

(** What the earlier version raises. *)
Inductive error : Type :=
| HeadRangeNotFound   (* 'Function not parsable (Could not find head range).' *)
| RangeHeadNull       (* 'Function not parsable (rangeHead is null).' *)
| EndKeywordNotFound  (* 'Function not parsable (Could not find end keyword).' *)
| IllegalLine.        (* the editor's [lineAt] on a line that does not exist *)

Inductive outcome : Type :=
| Returned (r : Resolved)
| Raised (e : error).

Section Provider.

(** [utils.findInDocument(needle, document, start)], as above. *)
Variable findInDocument : str -> TextDocument -> loc -> option loc.

Definition getLanguageSpecificSymbolInformation (d : TextDocument)
    (docSymbol : DocumentSymbol) : outcome :=
  let sel := selectionRange docSymbol in
  let name_start := (line (range_start sel), character (range_start sel)) in
  let name_end := (line (range_end sel), character (range_end sel)) in
  let head_start_line := fst name_start in
  let head_start_char := snd name_start in
  let headEnd :=
    match findInDocument (lit "(") d name_end with
    | Some parenLoc => findInDocument (lit ")") d parenLoc
    | None => None
    end in
  match headEnd with
  | None => Raised HeadRangeNotFound
  | Some headEnd =>
    let rangeHead :=
      range_new head_start_line head_start_char (fst headEnd) (snd headEnd) in
    let body_start_line := line (range_end rangeHead) in
    let body_start_char := character (range_end rangeHead) + 1 in
    match findInDocument (lit "end") d (body_start_line, body_start_char) with
    | None => Raised EndKeywordNotFound
    | Some endLoc =>
      let body_end_line := fst endLoc in
      let body_end_char := snd endLoc + 3 in
      match nth_error (lines d) body_start_line with
      | None => Raised IllegalLine
      | Some text =>
        let rest := substring_from text body_start_char in
        let bs := if is_blank rest then (body_start_line + 1, 0)
                  else (body_start_line, body_start_char) in
        Returned (mkResolved rangeHead
                    (range_new (fst bs) (snd bs) body_end_line body_end_char) [])
      end
    end
  end.

End Provider.

End Legacy.

(** A finder that looks forward and reports places where the needle
    stands: what it returns for a needle that is not empty does not lie
    before the start it was given, and the needle stands there. *)
Definition finds_forward (find : str -> TextDocument -> loc -> option loc)
    (d : TextDocument) : Prop :=
  forall needle start p,
    needle <> [] -> find needle d start = Some p ->
    later start p = false
    /\ exists text, nth_error (lines d) (fst p) = Some text
         /\ starts_with needle (skipn (snd p) text) = true.

(** The words the body-end scan looks for. *)
Definition keywords : list str :=
  [lit "function"; lit "do"; lit "repeat"; lit "if"; lit "for"; lit "while";
   lit "end"; lit "until"].

(** A line that holds no comment and none of these words, in any case of
    letters, not even inside a longer word. *)
Definition wordless (l : str) : Prop :=
  indexOf (lit "--") l 0 = None
  /\ forall kw k, In kw keywords -> ci_starts_with kw (skipn k l) = false.

(** ** Lines with one word of each kind at most

    The first word of a line among the eight of the scan: the earliest
    match of the first round of [exec] calls, as the loop picks it. *)
Definition first_word (l : str) : option (nat * BodyEnd.keyword) :=
  hd_error (BodyEnd.sort (BodyEnd.candidates
                            (fst (BodyEnd.exec_all l BodyEnd.fresh)))).

(** A second round of [exec] calls finds nothing: none of the eight
    expressions matches twice in the line. *)
Definition at_most_once (l : str) : bool :=
  match BodyEnd.candidates
          (fst (BodyEnd.exec_all l (snd (BodyEnd.exec_all l BodyEnd.fresh)))) with
  | [] => true
  | _ :: _ => false
  end.

(** A line without comment on which no expression matches twice. *)
Definition calm (l : str) : Prop :=
  indexOf (lit "--") l 0 = None /\ at_most_once l = true.

(** What the first word makes of the line: it opens a block, it closes
    one (with the index of the word), or the line passes. *)
Inductive line_kind : Type :=
| Opens
| Closes (idx : nat)
| Passes.

Definition kind (l : str) : line_kind :=
  match first_word l with
  | None => Passes
  | Some (idx, BodyEnd.KIf) =>
    if test_else_tail (substring l 0 idx) then Passes else Opens
  | Some (idx, BodyEnd.KEnd) | Some (idx, BodyEnd.KUntil) => Closes idx
  | Some _ => Opens
  end.

(** Lines in which every line that opens a block is followed, behind
    lines that are balanced themselves, by a line that closes one. *)
Inductive Balanced : list str -> Prop :=
| Balanced_nil : Balanced []
| Balanced_pass (l : str) (ls : list str) :
    kind l = Passes -> Balanced ls -> Balanced (l :: ls)
| Balanced_block (l : str) (inner : list str) (c : str) (idx : nat)
    (rest : list str) :
    kind l = Opens -> Balanced inner -> kind c = Closes idx -> Balanced rest ->
    Balanced (l :: inner ++ c :: rest).

Set Implicit Arguments.

(** * Properties *)

Import Examples.

(** ** The comment stripper *)

Import StripSpec.

Lemma starts_with_iff (n s : str) :
  starts_with n s = true <-> exists t, s = n ++ t.
Proof.
  revert s; induction n as [|x n IH]; intros s; simpl.
  - split; [intros _; now exists s | trivial].
  - destruct s as [|y s]; simpl.
    + split; [discriminate | intros [t Ht]; discriminate].
    + rewrite andb_true_iff, Ascii.eqb_eq, IH. split.
      * intros [-> [t ->]]. now exists t.
      * intros [t Ht]. injection Ht as -> ->. split; [reflexivity | now exists t].
Qed.

Lemma occurs_at_iff (tok s : str) (k : nat) :
  occurs_at tok s k <-> k <= length s /\ starts_with tok (skipn k s) = true.
Proof.
  unfold occurs_at. rewrite starts_with_iff. split.
  - intros (a & b & -> & <-). split.
    + rewrite length_app. lia.
    + exists b. rewrite skipn_app, Nat.sub_diag, skipn_all. reflexivity.
  - intros [Hk [t Ht]]. exists (firstn k s), t. split.
    + rewrite <- Ht. symmetry. apply firstn_skipn.
    + rewrite length_firstn. lia.
Qed.

Lemma index_from_Some (n s : str) (p k : nat) :
  index_from n s p = Some k ->
  exists d, k = p + d /\ d <= length s
            /\ starts_with n (skipn d s) = true
            /\ forall d', d' < d -> starts_with n (skipn d' s) = false.
Proof.
  revert p; induction s as [|c s IH]; intros p; simpl.
  - destruct (starts_with n []) eqn:E; [|discriminate].
    intros [= <-]. exists 0. repeat split; try lia; auto. 
  - destruct (starts_with n (c :: s)) eqn:E.
    + intros [= <-]. exists 0. repeat split; try lia; auto. 
    + intros H. apply IH in H as (d & -> & Hd & Hs & Hmin).
      exists (S d). repeat split; try lia; auto.
      intros [|d'] Hlt; simpl; [exact E | apply Hmin; lia].
Qed.

Lemma index_from_None (n s : str) (p : nat) :
  index_from n s p = None -> forall d, starts_with n (skipn d s) = false.
Proof.
  revert p; induction s as [|c s IH]; intros p; simpl.
  - destruct (starts_with n []) eqn:E; [discriminate|].
    intros _ d. now rewrite skipn_nil.
  - destruct (starts_with n (c :: s)) eqn:E; [discriminate|].
    intros H [|d]; simpl; [exact E | eapply IH, H].
Qed.

Lemma count_leading_spec (c : ascii) (s : str) :
  exists t, s = repeat c (count_leading c s) ++ t /\ at_is t 0 c = false.
Proof.
  induction s as [|d s (t & Ht & Hc)]; simpl.
  - now exists [].
  - destruct (Ascii.eqb d c) eqn:E.
    + apply Ascii.eqb_eq in E as ->. exists t. simpl. now rewrite <- Ht.
    + exists (d :: s). split; [reflexivity|]. unfold at_is; simpl. exact E.
Qed.

Lemma count_leading_repeat (c : ascii) (n : nat) (t : str) :
  at_is t 0 c = false -> count_leading c (repeat c n ++ t) = n.
Proof.
  intros Ht. induction n as [|n IH]; simpl.
  - destruct t as [|d t]; simpl; [reflexivity|].
    unfold at_is in Ht; simpl in Ht. now rewrite Ht.
  - now rewrite Ascii.eqb_refl, IH.
Qed.

Lemma count_until_spec (c : ascii) (s : str) :
  count_until c s <= length s
  /\ ~ In c (firstn (count_until c s) s)
  /\ (skipn (count_until c s) s = [] \/ exists t, skipn (count_until c s) s = c :: t).
Proof.
  induction s as [|d s (Hle & Hin & Hrest)]; simpl.
  - repeat split; auto.
  - destruct (Ascii.eqb d c) eqn:E; simpl.
    + apply Ascii.eqb_eq in E as ->. repeat split; [lia | auto | right; now exists s].
    + repeat split; [lia | | exact Hrest].
      intros [-> | H]; [now rewrite Ascii.eqb_refl in E | auto].
Qed.

Lemma at_is_skipn (s : str) (i k : nat) (c : ascii) :
  at_is s (i + k) c = at_is (skipn i s) k c.
Proof. unfold at_is, at_. now rewrite nth_error_skipn. Qed.

Lemma at_is_0 (s : str) (c : ascii) :
  at_is s 0 c = true <-> exists t, s = c :: t.
Proof.
  unfold at_is, at_. destruct s as [|d s]; simpl.
  - split; [discriminate | intros [t Ht]; discriminate].
  - rewrite Ascii.eqb_eq. split; [intros ->; now exists s | intros [t [= -> _]]; reflexivity].
Qed.

Lemma Stripped_length (s o : str) : Stripped s o -> length o = length s.
Proof.
  induction 1; simpl; unfold spaces in *;
    repeat (rewrite ?length_app, ?repeat_length; simpl); try lia.
Qed.

Lemma at_is_S (c d : ascii) (t : str) (k : nat) :
  at_is (d :: t) (S k) c = at_is t k c.
Proof. reflexivity. Qed.

Lemma skipn_suffix (src s : str) (i k : nat) :
  skipn i src = s -> skipn (i + k) src = skipn k s.
Proof. intros <-. rewrite skipn_skipn. f_equal. lia. Qed.

Lemma length_suffix (src s : str) (i : nat) :
  i <= length src -> skipn i src = s -> length src = i + length s.
Proof. intros Hi <-. rewrite length_skipn. lia. Qed.

Lemma not_block_opener_1 (s2 : str) :
  at_is s2 0 (ch "[") = false ->
  forall eq t, lit "--" ++ s2 <> block_opener eq ++ t.
Proof.
  intros H eq t E. unfold block_opener in E. simpl in E.
  injection E as E. subst s2. unfold at_is in H. simpl in H. discriminate.
Qed.

Lemma at_is_after_repeat (c d : ascii) (n : nat) (t : str) :
  at_is (repeat c n ++ t) n d = at_is t 0 d.
Proof. induction n as [|n IH]; simpl; [reflexivity | now rewrite at_is_S]. Qed.

Lemma not_block_opener_2 (s3 : str) :
  at_is s3 (count_leading (ch "=") s3) (ch "[") = false ->
  forall eq t, lit "--[" ++ s3 <> block_opener eq ++ t.
Proof.
  intros H eq t E. unfold block_opener in E. simpl in E.
  injection E as E. subst s3.
  rewrite <- app_assoc in H. simpl in H.
  rewrite count_leading_repeat, at_is_after_repeat in H by reflexivity.
  discriminate.
Qed.

Lemma strip_loop_Stripped (fuel : nat) : forall (src out : str) (i : nat),
  i <= length src -> length src - i < fuel ->
  exists o, strip_loop fuel src out i = Some (out ++ o) /\ Stripped (skipn i src) o.
Proof.
  induction fuel as [|fuel IH]; intros src out i Hi Hf; [lia|].
  cbn [strip_loop].
  destruct (i <? length src) eqn:Elt.
  2: { apply Nat.ltb_ge in Elt. exists []. rewrite app_nil_r, skipn_all2 by lia.
       split; constructor. }
  apply Nat.ltb_lt in Elt.
  remember (skipn i src) as s eqn:Es. symmetry in Es.
  pose proof (length_suffix src Hi Es) as Hlen.
  assert (At : forall k c, at_is src (i + k) c = at_is s k c)
    by (intros; rewrite <- Es; apply at_is_skipn).
  pose proof (At 0) as At0. rewrite Nat.add_0_r in At0.
  rewrite At0, !At.
  assert (Atn : at_ src i = at_ s 0).
  { unfold at_. rewrite <- Es, nth_error_skipn. f_equal. lia. }
  rewrite Atn.
  destruct s as [|c s1]; [simpl in Hlen; lia|].
  destruct (at_is (c :: s1) 0 (ch "-") && at_is (c :: s1) 1 (ch "-")) eqn:Edash.
  - apply andb_true_iff in Edash as [E0 E1].
    apply at_is_0 in E0 as [t [= -> ->]].
    rewrite at_is_S in E1. apply at_is_0 in E1 as [s2 ->].
    rewrite !at_is_S.
    (* the single-line case, shared *)
    assert (Line : (forall eq t, lit "--" ++ s2 <> block_opener eq ++ t) ->
       exists o, strip_loop fuel src
          (out ++ spaces (i + 2 + count_until LF (skipn (i + 2) src) - i))
          (i + 2 + count_until LF (skipn (i + 2) src)) = Some (out ++ o)
          /\ Stripped (lit "--" ++ s2) o).
    { intros Hno. rewrite (@skipn_suffix _ _ _ 2 Es). simpl skipn.
      destruct (count_until_spec LF s2) as (Hle & Hin & Hrest).
      set (cu := count_until LF s2) in *.
      simpl in Hlen.
      destruct (IH src (out ++ spaces (i + 2 + cu - i)) (i + 2 + cu)) as (o & Ho & HS);
        [lia | lia |].
      exists (spaces (2 + cu) ++ o). split.
      - rewrite Ho, <- app_assoc.
        replace (i + 2 + cu - i) with (2 + cu) by lia. reflexivity.
      - replace (i + 2 + cu) with (i + (2 + cu)) in HS by lia.
        rewrite (@skipn_suffix _ _ _ (2 + cu) Es) in HS. simpl skipn in HS.
        rewrite <- (firstn_skipn cu s2).
        replace (2 + cu) with (2 + length (firstn cu s2)) by (rewrite length_firstn; lia).
        apply Stripped_line; auto.
        rewrite firstn_skipn. exact Hno. }
    destruct (at_is s2 0 (ch "[")) eqn:E2.
    2: { apply Line, not_block_opener_1, E2. }
    apply at_is_0 in E2 as [s3 ->].
    rewrite (@skipn_suffix _ _ _ 3 Es). simpl skipn.
    set (eq := count_leading (ch "=") s3).
    replace (i + 3 + eq) with (i + (3 + eq)) by lia.
    rewrite At. cbn [Nat.add]. rewrite !at_is_S.
    destruct (at_is s3 eq (ch "[")) eqn:E3.
    2: { apply Line, (not_block_opener_2 E3). }
    clear Line.
    destruct (count_leading_spec (ch "=") s3) as (t & Ht & _). fold eq in Ht.
    rewrite Ht, at_is_after_repeat in E3. apply at_is_0 in E3 as [s4 ->].
    assert (Eb : skipn i src = block_opener eq ++ s4).
    { rewrite Es, Ht. unfold block_opener. simpl. now rewrite <- app_assoc. }
    assert (Lb : length (block_opener eq) = 4 + eq).
    { unfold block_opener. rewrite !length_app, repeat_length. simpl. lia. }
    assert (Hlen' : length src = i + (4 + eq) + length s4).
    { rewrite (length_suffix src Hi Eb), length_app, Lb. lia. }
    assert (E4 : skipn (i + (4 + eq)) src = s4).
    { rewrite (@skipn_suffix _ _ _ (4 + eq) Eb), <- Lb, skipn_app, Nat.sub_diag, skipn_all.
      reflexivity. }
    unfold indexOf.
    replace (i + S (S (S eq)) + 1) with (i + (4 + eq)) by lia.
    rewrite E4, Nat.min_l by lia.
    change (ch "]" :: repeat (ch "=") eq ++ [ch "]"]) with (close_token eq).
    rewrite <- Es, Eb.
    destruct (index_from (close_token eq) s4 (i + (4 + eq))) as [endIdx|] eqn:Ei.
    + apply index_from_Some in Ei as (d & -> & Hd & Hs & Hmin).
      apply starts_with_iff in Hs as [rest Hrest].
      assert (Hs4 : s4 = firstn d s4 ++ close_token eq ++ rest).
      { rewrite <- Hrest. symmetry. apply firstn_skipn. }
      assert (Ld : length (firstn d s4) = d) by (rewrite length_firstn; lia).
      assert (L4 : length s4 = d + length (close_token eq) + length rest).
      { rewrite Hs4 at 1. rewrite !length_app, Ld. lia. }
      set (n := length (close_token eq)) in *.
      destruct (IH src (out ++ spaces (i + (4 + eq) + d + n - i)) (i + (4 + eq) + d + n))
        as (o & Ho & HS); [lia | lia |].
      exists (spaces (4 + eq + d + n) ++ o). split.
      * rewrite Ho, <- app_assoc.
        replace (i + (4 + eq) + d + n - i) with (4 + eq + d + n) by lia. reflexivity.
      * replace (i + (4 + eq) + d + n) with (i + (4 + eq) + (d + n)) in HS by lia.
        rewrite (@skipn_suffix _ _ _ (d + n) E4) in HS.
        rewrite Hs4 in HS at 1.
        rewrite app_assoc, skipn_app in HS.
        rewrite skipn_all2 in HS by (rewrite length_app, Ld; fold n; lia).
        rewrite length_app, Ld in HS. fold n in HS.
        rewrite Nat.sub_diag in HS. simpl in HS.
        rewrite Hs4 at 1.
        replace (4 + eq + d + n)
          with (length (block_opener eq ++ firstn d s4 ++ close_token eq))
          by (rewrite !length_app, Lb, Ld; fold n; lia).
        apply Stripped_block; [|exact HS].
        intros k Hk Hocc. rewrite <- Hs4 in Hocc.
        apply occurs_at_iff in Hocc as [_ Hocc].
        rewrite Hmin in Hocc by lia. discriminate.
    + exists (spaces (length src - i)). split; [reflexivity|].
      replace (length src - i) with (length (block_opener eq ++ s4))
        by (rewrite length_app, Lb; lia).
      apply Stripped_unterminated.
      intros k Hocc. apply occurs_at_iff in Hocc as [_ Hocc].
      rewrite (index_from_None _ _ _ Ei) in Hocc. discriminate.
  - cbn [at_ nth_error].
    destruct (IH src (out ++ [c]) (i + 1)) as (o & Ho & HS); [simpl in Hlen; lia | lia |].
    exists (c :: o). split.
    + rewrite Ho, <- app_assoc. reflexivity.
    + rewrite (@skipn_suffix _ _ _ 1 Es) in HS. simpl in HS.
      apply Stripped_code; [|exact HS].
      intros t E. simpl in E. injection E as -> ->.
      unfold at_is in Edash. simpl in Edash. discriminate.
Qed.

Lemma strip_loop_runs (src : str) :
  strip_loop (S (length src)) src [] 0 = Some (stripLuaComments src)
  /\ Stripped src (stripLuaComments src).
Proof.
  unfold stripLuaComments.
  destruct (@strip_loop_Stripped (S (length src)) src [] 0) as (o & Ho & HS); [lia | lia |].
  rewrite Ho. simpl in HS. split; [reflexivity | exact HS].
Qed.


Lemma Forall2_spaces (R : ascii -> ascii -> Prop) (s : str) :
  (forall a, R a SP) -> Forall2 R s (spaces (length s)).
Proof. intros HR. induction s; simpl; constructor; auto. Qed.

Lemma Stripped_pointwise (s o : str) :
  Stripped s o -> Forall2 (fun a b => b = SP \/ b = a) s o.
Proof.
  induction 1.
  - constructor.
  - constructor; auto.
  - rewrite app_assoc. replace (2 + length body) with (length (lit "--" ++ body))
      by (rewrite length_app; reflexivity).
    apply Forall2_app; [apply Forall2_spaces; auto | assumption].
  - rewrite !app_assoc. rewrite <- (app_assoc (block_opener eq)).
    apply Forall2_app; [apply Forall2_spaces; auto | assumption].
  - apply Forall2_spaces; auto.
Qed.

Lemma opener_inj (e1 e2 : nat) (t1 t2 : str) :
  block_opener e1 ++ t1 = block_opener e2 ++ t2 -> e1 = e2 /\ t1 = t2.
Proof.
  unfold block_opener. rewrite <- !app_assoc. simpl. intros [= E].
  revert e2 E. induction e1 as [|e1 IH]; intros [|e2] E; simpl in E.
  - injection E as ->. auto.
  - discriminate.
  - discriminate.
  - injection E as E. apply IH in E as [-> ->]. auto.
Qed.

Lemma line_split_unique (b1 r1 b2 r2 : str) :
  b1 ++ r1 = b2 ++ r2 ->
  ~ In LF b1 -> ~ In LF b2 ->
  (r1 = [] \/ exists t, r1 = LF :: t) -> (r2 = [] \/ exists t, r2 = LF :: t) ->
  b1 = b2 /\ r1 = r2.
Proof.
  revert b2. induction b1 as [|x b1 IH]; intros [|y b2] E N1 N2 H1 H2; simpl in *.
  - auto.
  - subst r1. destruct H1 as [H1 | [t H1]]; [discriminate|].
    injection H1 as -> _. exfalso. apply N2. now left.
  - subst r2. destruct H2 as [H2 | [t H2]]; [discriminate|].
    injection H2 as -> _. exfalso. apply N1. now left.
  - injection E as -> E. destruct (IH b2 E) as [-> ->]; auto.
Qed.

Lemma occurs_at_middle (tok a b : str) : occurs_at tok (a ++ tok ++ b) (length a).
Proof. now exists a, b. Qed.

Lemma block_split_unique (tok b1 r1 b2 r2 : str) :
  b1 ++ tok ++ r1 = b2 ++ tok ++ r2 ->
  (forall k, k < length b1 -> ~ occurs_at tok (b1 ++ tok ++ r1) k) ->
  (forall k, k < length b2 -> ~ occurs_at tok (b2 ++ tok ++ r2) k) ->
  b1 = b2 /\ r1 = r2.
Proof.
  intros E H1 H2.
  assert (L : length b1 = length b2).
  { destruct (Nat.lt_trichotomy (length b1) (length b2)) as [Hlt | [Heq | Hgt]]; auto.
    - exfalso. apply (H2 _ Hlt). rewrite <- E. apply occurs_at_middle.
    - exfalso. apply (H1 _ Hgt). rewrite E. apply occurs_at_middle. }
  apply app_eq_app in E as [l [[-> E] | [-> E]]];
    rewrite length_app in L; destruct l; simpl in L; try lia;
    rewrite app_nil_r; simpl in E; apply app_inv_head in E; auto.
Qed.

Lemma opener_dashes (eq : nat) (t : str) :
  block_opener eq ++ t = lit "--" ++ (lit "[" ++ repeat (ch "=") eq ++ lit "[" ++ t).
Proof. unfold block_opener. now rewrite <- !app_assoc. Qed.

Lemma Stripped_cases (s o : str) :
  Stripped s o ->
  (s = [] /\ o = [])
  \/ (exists c s' o', s = c :: s' /\ o = c :: o'
        /\ (forall t, c :: s' <> lit "--" ++ t) /\ Stripped s' o')
  \/ (exists body rest o', s = lit "--" ++ body ++ rest
        /\ o = spaces (2 + length body) ++ o'
        /\ (forall eq t, lit "--" ++ body ++ rest <> block_opener eq ++ t)
        /\ ~ In LF body /\ (rest = [] \/ exists t, rest = LF :: t)
        /\ Stripped rest o')
  \/ (exists eq body rest o', s = block_opener eq ++ body ++ close_token eq ++ rest
        /\ o = spaces (length (block_opener eq ++ body ++ close_token eq)) ++ o'
        /\ (forall k, k < length body ->
              ~ occurs_at (close_token eq) (body ++ close_token eq ++ rest) k)
        /\ Stripped rest o')
  \/ (exists eq body, s = block_opener eq ++ body
        /\ o = spaces (length (block_opener eq ++ body))
        /\ (forall k, ~ occurs_at (close_token eq) body k)).
Proof.
  destruct 1.
  - left. auto.
  - right; left. eauto 8.
  - right; right; left. exists body, rest, o. auto 8.
  - right; right; right; left. exists eq, body, rest, o. auto.
  - right; right; right; right. exists eq, body. auto.
Qed.

Lemma Stripped_functional (s o1 : str) :
  Stripped s o1 -> forall o2, Stripped s o2 -> o1 = o2.
Proof.
  induction 1 as [| c s o Hc _ IH | body rest o Hno Hin Hrest _ IH
                  | eq body rest o Hfirst _ IH | eq body Hnone];
    intros o2 H2; apply Stripped_cases in H2;
    destruct H2 as [(E & ->)
                   | [(c' & s' & o' & E & -> & Hc' & H')
                   | [(body' & rest' & o' & E & -> & Hno' & Hin' & Hrest' & H')
                   | [(eq' & body' & rest' & o' & E & -> & Hfirst' & H')
                   | (eq' & body' & E & -> & Hnone')]]]].
  (* end *)
  - reflexivity.
  - discriminate.
  - discriminate.
  - rewrite opener_dashes in E. discriminate.
  - rewrite opener_dashes in E. discriminate.
  (* code *)
  - discriminate.
  - injection E as <- <-. f_equal. auto.
  - exfalso. eapply Hc, E.
  - exfalso. rewrite opener_dashes in E. eapply Hc, E.
  - exfalso. rewrite opener_dashes in E. eapply Hc, E.
  (* line *)
  - discriminate.
  - exfalso. eapply Hc'. symmetry. exact E.
  - apply app_inv_head in E.
    destruct (@line_split_unique _ _ _ _ E Hin Hin' Hrest Hrest') as [<- <-].
    f_equal. auto.
  - exfalso. eapply Hno, E.
  - exfalso. eapply Hno, E.
  (* block *)
  - rewrite opener_dashes in E. discriminate.
  - exfalso. rewrite opener_dashes in E. eapply Hc'. symmetry. exact E.
  - exfalso. eapply Hno'. symmetry. exact E.
  - apply opener_inj in E as [<- E].
    destruct (@block_split_unique _ _ _ _ _ E Hfirst Hfirst') as [<- <-].
    f_equal. auto.
  - exfalso. apply opener_inj in E as [<- E].
    apply (Hnone' (length body)). rewrite <- E. apply occurs_at_middle.
  (* unterminated *)
  - rewrite opener_dashes in E. discriminate.
  - exfalso. rewrite opener_dashes in E. eapply Hc'. symmetry. exact E.
  - exfalso. eapply Hno'. symmetry. exact E.
  - exfalso. apply opener_inj in E as [<- E].
    apply (Hnone (length body')). rewrite E. apply occurs_at_middle.
  - apply opener_inj in E as [<- <-]. reflexivity.
Qed.



Lemma newlines_le (s o : str) :
  Forall2 (fun a b => b = SP \/ b = a) s o -> newlines o <= newlines s.
Proof.
  unfold newlines. induction 1 as [|a b s o Hab _ IH]; [reflexivity|].
  cbn [filter].
  assert (E : Ascii.eqb LF SP = false) by reflexivity.
  destruct Hab as [-> | ->].
  - rewrite E. destruct (Ascii.eqb LF a); cbn [length]; lia.
  - destruct (Ascii.eqb LF a); cbn [length]; lia.
Qed.

(** C10.  The line feeds inside a block comment are blanked with the rest
    of the comment: there is a text with a block comment over several
    lines whose stripped form has the same length and strictly fewer line
    feeds (none at all, against two), while no text ever gains a line
    feed. *)
Theorem stripLuaComments_blanks_line_feeds :
  (exists src,
     (exists pre body post,
        src = pre ++ block_opener 0 ++ body ++ close_token 0 ++ post
        /\ In LF body)
     /\ length (stripLuaComments src) = length src
     /\ newlines (stripLuaComments src) < newlines src)
  /\ (forall src, newlines (stripLuaComments src) <= newlines src).
Proof.
  split.
  - exists comment_over_lines. split; [|split].
    + exists (lit "a = 1 "), ([LF] ++ lit "note" ++ [LF]), (lit " b = 2").
      split; [reflexivity | simpl; auto].
    + reflexivity.
    + vm_compute. lia.
  - intros src. apply newlines_le, Stripped_pointwise, strip_loop_runs.
Qed.

(** ** The range-scoped outline *)

(** C9.  [provideOutlineForRange] never returns a value, so in particular
    never an empty outline: for every document and range the promise it
    returns is rejected, and when the collaborator it calls first returns
    normally the rejection is the not-implemented error. *)
Theorem provideOutlineForRange_not_implemented
    (OutlineItem DocumentSymbols : Type)
    (getDocumentSymbolsInRange : TextDocument -> Range -> result DocumentSymbols)
    (d : TextDocument) (symbolRange : Range) :
  (forall items : list OutlineItem,
     provideOutlineForRange OutlineItem getDocumentSymbolsInRange d symbolRange
     <> Ok items)
  /\ (forall syms,
        getDocumentSymbolsInRange d symbolRange = Ok syms ->
        provideOutlineForRange OutlineItem getDocumentSymbolsInRange d symbolRange
        = Throw NotImplemented).
Proof.
  unfold provideOutlineForRange. split.
  - intros items. destruct (getDocumentSymbolsInRange d symbolRange); discriminate.
  - intros syms ->. reflexivity.
Qed.

(** [provideOutlineForRange_not_implemented] at a document of one line,
    with a collaborator that finds no symbol. *)
Lemma provideOutlineForRange_not_implemented_witness :
  provideOutlineForRange nat (fun _ _ => Ok (@nil nat))
    (document [lit "x = 1"]) (mkRange (mkPos 0 0) (mkPos 0 5))
  = Throw NotImplemented.
Proof.
  apply (proj2 (provideOutlineForRange_not_implemented nat
                  (fun _ _ => Ok (@nil nat)) (document [lit "x = 1"])
                  (mkRange (mkPos 0 0) (mkPos 0 5))) (@nil nat)).
  reflexivity.
Defined.

(** ** Where the body-end scan can stop *)

Lemma bind_Ok {A B : Type} (m : result A) (k : A -> result B) (b : B) :
  bind m k = Ok b -> exists a, m = Ok a /\ k a = Ok b.
Proof. destruct m; simpl; intros H; try discriminate. eauto. Qed.

Lemma scan_tokens_accepted (fuel : nat) :
  forall lineText sub ln searchFrom startIndent rx depth p,
  BodyEnd.scan_tokens fuel lineText sub ln searchFrom startIndent rx depth
    = Ok (BodyEnd.Accepted p) ->
  fst p = ln /\ searchFrom <= snd p.
Proof.
  induction fuel as [|fuel IH]; intros lineText sub ln searchFrom startIndent rx depth p;
    cbn [BodyEnd.scan_tokens]; [discriminate|].
  destruct (BodyEnd.exec_all sub rx) as [m rx'].
  destruct (BodyEnd.sort (BodyEnd.candidates m)) as [|[idx pick] rest]; [discriminate|].
  destruct pick; try (apply IH).
  - destruct (BodyEnd.ifMatch m); [destruct (test_else_tail _)|]; apply IH.
  - destruct (depth =? 0); [|apply IH].
    destruct (streq _ _); [|apply IH].
    destruct (BodyEnd.endMatch m); [|discriminate].
    intros [= <-]. simpl. split; [reflexivity | lia].
  - destruct (depth =? 0); [|apply IH].
    destruct (streq _ _); [|apply IH].
    destruct (BodyEnd.untilMatch m); [|discriminate].
    intros [= <-]. simpl. split; [reflexivity | lia].
Qed.

Lemma scan_line_found fuel lineText ln bsl bsc startIndent inBlock rx depth p :
  BodyEnd.scan_line fuel lineText ln bsl bsc startIndent inBlock rx depth
    = Ok (BodyEnd.Found p) ->
  fst p = ln /\ (ln = bsl -> bsc <= snd p).
Proof.
  unfold BodyEnd.scan_line.
  destruct (BodyEnd.uncomment_line inBlock lineText) as [[textLine inBlock']|]; [|discriminate].
  destruct (length _ =? 0); [discriminate|].
  intros H. apply bind_Ok in H as (r & Hr & H).
  destruct r as [q|]; [|discriminate]. injection H as ->.
  apply scan_tokens_accepted in Hr as [H1 H2]. split; [exact H1|].
  intros ->. now rewrite Nat.eqb_refl in H2.
Qed.

Lemma scan_lines_some fuel : forall rest ln bsl bsc startIndent inBlock rx depth p,
  BodyEnd.scan_lines fuel rest ln bsl bsc startIndent inBlock rx depth = Ok (Some p) ->
  ln <= fst p /\ (fst p = bsl -> bsl = ln -> bsc <= snd p) /\ (bsl <= ln -> fst p = bsl -> ln = bsl).
Proof.
  induction rest as [|lineText rest IH]; intros ln bsl bsc startIndent inBlock rx depth p;
    cbn [BodyEnd.scan_lines]; [discriminate|].
  intros H. apply bind_Ok in H as (r & Hr & H).
  destruct r as [q | inBlock' rx' depth'].
  - injection H as ->. apply scan_line_found in Hr as [H1 H2].
    repeat split; lia.
  - apply IH in H as (H1 & H2 & H3). repeat split; lia.
Qed.

Lemma find_end_some fuel d hsl bsl bsc p :
  BodyEnd.find_end fuel d hsl bsl bsc = Ok (Some p) ->
  bsl <= fst p /\ (fst p = bsl -> bsc <= snd p).
Proof.
  unfold BodyEnd.find_end. intros H. apply bind_Ok in H as (t & _ & H).
  apply scan_lines_some in H as (H1 & H2 & _). split; auto.
Qed.

Lemma Range_new_ordered (a b : Position) :
  isBefore a b = true -> Range_new a b = mkRange a b.
Proof. unfold Range_new. now intros ->. Qed.

Lemma isBefore_spec (a b : Position) :
  isBefore a b = true <->
  line a < line b \/ (line a = line b /\ character a < character b).
Proof.
  unfold isBefore. rewrite orb_true_iff, andb_true_iff, !Nat.ltb_lt, Nat.eqb_eq.
  reflexivity.
Qed.

Lemma isBefore_neither (a b : Position) :
  isBefore a b = false -> isBefore b a = false -> a = b.
Proof.
  intros H1 H2. destruct a as [la ca], b as [lb cb].
  destruct (isBefore (mkPos la ca) (mkPos lb cb)) eqn:E1; [discriminate|].
  destruct (isBefore (mkPos lb cb) (mkPos la ca)) eqn:E2; [discriminate|].
  assert (~ (la < lb \/ (la = lb /\ ca < cb))) by (rewrite <- (isBefore_spec (mkPos la ca) (mkPos lb cb)); simpl; congruence).
  assert (~ (lb < la \/ (lb = la /\ cb < ca))) by (rewrite <- (isBefore_spec (mkPos lb cb) (mkPos la ca)); simpl; congruence).
  f_equal; lia.
Qed.


(** ** Head end and body start *)




(** When the first strategy finds a closing parenthesis and the document
    search reports no [do] from the name end on, the head ends at that
    parenthesis, whatever else the search would return. *)
Lemma head_end_from_paren find rfa fuel d sym headEnd :
  paren_head_end fuel d sym = Ok (Some headEnd) ->
  find (lit " do") d (line (range_end (selectionRange sym)),
                      character (range_end (selectionRange sym))) = None ->
  find (lit "do") d (line (range_end (selectionRange sym)),
                     character (range_end (selectionRange sym))) = None ->
  head_end find rfa fuel d sym = Ok headEnd.
Proof.
  intros Hp H1 H2. unfold head_end. rewrite Hp. cbn [bind fst snd].
  rewrite H1, H2. reflexivity.
Qed.

(** ** The tree walk *)

Lemma fold_left_invariant {A B : Type} (I : A -> Prop) (f : A -> B -> A) (l : list B) :
  Forall (fun b => forall a, I a -> I (f a b)) l ->
  forall a, I a -> I (fold_left f l a).
Proof.
  induction 1 as [|b l Hb _ IH]; simpl; auto.
Qed.

Lemma visit_candidate (selOffset : nat) (v : Ast.value) :
  forall found, candidate selOffset found -> candidate selOffset (Ast.visit selOffset v found).
Proof.
  induction v as [| items IH | type [start end_] props IH] using Ast.value_induction;
    intros found Hf; cbn [Ast.visit].
  - exact Hf.
  - apply (fold_left_invariant (candidate selOffset)); [|exact Hf].
    eapply Forall_impl; [|exact IH]. auto.
  - apply (fold_left_invariant (candidate selOffset)).
    + eapply Forall_impl; [|exact IH]. auto.
    + destruct ((start <=? selOffset) && (selOffset <=? end_) && Ast.accepted type) eqn:E;
        [|exact Hf].
      apply andb_true_iff in E as [E Ha]. apply andb_true_iff in E as [E1 E2].
      apply Nat.leb_le in E1, E2.
      intros n [= <-]. exists type, start, end_, props. auto.
Qed.

Lemma visit_accepts_six_kinds (selOffset : nat) (ast n : Ast.value) :
  Ast.visit selOffset ast None = Some n ->
  In (Ast.type_of n)
     ["FunctionDeclaration"; "FunctionStatement"; "ForNumericStatement";
      "ForGenericStatement"; "IfStatement"; "RepeatStatement"]%string.
Proof.
  intros H.
  destruct (@visit_candidate selOffset ast None) with (n := n)
    as (type & s & e & props & -> & Ha & _); [intros ? [=] | exact H |].
  simpl. unfold Ast.accepted in Ha.
  repeat (apply orb_true_iff in Ha as [Ha | Ha]);
    apply String.eqb_eq in Ha; subst; simpl; auto 10.
Qed.

(** ** The step budget

    A run that has an outcome keeps it on every larger budget. *)

Lemma extends_refl {A : Type} (r : result A) : extends r r.
Proof. now right. Qed.

Lemma extends_Fuel {A : Type} (r : result A) : extends Fuel r.
Proof. now left. Qed.

Lemma extends_bind {A B : Type} (m m' : result A) (k k' : A -> result B) :
  extends m m' -> (forall a, extends (k a) (k' a)) -> extends (bind m k) (bind m' k').
Proof.
  intros [-> | ->] Hk; [apply extends_Fuel|].
  destruct m; simpl; auto using extends_refl.
Qed.

Lemma extends_settled {A : Type} (r r' : result A) :
  extends r r' -> r <> Fuel -> r' = r.
Proof. intros [-> | ->]; congruence. Qed.

Create HintDb fuel.
#[local] Hint Resolve extends_refl extends_Fuel : fuel.

Lemma scan_tokens_extends (f : nat) : forall f' lineText sub ln searchFrom startIndent rx depth,
  f <= f' ->
  extends (BodyEnd.scan_tokens f lineText sub ln searchFrom startIndent rx depth)
          (BodyEnd.scan_tokens f' lineText sub ln searchFrom startIndent rx depth).
Proof.
  induction f as [|f IH]; intros [|f'] lineText sub ln searchFrom startIndent rx depth Hle;
    try lia; cbn [BodyEnd.scan_tokens]; auto with fuel.
  assert (Hle' : f <= f') by lia.
  destruct (BodyEnd.exec_all sub rx) as [m rx'].
  destruct (BodyEnd.sort (BodyEnd.candidates m)) as [|[idx pick] rest]; auto with fuel.
  destruct pick; auto with fuel.
  - destruct (BodyEnd.ifMatch m); [destruct (test_else_tail _)|]; auto.
  - destruct (depth =? 0); auto.
    destruct (streq _ _); auto. destruct (BodyEnd.endMatch m); auto with fuel.
  - destruct (depth =? 0); auto.
    destruct (streq _ _); auto. destruct (BodyEnd.untilMatch m); auto with fuel.
Qed.

Lemma body_scan_line_extends f f' lineText ln bsl bsc startIndent inBlock rx depth :
  f <= f' ->
  extends (BodyEnd.scan_line f lineText ln bsl bsc startIndent inBlock rx depth)
          (BodyEnd.scan_line f' lineText ln bsl bsc startIndent inBlock rx depth).
Proof.
  intros Hle. unfold BodyEnd.scan_line.
  destruct (BodyEnd.uncomment_line inBlock lineText) as [[textLine inBlock']|]; auto with fuel.
  destruct (length _ =? 0); auto with fuel.
  apply extends_bind; [now apply scan_tokens_extends | auto with fuel].
Qed.

Lemma scan_lines_extends f f' : f <= f' ->
  forall rest ln bsl bsc startIndent inBlock rx depth,
  extends (BodyEnd.scan_lines f rest ln bsl bsc startIndent inBlock rx depth)
          (BodyEnd.scan_lines f' rest ln bsl bsc startIndent inBlock rx depth).
Proof.
  intros Hle. induction rest as [|lineText rest IH]; intros; cbn [BodyEnd.scan_lines];
    auto with fuel.
  apply extends_bind; [now apply body_scan_line_extends|].
  intros [p | inBlock' rx' depth']; auto with fuel.
Qed.

Lemma find_end_extends f f' d hsl bsl bsc : f <= f' ->
  extends (BodyEnd.find_end f d hsl bsl bsc) (BodyEnd.find_end f' d hsl bsl bsc).
Proof.
  intros Hle. unfold BodyEnd.find_end.
  apply extends_bind; auto with fuel. intros. now apply scan_lines_extends.
Qed.

Lemma paren_scan_line_extends (f : nat) : forall f' d lineText ln i depth,
  f <= f' ->
  extends (ParenScan.scan_line f d lineText ln i depth)
          (ParenScan.scan_line f' d lineText ln i depth).
Proof.
  induction f as [|f IH]; intros [|f'] d lineText ln i depth Hle;
    try lia; cbn [ParenScan.scan_line]; auto with fuel.
  assert (Hle' : f <= f') by lia.
  destruct (at_ lineText i) as [c|]; auto with fuel.
  destruct (is_quote c); auto.
  destruct (if Ascii.eqb c (ch "[") then long_open (substring_from lineText i) else None).
  - destruct (ParenScan.find_close _ _ _ _ _) as [[ln2 idx]|]; auto with fuel.
  - destruct (Ascii.eqb c (ch "(")); auto.
    destruct (Ascii.eqb c (ch ")")); auto.
    destruct (depth - 1 <=? 0); auto with fuel.
Qed.

Lemma scan_from_extends (f : nat) : forall f' d parenLoc ln depth,
  f <= f' ->
  extends (ParenScan.scan_from f d parenLoc ln depth)
          (ParenScan.scan_from f' d parenLoc ln depth).
Proof.
  induction f as [|f IH]; intros [|f'] d parenLoc ln depth Hle;
    try lia; cbn [ParenScan.scan_from]; auto with fuel.
  destruct (ln <? lineCount d); auto with fuel.
  apply extends_bind; auto with fuel. intros lineText.
  apply extends_bind; [apply paren_scan_line_extends; lia|].
  intros [p | | ln' depth']; auto with fuel. apply IH. lia.
Qed.

Lemma findMatchingParen_loop_extends (f : nat) : forall f' src i depth,
  f <= f' ->
  extends (Structural.findMatchingParen_loop f src i depth)
          (Structural.findMatchingParen_loop f' src i depth).
Proof.
  induction f as [|f IH]; intros [|f'] src i depth Hle;
    try lia; cbn [Structural.findMatchingParen_loop]; auto with fuel.
  assert (Hle' : f <= f') by lia.
  destruct (at_ src i) as [c|]; auto with fuel.
  destruct (is_quote c); auto.
  destruct (if Ascii.eqb c (ch "[") then long_open (substring_from src i) else None).
  - destruct (indexOf _ _ _); auto with fuel.
  - destruct (Ascii.eqb c (ch "(")); auto.
    destruct (Ascii.eqb c (ch ")")); auto.
    destruct (depth - 1 =? 0)%Z; auto with fuel.
Qed.

Lemma split_extends f f' src selOffset foundNode : f <= f' ->
  extends (Structural.split f src selOffset foundNode)
          (Structural.split f' src selOffset foundNode).
Proof.
  intros Hle. unfold Structural.split, Structural.findMatchingParen.
  repeat match goal with
         | |- extends (bind _ _) (bind _ _) => apply extends_bind; [|intros]
         | |- extends (Structural.findMatchingParen_loop _ _ _ _) _ =>
           now apply findMatchingParen_loop_extends
         | |- extends ?x ?x => apply extends_refl
         | |- context [match ?x with _ => _ end] => destruct x
         | |- context [if ?x then _ else _] => destruct x
         end.
Qed.

Section Extends.
Variable luaparse : option (str -> result Ast.value).
Variable find : str -> TextDocument -> loc -> option loc.
Variable rfa : loc -> loc -> bool.
Variables (f f' : nat) (Hle : f <= f').
Variables (d : TextDocument) (sym : DocumentSymbol).

Lemma structural_extends :
  extends (structural luaparse f d sym) (structural luaparse f' d sym).
Proof.
  unfold structural. destruct luaparse as [parse|]; auto with fuel.
  apply extends_bind; auto with fuel. intros ast.
  destruct (Ast.visit _ ast None); auto with fuel.
  apply extends_bind; [now apply split_extends | auto with fuel].
Qed.

Lemma paren_head_end_extends :
  extends (paren_head_end f d sym) (paren_head_end f' d sym).
Proof.
  unfold paren_head_end, ParenScan.matching_paren.
  destruct (indexOf _ _ _); auto with fuel. now apply scan_from_extends.
Qed.

Lemma head_end_extends :
  extends (head_end find rfa f d sym) (head_end find rfa f' d sym).
Proof.
  unfold head_end. apply extends_bind; [apply paren_head_end_extends | auto with fuel].
Qed.

Lemma heuristic_extends :
  extends (heuristic find rfa f d sym) (heuristic find rfa f' d sym).
Proof.
  unfold heuristic. apply extends_bind; [apply head_end_extends|]. intros headEnd.
  apply extends_bind; auto with fuel. intros [bsl bsc].
  apply extends_bind; [now apply find_end_extends | auto with fuel].
Qed.

Lemma getLanguageSpecificSymbolInformation_extends :
  extends (getLanguageSpecificSymbolInformation luaparse find rfa f d sym)
          (getLanguageSpecificSymbolInformation luaparse find rfa f' d sym).
Proof.
  unfold getLanguageSpecificSymbolInformation.
  destruct structural_extends as [-> | ->]; auto with fuel.
  destruct (structural luaparse f d sym) as [[r|]|e|]; auto with fuel;
    apply heuristic_extends.
Qed.

End Extends.

Lemma heuristic_from find rfa d sym (f : nat) (r : result Resolved) :
  heuristic find rfa f d sym = r -> r <> Fuel ->
  forall f', f <= f' -> heuristic find rfa f' d sym = r.
Proof.
  intros <- Hr f' Hle. exact (extends_settled (heuristic_extends find rfa Hle d sym) Hr).
Qed.

Lemma resolution_from luaparse find rfa d sym (f : nat) (r : result Resolved) :
  getLanguageSpecificSymbolInformation luaparse find rfa f d sym = r -> r <> Fuel ->
  forall f', f <= f' ->
  getLanguageSpecificSymbolInformation luaparse find rfa f' d sym = r.
Proof.
  intros <- Hr f' Hle.
  exact (extends_settled
           (getLanguageSpecificSymbolInformation_extends luaparse find rfa Hle d sym) Hr).
Qed.

Lemma body_scan_line_from lineText ln bsl bsc startIndent inBlock rx depth
    (f : nat) (r : result BodyEnd.line_result) :
  BodyEnd.scan_line f lineText ln bsl bsc startIndent inBlock rx depth = r ->
  r <> Fuel ->
  forall f', f <= f' ->
  BodyEnd.scan_line f' lineText ln bsl bsc startIndent inBlock rx depth = r.
Proof.
  intros <- Hr f' Hle.
  exact (extends_settled
           (body_scan_line_extends lineText ln bsl bsc startIndent inBlock rx depth Hle)
           Hr).
Qed.

Lemma paren_head_end_from d sym (f : nat) (r : result (option loc)) :
  paren_head_end f d sym = r -> r <> Fuel ->
  forall f', f <= f' -> paren_head_end f' d sym = r.
Proof.
  intros <- Hr f' Hle. exact (extends_settled (paren_head_end_extends Hle d sym) Hr).
Qed.

Lemma find_end_from d hsl bsl bsc (f : nat) (r : result (option loc)) :
  BodyEnd.find_end f d hsl bsl bsc = r -> r <> Fuel ->
  forall f', f <= f' -> BodyEnd.find_end f' d hsl bsl bsc = r.
Proof.
  intros <- Hr f' Hle. exact (extends_settled (find_end_extends d hsl bsl bsc Hle) Hr).
Qed.

(** ** Termination

    The token loop stops when the eight expressions fail in the same turn,
    which they do on the last turn of every common multiple of their
    periods; the parenthesis scans move forward in the text. *)

Lemma ci_starts_with_length (kw s : str) :
  ci_starts_with kw s = true -> length kw <= length s.
Proof.
  revert s. induction kw as [|x kw IH]; intros [|y s]; simpl; try lia; try discriminate.
  intros H. apply andb_true_iff in H as [_ H]. apply IH in H. lia.
Qed.

Lemma kw_search_Some (kw s : str) : forall rest pos idx,
  kw_search kw s rest pos = Some idx ->
  exists d, idx = pos + d /\ ci_starts_with kw (skipn d rest) = true.
Proof.
  induction rest as [|c rest IH]; intros pos idx; cbn [kw_search].
  - destruct (kw_at kw s [] pos) eqn:E; [|discriminate].
    intros [= <-]. exists 0. split; [lia|].
    unfold kw_at in E. apply andb_true_iff in E as [E _].
    apply andb_true_iff in E as [E _]. exact E.
  - destruct (kw_at kw s (c :: rest) pos) eqn:E.
    + intros [= <-]. exists 0. split; [lia|].
      unfold kw_at in E. apply andb_true_iff in E as [E _].
      apply andb_true_iff in E as [E _]. exact E.
    + intros H. apply IH in H as (d & -> & H). exists (S d). split; [lia | exact H].
Qed.

Lemma exec_Some (kw sub : str) (li idx li' : nat) :
  kw <> [] ->
  exec kw sub li = (Some idx, li') ->
  li < li' /\ li' <= length sub.
Proof.
  intros Hkw. unfold exec.
  destruct (kw_search kw sub (skipn li sub) li) as [i|] eqn:E; [|discriminate].
  intros [= <- <-]. apply kw_search_Some in E as (d & -> & H).
  apply ci_starts_with_length in H. rewrite skipn_skipn, length_skipn in H.
  destruct kw; [congruence|]. simpl in *. lia.
Qed.

Lemma exec_None (kw sub : str) (li li' : nat) :
  exec kw sub li = (None, li') -> li' = 0.
Proof.
  unfold exec. destruct (kw_search _ _ _ _); [discriminate|]. now intros [= <-].
Qed.

Lemma after_execs_add (kw sub : str) (j k li : nat) :
  after_execs kw sub (j + k) li = after_execs kw sub k (after_execs kw sub j li).
Proof. revert li. induction j as [|j IH]; intros li; simpl; auto. Qed.

(** After [matches_left] matches the next call fails. *)
Lemma matches_left_fails (kw sub : str) : kw <> [] ->
  forall fuel li, length sub < li + fuel ->
  fst (exec kw sub (after_execs kw sub (matches_left fuel kw sub li) li)) = None.
Proof.
  intros Hkw. induction fuel as [|fuel IH]; intros li Hf.
  - simpl. unfold exec.
    destruct (kw_search kw sub (skipn li sub) li) as [i|] eqn:E; [|reflexivity].
    apply kw_search_Some in E as (d & -> & H).
    apply ci_starts_with_length in H. rewrite skipn_skipn, length_skipn in H.
    destruct kw; [congruence|]. simpl in *. lia.
  - cbn [matches_left]. destruct (exec kw sub li) as [[idx|] li'] eqn:E.
    + cbn [after_execs]. rewrite E. cbn [snd].
      apply IH. apply (@exec_Some kw sub li idx li' Hkw) in E. lia.
    + simpl. now rewrite E.
Qed.

(** The expression is back at 0 after a whole period. *)
Lemma after_period (kw sub : str) : kw <> [] ->
  after_execs kw sub (period kw sub) 0 = 0.
Proof.
  intros Hkw. unfold period.
  replace (S (matches_left (S (length sub)) kw sub 0))
    with (matches_left (S (length sub)) kw sub 0 + 1) by lia.
  rewrite after_execs_add. cbn [after_execs].
  pose proof (@matches_left_fails kw sub Hkw (S (length sub)) 0 ltac:(lia)) as H.
  destruct (exec kw sub _) as [[idx|] li'] eqn:E; [discriminate|].
  simpl. now apply exec_None in E.
Qed.

Lemma after_periods (kw sub : str) : kw <> [] ->
  forall q, after_execs kw sub (q * period kw sub) 0 = 0.
Proof.
  intros Hkw. induction q as [|q IH]; [reflexivity|].
  replace (S q * period kw sub) with (q * period kw sub + period kw sub) by lia.
  rewrite after_execs_add, IH. now apply after_period.
Qed.

(** On the last turn of any multiple of the period the call fails. *)
Lemma fails_before_multiple (kw sub : str) : kw <> [] ->
  forall q, fst (exec kw sub (after_execs kw sub (S q * period kw sub - 1) 0)) = None.
Proof.
  intros Hkw q.
  replace (S q * period kw sub - 1)
    with (q * period kw sub + matches_left (S (length sub)) kw sub 0)
    by (unfold period; lia).
  rewrite after_execs_add, after_periods by assumption.
  apply matches_left_fails; [assumption | lia].
Qed.

Lemma fails_at_last_turn (kw sub : str) (n : nat) : kw <> [] ->
  0 < n -> Nat.divide (period kw sub) n ->
  fst (exec kw sub (after_execs kw sub (n - 1) 0)) = None.
Proof.
  intros Hkw Hn [z ->].
  destruct z as [|q]; [simpl in Hn; lia|].
  now apply fails_before_multiple.
Qed.

Lemma after_execs_S (kw sub : str) (m li : nat) :
  after_execs kw sub (S m) li = snd (exec kw sub (after_execs kw sub m li)).
Proof.
  replace (S m) with (m + 1) by lia. now rewrite after_execs_add.
Qed.

Lemma product_divide (p : nat) (l : list nat) :
  In p l -> Nat.divide p (fold_right Nat.mul 1 l).
Proof.
  induction l as [|x l IH]; simpl; [tauto|].
  intros [-> | H]; [apply Nat.divide_mul_l, Nat.divide_refl
                   | apply Nat.divide_mul_r, IH, H].
Qed.

Lemma product_positive (l : list nat) :
  Forall (fun p => 0 < p) l -> 0 < fold_right Nat.mul 1 l.
Proof. induction 1; simpl; nia. Qed.

Lemma turns_positive (sub : str) : 0 < turns sub.
Proof.
  apply product_positive. unfold periods, period.
  repeat (apply Forall_cons; [lia|]). apply Forall_nil.
Qed.

Lemma exec_all_after (sub : str) (m : nat) :
  snd (BodyEnd.exec_all sub (rx_after sub m)) = rx_after sub (S m).
Proof.
  unfold BodyEnd.exec_all, rx_after. cbn [BodyEnd.funcRegex BodyEnd.doRegex
    BodyEnd.repeatRegex BodyEnd.ifRegex BodyEnd.forRegex BodyEnd.whileRegex
    BodyEnd.endRegex BodyEnd.untilRegex].
  rewrite !after_execs_S.
  repeat match goal with |- context [exec ?kw sub ?li] => destruct (exec kw sub li) end.
  reflexivity.
Qed.

Lemma exec_all_last_turn (sub : str) :
  BodyEnd.candidates (fst (BodyEnd.exec_all sub (rx_after sub (turns sub - 1)))) = [].
Proof.
  assert (H : forall kw, kw <> [] -> In (period kw sub) (periods sub) ->
    fst (exec kw sub (after_execs kw sub (turns sub - 1) 0)) = None).
  { intros kw Hkw Hin. apply fails_at_last_turn; auto using turns_positive.
    now apply product_divide. }
  unfold BodyEnd.exec_all, rx_after. cbn [BodyEnd.funcRegex BodyEnd.doRegex
    BodyEnd.repeatRegex BodyEnd.ifRegex BodyEnd.forRegex BodyEnd.whileRegex
    BodyEnd.endRegex BodyEnd.untilRegex].
  pose proof (H (lit "function") ltac:(discriminate) ltac:(simpl; auto 10)) as H1.
  pose proof (H (lit "do") ltac:(discriminate) ltac:(simpl; auto 10)) as H2.
  pose proof (H (lit "repeat") ltac:(discriminate) ltac:(simpl; auto 10)) as H3.
  pose proof (H (lit "if") ltac:(discriminate) ltac:(simpl; auto 10)) as H4.
  pose proof (H (lit "for") ltac:(discriminate) ltac:(simpl; auto 10)) as H5.
  pose proof (H (lit "while") ltac:(discriminate) ltac:(simpl; auto 10)) as H6.
  pose proof (H (lit "end") ltac:(discriminate) ltac:(simpl; auto 10)) as H7.
  pose proof (H (lit "until") ltac:(discriminate) ltac:(simpl; auto 10)) as H8.
  clear H.
  repeat match goal with
         | |- context [exec ?kw sub ?li] =>
           destruct (exec kw sub li) as [[?|] ?]; cbn [fst] in *; try discriminate
         end.
  reflexivity.
Qed.

Lemma scan_tokens_ends (lineText sub : str) (ln searchFrom : nat) (startIndent : str) :
  forall k m fuel depth,
  m + k = turns sub - 1 -> k < fuel ->
  BodyEnd.scan_tokens fuel lineText sub ln searchFrom startIndent (rx_after sub m) depth
  <> Fuel.
Proof.
  induction k as [|k IH]; intros m [|fuel] depth Hm Hf; try lia;
    cbn [BodyEnd.scan_tokens].
  - replace m with (turns sub - 1) by lia.
    pose proof (exec_all_last_turn sub) as Hc.
    destruct (BodyEnd.exec_all sub (rx_after sub (turns sub - 1))) as [mt rx'].
    cbn [fst] in Hc. rewrite Hc. discriminate.
  - pose proof (exec_all_after sub m) as Hn.
    destruct (BodyEnd.exec_all sub (rx_after sub m)) as [mt rx'].
    cbn [snd] in Hn. subst rx'.
    assert (Hnext : forall depth',
      BodyEnd.scan_tokens fuel lineText sub ln searchFrom startIndent
        (rx_after sub (S m)) depth' <> Fuel) by (intros; apply IH; lia).
    destruct (BodyEnd.sort (BodyEnd.candidates mt)) as [|[idx pick] rest]; [discriminate|].
    destruct pick; auto.
    + destruct (BodyEnd.ifMatch mt); [destruct (test_else_tail _)|]; auto.
    + destruct (depth =? 0); auto.
      destruct (streq _ _); auto. destruct (BodyEnd.endMatch mt); discriminate.
    + destruct (depth =? 0); auto.
      destruct (streq _ _); auto. destruct (BodyEnd.untilMatch mt); discriminate.
Qed.

(** The token loop over a line ends within [turns sub] turns when it
    starts with the eight expressions at 0. *)
Lemma scan_tokens_terminates lineText sub ln searchFrom startIndent depth fuel :
  turns sub <= fuel ->
  BodyEnd.scan_tokens fuel lineText sub ln searchFrom startIndent BodyEnd.fresh depth
  <> Fuel.
Proof.
  intros Hf. pose proof (turns_positive sub).
  apply (@scan_tokens_ends lineText sub ln searchFrom startIndent (turns sub - 1) 0);
    lia.
Qed.

Lemma insert_not_nil c l : BodyEnd.insert c l <> [].
Proof. destruct l; simpl; [discriminate|]. destruct (_ <=? _); discriminate. Qed.

Lemma sort_nil l : BodyEnd.sort l = [] -> l = [].
Proof.
  destruct l as [|c l]; [reflexivity|]. simpl. intros H.
  now apply insert_not_nil in H.
Qed.

Lemma exec_all_none (sub : str) (rx : BodyEnd.Regexes) :
  BodyEnd.candidates (fst (BodyEnd.exec_all sub rx)) = [] ->
  snd (BodyEnd.exec_all sub rx) = BodyEnd.fresh.
Proof.
  unfold BodyEnd.exec_all, exec.
  repeat match goal with
         | |- context [kw_search ?kw sub ?rest ?li] =>
           destruct (kw_search kw sub rest li)
         end; cbn; try discriminate; reflexivity.
Qed.

Lemma scan_tokens_line_done (fuel : nat) :
  forall lineText sub ln searchFrom startIndent rx depth rx' depth',
  BodyEnd.scan_tokens fuel lineText sub ln searchFrom startIndent rx depth
    = Ok (BodyEnd.LineDone rx' depth') ->
  rx' = BodyEnd.fresh.
Proof.
  induction fuel as [|fuel IH];
    intros lineText sub ln searchFrom startIndent rx depth rx' depth';
    cbn [BodyEnd.scan_tokens]; [discriminate|].
  pose proof (@exec_all_none sub rx) as Hn.
  destruct (BodyEnd.exec_all sub rx) as [m rx1]. cbn [fst snd] in Hn.
  destruct (BodyEnd.sort (BodyEnd.candidates m)) as [|[idx pick] rest] eqn:Es.
  - intros [= <- _]. apply Hn. now apply sort_nil.
  - destruct pick; try (apply IH).
    + destruct (BodyEnd.ifMatch m); [destruct (test_else_tail _)|]; apply IH.
    + destruct (depth =? 0); [|apply IH].
      destruct (streq _ _); [|apply IH].
      destruct (BodyEnd.endMatch m); discriminate.
    + destruct (depth =? 0); [|apply IH].
      destruct (streq _ _); [|apply IH].
      destruct (BodyEnd.untilMatch m); discriminate.
Qed.

Lemma settles_const {A : Type} (r : result A) : r <> Fuel -> settles (fun _ => r).
Proof. intros Hr. exists 0, r. auto. Qed.

Lemma settles_bind {A B : Type} (m : nat -> result A) (k : nat -> A -> result B) :
  settles m -> (forall a, settles (fun f => k f a)) ->
  settles (fun f => bind (m f) (k f)).
Proof.
  intros (f1 & r & Hr & Hm) Hk. destruct r as [a | e |]; [| |congruence].
  - destruct (Hk a) as (f2 & r2 & Hr2 & Hk2).
    exists (Nat.max f1 f2), r2. split; [exact Hr2|].
    intros f' Hf. rewrite Hm by lia. simpl. apply Hk2. lia.
  - exists f1, (Throw e). split; [discriminate|].
    intros f' Hf. now rewrite Hm.
Qed.

Lemma body_scan_line_settles lineText ln bsl bsc startIndent inBlock depth :
  exists f r, r <> Fuel
    /\ (forall f', f <= f' ->
        BodyEnd.scan_line f' lineText ln bsl bsc startIndent inBlock BodyEnd.fresh depth = r)
    /\ (forall ib rx dp, r = Ok (BodyEnd.Continue ib rx dp) -> rx = BodyEnd.fresh).
Proof.
  unfold BodyEnd.scan_line.
  destruct (BodyEnd.uncomment_line inBlock lineText) as [[textLine inBlock']|].
  2: { exists 0, (Ok (BodyEnd.Continue inBlock BodyEnd.fresh depth)).
       repeat split; [discriminate | now intros ? ? ? [= _ <- _]]. }
  set (searchFrom := if ln =? bsl then bsc else 0).
  set (sub := substring_from textLine searchFrom).
  destruct (length sub =? 0).
  { exists 0, (Ok (BodyEnd.Continue inBlock' BodyEnd.fresh depth)).
    repeat split; [discriminate | now intros ? ? ? [= _ <- _]]. }
  change (BodyEnd.reset_lastIndex BodyEnd.fresh) with BodyEnd.fresh.
  pose proof (@scan_tokens_terminates lineText sub ln searchFrom startIndent depth
                (turns sub) (le_n _)) as Ht.
  destruct (BodyEnd.scan_tokens (turns sub) lineText sub ln searchFrom startIndent
              BodyEnd.fresh depth) as [[p | rx' depth'] | e |] eqn:E; [| | |congruence].
  - exists (turns sub), (Ok (BodyEnd.Found p)). repeat split; [discriminate | | discriminate].
    intros f' Hf.
    rewrite (extends_settled (scan_tokens_extends lineText sub ln searchFrom startIndent
               BodyEnd.fresh depth Hf)); rewrite E; [reflexivity | discriminate].
  - apply scan_tokens_line_done in E as Hrx. subst rx'.
    exists (turns sub), (Ok (BodyEnd.Continue inBlock' BodyEnd.fresh depth')).
    repeat split; [discriminate | | now intros ? ? ? [= _ <- _]].
    intros f' Hf.
    rewrite (extends_settled (scan_tokens_extends lineText sub ln searchFrom startIndent
               BodyEnd.fresh depth Hf)); rewrite E; [reflexivity | discriminate].
  - exists (turns sub), (Throw e). repeat split; [discriminate | | discriminate].
    intros f' Hf.
    rewrite (extends_settled (scan_tokens_extends lineText sub ln searchFrom startIndent
               BodyEnd.fresh depth Hf)); rewrite E; [reflexivity | discriminate].
Qed.

Lemma scan_lines_settles : forall rest ln bsl bsc startIndent inBlock depth,
  settles (fun f => BodyEnd.scan_lines f rest ln bsl bsc startIndent inBlock
                      BodyEnd.fresh depth).
Proof.
  induction rest as [|lineText rest IH]; intros ln bsl bsc startIndent inBlock depth.
  - exists 0, (Ok None). split; [discriminate | reflexivity].
  - unfold settles. cbn [BodyEnd.scan_lines].
    destruct (@body_scan_line_settles lineText ln bsl bsc startIndent inBlock depth)
      as (f1 & r & Hr & Hrun & Hrx).
    destruct r as [[p | inBlock' rx' depth'] | e |]; [| | |congruence].
    + exists f1, (Ok (Some p)). split; [discriminate|].
      intros f' Hf. now rewrite Hrun.
    + rewrite (Hrx _ _ _ eq_refl) in Hrun.
      destruct (IH (S ln) bsl bsc startIndent inBlock' depth') as (f2 & r2 & Hr2 & Hrun2).
      exists (Nat.max f1 f2), r2. split; [exact Hr2|].
      intros f' Hf. rewrite Hrun by lia. simpl. apply Hrun2. lia.
    + exists f1, (Throw e). split; [discriminate|].
      intros f' Hf. now rewrite Hrun.
Qed.

Lemma find_end_settles d hsl bsl bsc :
  settles (fun f => BodyEnd.find_end f d hsl bsl bsc).
Proof.
  unfold BodyEnd.find_end. destruct (lineAt d hsl) as [headLine | e |] eqn:E.
  - simpl. apply scan_lines_settles.
  - exists 0, (Throw e). split; [discriminate | reflexivity].
  - unfold lineAt in E. destruct (nth_error _ _); discriminate.
Qed.

Lemma settles_of_extends {A : Type} (run : nat -> result A) :
  (forall f f', f <= f' -> extends (run f) (run f')) ->
  (exists f, run f <> Fuel) -> settles run.
Proof.
  intros Hext [f Hf]. exists f, (run f). split; [exact Hf|].
  intros f' Hle. exact (extends_settled (Hext f f' Hle) Hf).
Qed.

Lemma skip_quoted_ge (q : ascii) : forall rest i, i <= skip_quoted q rest i.
Proof.
  fix IH 1. intros [|c t] i; cbn [skip_quoted]; [apply Nat.le_refl|].
  destruct (Ascii.eqb c q); [apply Nat.le_refl|].
  destruct (Ascii.eqb c (ch "\")).
  - destruct t as [|c' t']; [lia|]. specialize (IH t' (i + 2)). lia.
  - specialize (IH t (i + 1)). lia.
Qed.

Lemma after_quoted_gt (s : str) (i : nat) (q : ascii) : i < after_quoted s i q.
Proof.
  unfold after_quoted. pose proof (skip_quoted_ge q (skipn (i + 1) s) (i + 1)). lia.
Qed.

Lemma starts_with_nil (n : str) : n <> [] -> starts_with n [] = false.
Proof. destruct n; [congruence | reflexivity]. Qed.

Lemma indexOf_Some_ge (n s : str) (from k : nat) :
  n <> [] -> indexOf n s from = Some k -> from <= k /\ k < length s.
Proof.
  intros Hn. unfold indexOf. intros H.
  apply index_from_Some in H as (d & -> & Hd & Hs & _).
  apply starts_with_iff in Hs as [t Ht].
  assert (L : length (skipn d (skipn from s)) = length (n ++ t)) by now rewrite Ht.
  rewrite skipn_skipn, length_skipn, length_app in L.
  destruct n; [congruence|]. simpl in L. lia.
Qed.

Lemma close_token_not_nil (eq : nat) : close_token eq <> [].
Proof. discriminate. Qed.

Lemma find_close_Some (close : str) (ln startFirst : nat) : close <> [] ->
  forall rest cur l idx,
  ParenScan.find_close close rest ln cur startFirst = Some (l, idx) ->
  cur <= l /\ l < cur + length rest /\ (l = ln -> startFirst <= idx).
Proof.
  intros Hc. induction rest as [|text2 rest IH]; intros cur l idx; simpl; [discriminate|].
  destruct (indexOf close text2 (if cur =? ln then startFirst else 0)) as [k|] eqn:E.
  - intros [= <- <-]. repeat split; try lia.
    intros ->. rewrite Nat.eqb_refl in E.
    now apply indexOf_Some_ge in E.
  - intros H. apply IH in H as (H1 & H2 & H3). repeat split; lia.
Qed.

Lemma paren_scan_line_ends (d : TextDocument) (lineText : str) :
  forall fuel ln i depth,
  (lineCount d - ln) * S (length lineText) + (length lineText - i) < fuel ->
  ParenScan.scan_line fuel d lineText ln i depth <> Fuel.
Proof.
  set (L := length lineText).
  induction fuel as [|fuel IH]; intros ln i depth Hf; [now apply Nat.nlt_0_r in Hf|].
  cbn [ParenScan.scan_line].
  destruct (at_ lineText i) as [c|] eqn:Ec; [|discriminate].
  assert (Hi : i < L).
  { apply nth_error_Some. unfold at_ in Ec. congruence. }
  destruct (is_quote c).
  { apply IH. pose proof (after_quoted_gt lineText i c). lia. }
  destruct (if Ascii.eqb c (ch "[") then long_open (substring_from lineText i) else None)
    as [eq|].
  - destruct (ParenScan.find_close _ _ _ _ _) as [[ln2 idx]|] eqn:Ef; [|discriminate].
    apply find_close_Some in Ef as (H1 & H2 & H3); [|apply close_token_not_nil].
    assert (Hln : ln < lineCount d).
    { destruct (Nat.lt_ge_cases ln (lineCount d)) as [H | H]; [exact H|].
      unfold lineCount in H. rewrite skipn_all2 in H2 by exact H. simpl in H2. lia. }
    rewrite length_skipn in H2. fold (lineCount d) in H2.
    apply IH.
    destruct (Nat.eq_dec ln2 ln) as [-> | Hne].
    + specialize (H3 eq_refl). lia.
    + assert (lineCount d - ln2 < lineCount d - ln) by lia. nia.
  - destruct (Ascii.eqb c (ch "(")); [apply IH; lia|].
    destruct (Ascii.eqb c (ch ")")); [|apply IH; lia].
    destruct (depth - 1 <=? 0); [discriminate | apply IH; lia].
Qed.

Lemma paren_scan_line_done (fuel : nat) : forall d lineText ln i depth ln' depth',
  ParenScan.scan_line fuel d lineText ln i depth = Ok (ParenScan.LineDone ln' depth') ->
  ln <= ln'.
Proof.
  induction fuel as [|fuel IH]; intros d lineText ln i depth ln' depth';
    cbn [ParenScan.scan_line]; [discriminate|].
  destruct (at_ lineText i) as [c|]; [|intros [= <- _]; lia].
  destruct (is_quote c); [apply IH|].
  destruct (if Ascii.eqb c (ch "[") then long_open (substring_from lineText i) else None)
    as [eq|].
  - destruct (ParenScan.find_close _ _ _ _ _) as [[ln2 idx]|] eqn:Ef; [|discriminate].
    apply find_close_Some in Ef as (H1 & _); [|apply close_token_not_nil].
    intros H. apply IH in H. lia.
  - destruct (Ascii.eqb c (ch "(")); [apply IH|].
    destruct (Ascii.eqb c (ch ")")); [|apply IH].
    destruct (depth - 1 <=? 0); [discriminate | apply IH].
Qed.

Lemma paren_scan_line_settles d lineText ln i depth :
  settles (fun f => ParenScan.scan_line f d lineText ln i depth).
Proof.
  apply settles_of_extends.
  - intros f f' Hle. now apply paren_scan_line_extends.
  - eexists. apply paren_scan_line_ends. apply Nat.lt_succ_diag_r.
Qed.

Lemma scan_from_settles (d : TextDocument) (parenLoc : loc) :
  forall k ln depth, lineCount d - ln <= k ->
  settles (fun f => ParenScan.scan_from f d parenLoc ln depth).
Proof.
  induction k as [|k IH]; intros ln depth Hk.
  - exists 1, (Ok None). split; [discriminate|].
    intros [|f'] Hf; [lia|]. cbn [ParenScan.scan_from].
    destruct (ln <? lineCount d) eqn:E; [apply Nat.ltb_lt in E; lia | reflexivity].
  - destruct (ln <? lineCount d) eqn:E.
    2: { exists 1, (Ok None). split; [discriminate|].
         intros [|f'] Hf; [lia|]. cbn [ParenScan.scan_from]. now rewrite E. }
    apply Nat.ltb_lt in E.
    destruct (lineAt d ln) as [lineText | e |] eqn:El.
    3: { unfold lineAt in El. destruct (nth_error _ _); discriminate. }
    2: { exists 1, (Throw e). split; [discriminate|].
         intros [|f'] Hf; [lia|]. cbn [ParenScan.scan_from].
         apply Nat.ltb_lt in E. now rewrite E, El. }
    set (i := if ln =? fst parenLoc then snd parenLoc else 0).
    destruct (paren_scan_line_settles d lineText ln i depth) as (f1 & r & Hr & Hrun).
    destruct r as [[p | | ln' depth'] | e |]; [| | | |congruence].
    + exists (S f1), (Ok (Some p)). split; [discriminate|].
      intros [|f'] Hf; [lia|]. cbn [ParenScan.scan_from].
      apply Nat.ltb_lt in E. rewrite E, El. cbn [bind]. fold i.
      rewrite Hrun by lia. reflexivity.
    + exists (S f1), (Ok None). split; [discriminate|].
      intros [|f'] Hf; [lia|]. cbn [ParenScan.scan_from].
      apply Nat.ltb_lt in E. rewrite E, El. cbn [bind]. fold i.
      rewrite Hrun by lia. reflexivity.
    + assert (Hge : ln <= ln').
      { eapply paren_scan_line_done. apply (Hrun f1). lia. }
      destruct (IH (S ln') depth') as (f2 & r2 & Hr2 & Hrun2); [lia|].
      exists (S (Nat.max f1 f2)), r2. split; [exact Hr2|].
      intros [|f'] Hf; [lia|]. cbn [ParenScan.scan_from].
      apply Nat.ltb_lt in E. rewrite E, El. cbn [bind]. fold i.
      rewrite Hrun by lia. cbn [bind]. apply Hrun2. lia.
    + exists (S f1), (Throw e). split; [discriminate|].
      intros [|f'] Hf; [lia|]. cbn [ParenScan.scan_from].
      apply Nat.ltb_lt in E. rewrite E, El. cbn [bind]. fold i.
      rewrite Hrun by lia. reflexivity.
Qed.

Lemma findMatchingParen_loop_ends (src : str) : forall fuel i depth,
  length src - i < fuel ->
  Structural.findMatchingParen_loop fuel src i depth <> Fuel.
Proof.
  induction fuel as [|fuel IH]; intros i depth Hf; [lia|].
  cbn [Structural.findMatchingParen_loop].
  destruct (at_ src i) as [c|] eqn:Ec; [|discriminate].
  assert (Hi : i < length src).
  { apply nth_error_Some. unfold at_ in Ec. congruence. }
  destruct (is_quote c).
  { apply IH. pose proof (after_quoted_gt src i c). lia. }
  destruct (if Ascii.eqb c (ch "[") then long_open (substring_from src i) else None)
    as [eq|].
  - destruct (indexOf _ _ _) as [endIdx|] eqn:Ei; [|discriminate].
    apply indexOf_Some_ge in Ei; [|apply close_token_not_nil].
    apply IH. lia.
  - destruct (Ascii.eqb c (ch "(")); [apply IH; lia|].
    destruct (Ascii.eqb c (ch ")")); [|apply IH; lia].
    destruct (depth - 1 =? 0)%Z; [discriminate | apply IH; lia].
Qed.

Lemma split_ends src selOffset foundNode :
  Structural.split (S (length src)) src selOffset foundNode <> Fuel.
Proof.
  unfold Structural.split, Structural.findMatchingParen.
  repeat match goal with
         | |- context [Structural.findMatchingParen_loop ?f ?s ?i ?dp] =>
           let H := fresh "H" in
           pose proof (@findMatchingParen_loop_ends s f i dp ltac:(lia)) as H;
           destruct (Structural.findMatchingParen_loop f s i dp) as [[?|]| |];
           [ | | | congruence]; clear H; cbn [bind]
         | |- Ok _ <> Fuel => discriminate
         | |- Throw _ <> Fuel => discriminate
         | |- context [match ?x with _ => _ end] => destruct x
         | |- context [if ?x then _ else _] => destruct x
         end;
    cbn [bind]; discriminate.
Qed.

Lemma split_settles src selOffset foundNode :
  settles (fun f => Structural.split f src selOffset foundNode).
Proof.
  apply settles_of_extends.
  - intros f f' Hle. now apply split_extends.
  - eexists. apply split_ends.
Qed.

Section Settles.
Variable luaparse : option (str -> result Ast.value).
Variable find : str -> TextDocument -> loc -> option loc.
Variable rfa : loc -> loc -> bool.
Variables (d : TextDocument) (sym : DocumentSymbol).

(** The parser returns or raises. *)
Hypothesis parser_returns :
  forall parse, luaparse = Some parse -> parse (getText d) <> Fuel.

Lemma structural_settles : settles (fun f => structural luaparse f d sym).
Proof.
  unfold structural. destruct luaparse as [parse|] eqn:El.
  2: { exists 0, (Ok None). split; [discriminate | reflexivity]. }
  specialize (parser_returns eq_refl).
  destruct (parse (getText d)) as [ast | e |]; [| |congruence].
  - cbn [bind]. destruct (Ast.visit _ ast None) as [foundNode|].
    + apply (@settles_bind _ _ (fun f => Structural.split f (getText d) _ foundNode)
               (fun _ s => Ok (Some (Structural.ranges d (getText d) s)))).
      * apply split_settles.
      * intros s. exists 0, (Ok (Some (Structural.ranges d (getText d) s))).
        split; [discriminate | reflexivity].
    + exists 0, (Ok None). split; [discriminate | reflexivity].
  - exists 0, (Throw e). split; [discriminate | reflexivity].
Qed.

Lemma paren_head_end_settles : settles (fun f => paren_head_end f d sym).
Proof.
  unfold paren_head_end, ParenScan.matching_paren.
  destruct (indexOf _ _ _) as [parenIdx|].
  - eapply scan_from_settles. apply Nat.le_refl.
  - exists 0, (Ok None). split; [discriminate | reflexivity].
Qed.

Lemma head_end_settles : settles (fun f => head_end find rfa f d sym).
Proof.
  unfold head_end.
  apply (@settles_bind _ _ (fun f => paren_head_end f d sym)). 
  - apply paren_head_end_settles.
  - intros headEnd1.
    match goal with |- settles (fun _ => ?r) =>
      assert (H : r <> Fuel); [|exists 0, r; split; [exact H | reflexivity]] end.
    repeat match goal with
           | |- Ok _ <> Fuel => discriminate
           | |- context [lineAt ?dd ?l] =>
             unfold lineAt; destruct (nth_error (lines dd) l); cbn [bind]
           | |- Throw _ <> Fuel => discriminate
           | |- context [match ?x with _ => _ end] => destruct x
           end.
Qed.

Lemma body_start_returns p : body_start d p <> Fuel.
Proof.
  unfold body_start, lineAt. destruct (nth_error _ _); cbn [bind]; [|discriminate].
  destruct (is_blank _); discriminate.
Qed.

Lemma heuristic_settles : settles (fun f => heuristic find rfa f d sym).
Proof.
  unfold heuristic.
  apply (@settles_bind _ _ (fun f => head_end find rfa f d sym)); [apply head_end_settles|].
  intros headEnd.
  pose proof (body_start_returns (range_end (head_range sym headEnd))) as Hb.
  destruct (body_start d (range_end (head_range sym headEnd))) as [[bsl bsc] | e |];
    [| |congruence].
  - cbn [bind].
    apply (@settles_bind _ _
             (fun f => BodyEnd.find_end f d
                         (line (range_start (head_range sym headEnd))) bsl bsc)).
    + apply find_end_settles.
    + intros [[el ec]|].
      * eexists 0, _. split; [|reflexivity]. discriminate.
      * eexists 0, _. split; [|reflexivity]. discriminate.
  - exists 0, (Throw e). split; [discriminate | reflexivity].
Qed.

(** The call has an outcome: from some budget on the run returns the same
    result or raises the same error. *)
Lemma getLanguageSpecificSymbolInformation_settles :
  settles (fun f => getLanguageSpecificSymbolInformation luaparse find rfa f d sym).
Proof.
  unfold getLanguageSpecificSymbolInformation.
  destruct structural_settles as (f1 & r1 & Hr1 & Hrun1).
  destruct heuristic_settles as (f2 & r2 & Hr2 & Hrun2).
  destruct r1 as [[r|] | e |]; [| | |congruence].
  - exists f1, (Ok r). split; [discriminate|]. intros f' Hf. now rewrite Hrun1.
  - exists (Nat.max f1 f2), r2. split; [exact Hr2|].
    intros f' Hf. rewrite Hrun1 by lia. apply Hrun2. lia.
  - exists (Nat.max f1 f2), r2. split; [exact Hr2|].
    intros f' Hf. rewrite Hrun1 by lia. apply Hrun2. lia.
Qed.

End Settles.

(** ** Running the heuristic route on a document

    When the first strategy settles the head end (see
    [head_end_from_paren]) the rest of the route does not call the
    document search, and the run is a computation. *)
Ltac run_heuristic headEnd Hdo1 Hdo2 :=
  unfold heuristic;
  match goal with
  | |- context [head_end ?find ?rfa ?fuel ?d ?sym] =>
    let Hp := fresh "Hp" in
    assert (Hp : paren_head_end fuel d sym = Ok (Some headEnd))
      by (vm_compute; reflexivity);
    rewrite (@head_end_from_paren find rfa fuel d sym headEnd Hp Hdo1 Hdo2)
  end;
  vm_compute; reflexivity.

(** The same from [reports_no_do], on every budget from 30 on. *)
Ltac run_heuristic_no_do headEnd Hno Hfuel :=
  let H1 := fresh "Hdo" in
  let H2 := fresh "Hdo" in
  pose proof (proj1 Hno) as H1; pose proof (proj2 Hno) as H2;
  apply heuristic_from with (f := 30);
  [run_heuristic headEnd H1 H2 | discriminate | exact Hfuel].

(** C8.  Whenever the call reaches the body-end scan (the structural
    route has not returned) and the scan comes to the end of the document
    without an accepted terminator, the call raises the error 'Could not
    find matching end keyword' and returns no boundary.  In particular
    this is the outcome for [function f()], [  print(1)] without [end],
    with the parser absent or rejecting the text. *)
Theorem unterminated_body_raises :
  (forall luaparse find rfa fuel d sym headEnd bs,
     (structural luaparse fuel d sym = Ok None
      \/ exists e, structural luaparse fuel d sym = Throw e) ->
     head_end find rfa fuel d sym = Ok headEnd ->
     body_start d (range_end (head_range sym headEnd)) = Ok bs ->
     BodyEnd.find_end fuel d (line (range_start (head_range sym headEnd)))
       (fst bs) (snd bs) = Ok None ->
     getLanguageSpecificSymbolInformation luaparse find rfa fuel d sym
     = Throw NoMatchingEnd)
  /\ (forall luaparse find rfa fuel,
        (luaparse = None
         \/ exists parse, luaparse = Some parse
              /\ parse (getText unterminated) = Throw ParseFailure) ->
        reports_no_do find unterminated unterminated_f ->
        30 <= fuel ->
        getLanguageSpecificSymbolInformation luaparse find rfa fuel
          unterminated unterminated_f
        = Throw NoMatchingEnd).
Proof.
  split.
  - intros luaparse find rfa fuel d sym headEnd [bsl bsc] Hs Hh Hb He.
    unfold getLanguageSpecificSymbolInformation.
    assert (Hr : heuristic find rfa fuel d sym = Throw NoMatchingEnd).
    { unfold heuristic. rewrite Hh. cbn [bind]. rewrite Hb. cbn [bind].
      simpl in He. rewrite He. reflexivity. }
    destruct Hs as [-> | [e ->]]; exact Hr.
  - intros luaparse find rfa fuel Hp Hno Hfuel.
    apply resolution_from with (f := 30); [|discriminate | exact Hfuel].
    unfold getLanguageSpecificSymbolInformation.
    assert (Hs : structural luaparse 30 unterminated unterminated_f = Ok None
                 \/ structural luaparse 30 unterminated unterminated_f
                    = Throw ParseFailure).
    { unfold structural. destruct Hp as [-> | (parse & -> & Hparse)].
      - left. reflexivity.
      - right. rewrite Hparse. reflexivity. }
    destruct Hno as [H1 H2].
    destruct Hs as [-> | ->]; run_heuristic (0, 11) H1 H2.
Qed.

(** [unterminated_body_raises] at the unterminated function, with a
    parser that rejects it and the first-occurrence search. *)
Lemma unterminated_body_raises_witness :
  getLanguageSpecificSymbolInformation
    (Some (fun _ => Throw ParseFailure)) findInDocument_first (fun _ _ => true)
    30 unterminated unterminated_f
  = Throw NoMatchingEnd.
Proof.
  apply (proj1 unterminated_body_raises
           (Some (fun _ => Throw ParseFailure)) findInDocument_first
           (fun _ _ => true) 30 unterminated unterminated_f (0, 11) (1, 0)).
  - right. exists ParseFailure. reflexivity.
  - vm_compute. reflexivity.
  - vm_compute. reflexivity.
  - vm_compute. reflexivity.
Defined.




(** C3.  The tree walk accepts six kinds and no other: a node it selects
    is a function declaration or statement, a numeric or generic [for], an
    [if] or a [repeat].  A [while] loop that holds the offset is not a
    candidate (the walk over the tree of [while x do y() end] selects
    nothing), and neither is an assignment of a function: at the name of
    [t = function(x,y) .. end] nothing is selected, inside the function
    the function node is, so the branches of the dispatch for
    [WhileStatement] and [AssignmentStatement] are never taken and the
    call goes on to the heuristic scan. *)
Theorem while_and_assignment_are_no_candidates :
  Ast.visit 0 while_tree None = None
  /\ Ast.visit 0 assignment_tree None = None
  /\ option_map Ast.type_of (Ast.visit 6 assignment_tree None)
     = Some "FunctionDeclaration"%string
  /\ (forall selOffset ast n,
        Ast.visit selOffset ast None = Some n ->
        Ast.has_type n "WhileStatement" = false
        /\ Ast.has_type n "AssignmentStatement" = false)
  /\ (forall find rfa fuel,
        getLanguageSpecificSymbolInformation
          (Some (fun _ => Ok while_tree)) find rfa fuel while_text
          (symbol ((0, 0), (2, 3)) ((0, 0), (0, 5)))
        = heuristic find rfa fuel while_text
            (symbol ((0, 0), (2, 3)) ((0, 0), (0, 5)))).
Proof.
  repeat split; try reflexivity.
  - apply visit_accepts_six_kinds in H. unfold Ast.has_type.
    simpl in H. intuition (subst; try discriminate);
      match goal with E : _ = Ast.type_of n |- _ => rewrite <- E; reflexivity end.
  - apply visit_accepts_six_kinds in H. unfold Ast.has_type.
    simpl in H. intuition (subst; try discriminate);
      match goal with E : _ = Ast.type_of n |- _ => rewrite <- E; reflexivity end.
Qed.

(** [while_and_assignment_are_no_candidates] at the tree of the
    assignment, with the offset inside the function: the node selected is
    the function. *)
Lemma while_and_assignment_are_no_candidates_witness :
  Ast.has_type function_expression "WhileStatement" = false
  /\ Ast.has_type function_expression "AssignmentStatement" = false.
Proof.
  apply (proj1 (proj2 (proj2 (proj2 while_and_assignment_are_no_candidates)))
           6 assignment_tree function_expression).
  vm_compute. reflexivity.
Defined.

(** C1.  The depth counter does not return to its level when a block
    opens and closes on one line.  Each turn of the token loop moves all
    eight expressions at once, so on [  if x then return end] the [if] is
    counted and the [end] of the same line is passed over: the depth is 1
    after the line, the last [end] of the document is taken at depth 1,
    and the scan ends without a terminator, so the call raises instead of
    returning the outermost [end] at line 2, column 0.  For the same
    nesting laid out with one keyword per line the outermost [end] is
    accepted. *)
Theorem one_line_block_is_left_open :
  (forall fuel, 30 <= fuel ->
     BodyEnd.scan_line fuel (lit "  if x then return end") 1 1 0 [] None BodyEnd.fresh 0
     = Ok (BodyEnd.Continue None BodyEnd.fresh 1))
  /\ (forall fuel, 30 <= fuel ->
        BodyEnd.find_end fuel one_line_block 0 1 0 = Ok None)
  /\ (forall find rfa fuel,
        reports_no_do find one_line_block one_line_block_f ->
        30 <= fuel ->
        heuristic find rfa fuel one_line_block one_line_block_f
        = Throw NoMatchingEnd)
  /\ (forall fuel, 30 <= fuel ->
        BodyEnd.find_end fuel nested_blocks 0 1 0 = Ok (Some (6, 0))).
Proof.
  repeat split.
  - intros fuel Hfuel.
    apply body_scan_line_from with (f := 30);
      [vm_compute; reflexivity | discriminate | exact Hfuel].
  - intros fuel Hfuel. apply find_end_from with (f := 30);
      [vm_compute; reflexivity | discriminate | exact Hfuel].
  - intros find rfa fuel Hno Hfuel. run_heuristic_no_do (0, 11) Hno Hfuel.
  - intros fuel Hfuel. apply find_end_from with (f := 30);
      [vm_compute; reflexivity | discriminate | exact Hfuel].
Qed.

(** [one_line_block_is_left_open] with the first-occurrence search. *)
Lemma one_line_block_is_left_open_witness :
  heuristic_first 30 one_line_block one_line_block_f = Throw NoMatchingEnd.
Proof.
  apply (proj1 (proj2 (proj2 one_line_block_is_left_open))
           findInDocument_first (fun _ _ => true) 30).
  - split; reflexivity.
  - lia.
Defined.

(** C4.  The body-end scan reads the inside of string literals and of
    long brackets as code.  Of two documents of equal length that differ
    inside a quoted string only, the one whose string holds the word
    [function] raises and the other one resolves; the same for two
    documents that differ inside a long bracket only, with the word
    [for]. *)
Theorem literal_contents_change_the_outcome :
  (exists pre post a b,
     getText keyword_in_string = pre ++ lit "'" ++ a ++ lit "'" ++ post
     /\ getText plain_string = pre ++ lit "'" ++ b ++ lit "'" ++ post
     /\ length a = length b)
  /\ (exists pre post a b,
        getText keyword_in_long_bracket = pre ++ lit "[[" ++ a ++ lit "]]" ++ post
        /\ getText plain_long_bracket = pre ++ lit "[[" ++ b ++ lit "]]" ++ post
        /\ length a = length b)
  /\ (forall find rfa fuel,
        reports_no_do find keyword_in_string string_f ->
        reports_no_do find plain_string string_f ->
        30 <= fuel ->
        heuristic find rfa fuel keyword_in_string string_f = Throw NoMatchingEnd
        /\ heuristic find rfa fuel plain_string string_f
           = Ok (mkResolved (mkRange (mkPos 0 9) (mkPos 0 11))
                            (mkRange (mkPos 1 0) (mkPos 2 3)) []))
  /\ (forall find rfa fuel,
        reports_no_do find keyword_in_long_bracket long_bracket_f ->
        reports_no_do find plain_long_bracket long_bracket_f ->
        30 <= fuel ->
        heuristic find rfa fuel keyword_in_long_bracket long_bracket_f
        = Throw NoMatchingEnd
        /\ heuristic find rfa fuel plain_long_bracket long_bracket_f
           = Ok (mkResolved (mkRange (mkPos 0 9) (mkPos 0 11))
                            (mkRange (mkPos 1 0) (mkPos 3 3)) [])).
Proof.
  split; [|split; [|split]].
  - exists (lit "function f()" ++ [LF] ++ lit "  local s = "), ([LF] ++ lit "end"),
           (lit "function"), (lit "xxxxxxxx").
    repeat split.
  - exists (lit "function f()" ++ [LF] ++ lit "  local s = "),
           ([LF] ++ lit "  return s" ++ [LF] ++ lit "end"),
           (lit "for"), (lit "xxx").
    repeat split.
  - intros find rfa fuel Hk Hp Hfuel. split.
    + run_heuristic_no_do (0, 11) Hk Hfuel.
    + run_heuristic_no_do (0, 11) Hp Hfuel.
  - intros find rfa fuel Hk Hp Hfuel. split.
    + run_heuristic_no_do (0, 11) Hk Hfuel.
    + run_heuristic_no_do (0, 11) Hp Hfuel.
Qed.

(** [literal_contents_change_the_outcome] with the first-occurrence
    search. *)
Lemma literal_contents_change_the_outcome_witness :
  heuristic_first 30 keyword_in_string string_f = Throw NoMatchingEnd
  /\ heuristic_first 30 plain_string string_f
     = Ok (mkResolved (mkRange (mkPos 0 9) (mkPos 0 11))
                      (mkRange (mkPos 1 0) (mkPos 2 3)) []).
Proof.
  apply (proj1 (proj2 (proj2 literal_contents_change_the_outcome))
           findInDocument_first (fun _ _ => true) 30).
  - split; reflexivity.
  - split; reflexivity.
  - lia.
Defined.

(** C5.  The first strategy looks for the parenthesis from the start of
    the symbol's whole range, not from the end of its name: it never
    reads the name range.  In [(x).f = function(a)] the name [f] ends at
    offset 5 and the first parenthesis from there on stands at offset 16,
    but the search starts at offset 0 and the head end becomes the closing
    parenthesis of [(x)], at column 2, in front of the name. *)
Theorem paren_search_starts_at_the_range :
  (forall fuel d range_ sel1 sel2,
     paren_head_end fuel d (mkSym range_ sel1)
     = paren_head_end fuel d (mkSym range_ sel2))
  /\ offsetAt paren_before_name (range_start (symRange paren_before_name_f)) = 0
  /\ offsetAt paren_before_name (range_end (selectionRange paren_before_name_f)) = 5
  /\ indexOf (lit "(") (stripLuaComments (getText paren_before_name)) 5 = Some 16
  /\ (forall fuel, 30 <= fuel ->
        paren_head_end fuel paren_before_name paren_before_name_f
        = Ok (Some (0, 2)))
  /\ (forall find rfa fuel,
        reports_no_do find paren_before_name paren_before_name_f ->
        30 <= fuel ->
        head_end find rfa fuel paren_before_name paren_before_name_f = Ok (0, 2)
        /\ heuristic find rfa fuel paren_before_name paren_before_name_f
           = Throw NoMatchingEnd).
Proof.
  assert (Hp : forall fuel, 30 <= fuel ->
            paren_head_end fuel paren_before_name paren_before_name_f
            = Ok (Some (0, 2))).
  { intros fuel Hfuel.
    apply paren_head_end_from with (f := 30);
      [vm_compute; reflexivity | discriminate | exact Hfuel]. }
  repeat split; try (vm_compute; reflexivity).
  - exact Hp.
  - apply head_end_from_paren; [now apply Hp | apply H | apply H].
  - run_heuristic_no_do (0, 2) H H0.
Qed.

(** [paren_search_starts_at_the_range] with the first-occurrence search. *)
Lemma paren_search_starts_at_the_range_witness :
  head_end findInDocument_first (fun _ _ => true) 30
    paren_before_name paren_before_name_f = Ok (0, 2)
  /\ heuristic_first 30 paren_before_name paren_before_name_f
     = Throw NoMatchingEnd.
Proof.
  apply (proj2 (proj2 (proj2 (proj2 (proj2 paren_search_starts_at_the_range))))
           findInDocument_first (fun _ _ => true) 30).
  - split; reflexivity.
  - lia.
Defined.

(** C6.  An [if] that follows [else] on its line is counted as a new
    level when a block comment stands in front of it on that line: the
    index of the [if] is taken in the line without the comment and used in
    the line with it, so the text in front of the index does not end in
    [else].  Scanning [--[[ alt ]] else if b then] at depth 1 leaves depth
    2, where the same line with blanks for the comment leaves depth 1; of
    two documents that differ in this comment only, the one with the
    comment raises and the other one resolves. *)
Theorem else_if_behind_a_comment_is_counted :
  (forall fuel, 30 <= fuel ->
     BodyEnd.scan_line fuel (lit "--[[ alt ]] else if b then") 3 1 0 [] None
       BodyEnd.fresh 1
     = Ok (BodyEnd.Continue None BodyEnd.fresh 2))
  /\ (forall fuel, 30 <= fuel ->
        BodyEnd.scan_line fuel (lit "            else if b then") 3 1 0 [] None
          BodyEnd.fresh 1
        = Ok (BodyEnd.Continue None BodyEnd.fresh 1))
  /\ (forall find rfa fuel,
        reports_no_do find else_if_after_comment else_if_f ->
        reports_no_do find else_if_plain else_if_f ->
        30 <= fuel ->
        heuristic find rfa fuel else_if_after_comment else_if_f
        = Throw NoMatchingEnd
        /\ heuristic find rfa fuel else_if_plain else_if_f
           = Ok (mkResolved (mkRange (mkPos 0 9) (mkPos 0 11))
                            (mkRange (mkPos 1 0) (mkPos 6 3)) [])).
Proof.
  repeat split.
  - intros fuel Hfuel.
    apply body_scan_line_from with (f := 30);
      [vm_compute; reflexivity | discriminate | exact Hfuel].
  - intros fuel Hfuel.
    apply body_scan_line_from with (f := 30);
      [vm_compute; reflexivity | discriminate | exact Hfuel].
  - run_heuristic_no_do (0, 11) H H1.
  - run_heuristic_no_do (0, 11) H0 H1.
Qed.

(** [else_if_behind_a_comment_is_counted] with the first-occurrence
    search. *)
Lemma else_if_behind_a_comment_is_counted_witness :
  heuristic_first 30 else_if_after_comment else_if_f = Throw NoMatchingEnd
  /\ heuristic_first 30 else_if_plain else_if_f
     = Ok (mkResolved (mkRange (mkPos 0 9) (mkPos 0 11))
                      (mkRange (mkPos 1 0) (mkPos 6 3)) []).
Proof.
  apply (proj2 (proj2 else_if_behind_a_comment_is_counted)
           findInDocument_first (fun _ _ => true) 30).
  - split; reflexivity.
  - split; reflexivity.
  - lia.
Defined.

(** ** Further properties of the two routes *)

(** X1.  Whatever node the tree walk of the structural route selects, it
    is a node of one of the six accepted kinds and its range holds the
    selection offset. *)
Theorem visit_selects_an_accepted_node (selOffset : nat) (ast n : Ast.value) :
  Ast.visit selOffset ast None = Some n ->
  exists type start end_ props,
    n = Ast.Node type (start, end_) props
    /\ In type ["FunctionDeclaration"; "FunctionStatement"; "ForNumericStatement";
                "ForGenericStatement"; "IfStatement"; "RepeatStatement"]%string
    /\ start <= selOffset <= end_.
Proof.
  intros H.
  destruct (@visit_candidate selOffset ast None) with (n := n)
    as (type & s & e & props & -> & Ha & Hr); [intros ? [=] | exact H |].
  exists type, s, e, props. repeat split; try lia.
  unfold Ast.accepted in Ha.
  repeat (apply orb_true_iff in Ha as [Ha | Ha]);
    apply String.eqb_eq in Ha; subst; simpl; auto 10.
Qed.

(** [visit_selects_an_accepted_node] at the tree of the assignment, with
    the offset inside the function. *)
Lemma visit_selects_an_accepted_node_witness :
  exists type start end_ props,
    function_expression = Ast.Node type (start, end_) props
    /\ In type ["FunctionDeclaration"; "FunctionStatement"; "ForNumericStatement";
                "ForGenericStatement"; "IfStatement"; "RepeatStatement"]%string
    /\ start <= 6 <= end_.
Proof.
  apply (@visit_selects_an_accepted_node 6 assignment_tree function_expression).
  vm_compute. reflexivity.
Defined.

(** X2.  A body found by the heuristic route is never of negative length:
    the accepted terminator does not stand before the body start, so the
    body range runs from the body start to the end of the terminator
    keyword, which lies strictly behind it. *)
Theorem heuristic_body_is_ordered find rfa fuel d sym r :
  heuristic find rfa fuel d sym = Ok r ->
  isBefore (range_start (rangeBody r)) (range_end (rangeBody r)) = true
  /\ attributes r = [].
Proof.
  unfold heuristic. intros H.
  apply bind_Ok in H as (headEnd & _ & H).
  apply bind_Ok in H as ([bsl bsc] & Hbs & H).
  apply bind_Ok in H as (endPos & He & H).
  destruct endPos as [[el ec]|]; [|discriminate].
  injection H as <-. simpl.
  apply find_end_some in He as [H1 H2]. simpl in H1, H2.
  assert (Hb : isBefore (mkPos bsl bsc) (mkPos el (ec + END_KEYWORD_length)) = true).
  { apply isBefore_spec. simpl. unfold END_KEYWORD_length. lia. }
  unfold range_new. rewrite (Range_new_ordered _ _ Hb). simpl. auto.
Qed.

(** [heuristic_body_is_ordered] at the spec's first scenario. *)
Lemma heuristic_body_is_ordered_witness :
  isBefore (mkPos 1 0) (mkPos 2 3) = true /\ @nil Attribute = [].
Proof.
  apply (@heuristic_body_is_ordered findInDocument_first (fun _ _ => true) 30
           scenario1 scenario1_foo
           (mkResolved (mkRange (mkPos 0 9) (mkPos 0 16))
                       (mkRange (mkPos 1 0) (mkPos 2 3)) [])).
  vm_compute. reflexivity.
Defined.

(** X3.  The resolver terminates.  The token loop over a line ends within
    [turns sub] turns, and a whole call has an outcome (a result or a
    raised error) whenever the parser, if present, returns or raises:
    from some budget on every run of the model gives that outcome. *)
Theorem resolution_terminates luaparse find rfa d sym :
  (forall parse, luaparse = Some parse -> parse (getText d) <> Fuel) ->
  (forall lineText sub ln searchFrom startIndent depth fuel,
     turns sub <= fuel ->
     BodyEnd.scan_tokens fuel lineText sub ln searchFrom startIndent
       BodyEnd.fresh depth <> Fuel)
  /\ exists fuel r,
       r <> Fuel
       /\ forall fuel', fuel <= fuel' ->
          getLanguageSpecificSymbolInformation luaparse find rfa fuel' d sym = r.
Proof.
  intros Hp. split.
  - intros. now apply scan_tokens_terminates.
  - now apply getLanguageSpecificSymbolInformation_settles.
Qed.

(** [resolution_terminates] at the spec's first scenario, without a
    parser. *)
Lemma resolution_terminates_witness :
  exists fuel r,
    r <> Fuel
    /\ forall fuel', fuel <= fuel' ->
       resolve_without_parser fuel' scenario1 scenario1_foo = r.
Proof.
  apply (@resolution_terminates None findInDocument_first (fun _ _ => true)
           scenario1 scenario1_foo).
  intros parse H. discriminate H.
Defined.

(** * Further properties *)

Unset Implicit Arguments.

Lemma fold_left_flat_map {A B C : Type} (g : C -> B -> C) (f : A -> list B) (l : list A) :
  forall c, fold_left g (flat_map f l) c = fold_left (fun c x => fold_left g (f x) c) l c.
Proof.
  induction l as [|x l IH]; intros c; simpl; [reflexivity|].
  now rewrite fold_left_app, IH.
Qed.

Lemma fold_left_ext_in {A B : Type} (f g : A -> B -> A) (l : list B) :
  Forall (fun b => forall a, f a b = g a b) l ->
  forall a, fold_left f l a = fold_left g l a.
Proof.
  induction 1 as [|b l Hb _ IH]; intros a; simpl; [reflexivity|].
  now rewrite Hb, IH.
Qed.

Lemma visit_preorder (selOffset : nat) (v : Ast.value) :
  forall found,
  Ast.visit selOffset v found
  = fold_left (fun found n => if encloses selOffset n then Some n else found)
      (preorder v) found.
Proof.
  induction v as [| items IH | type [start end_] props IH] using Ast.value_induction;
    intros found; cbn [Ast.visit preorder].
  - reflexivity.
  - rewrite fold_left_flat_map. apply fold_left_ext_in.
    eapply Forall_impl; [|exact IH]. intros x Hx a. apply Hx.
  - cbn [fold_left encloses]. rewrite fold_left_flat_map.
    apply fold_left_ext_in.
    eapply Forall_impl; [|exact IH]. intros x Hx a. apply Hx.
Qed.

Lemma last_such_spec {A : Type} (test : A -> bool) (l : list A) :
  match last_such test l with
  | Some x => exists before after,
      l = before ++ x :: after /\ test x = true
      /\ Forall (fun y => test y = false) after
  | None => Forall (fun y => test y = false) l
  end.
Proof.
  unfold last_such.
  induction l as [|x l IH] using rev_ind; [constructor|].
  rewrite fold_left_app. cbn [fold_left].
  destruct (test x) eqn:Ex.
  - exists l, []. auto.
  - destruct (fold_left _ l None) as [y|].
    + destruct IH as (before & after & -> & Hy & Hafter).
      exists before, (after ++ [x]). rewrite <- app_assoc. repeat split; auto.
      apply Forall_app. auto.
    + apply Forall_app. auto.
Qed.

(** X4.  The node the tree walk selects is the last one, in the order of
    the walk (a node before what lies below it, properties in key order,
    array items in index order), among the nodes of an accepted kind
    whose range holds the selection offset: every node the walk meets
    after it is of another kind or does not hold the offset.  When the
    walk selects nothing, no node of the tree qualifies. *)
Theorem visit_selects_the_last_enclosing_node (selOffset : nat) (ast : Ast.value) :
  Ast.visit selOffset ast None = last_such (encloses selOffset) (preorder ast)
  /\ match Ast.visit selOffset ast None with
     | Some n => exists before after,
         preorder ast = before ++ n :: after
         /\ encloses selOffset n = true
         /\ Forall (fun m => encloses selOffset m = false) after
     | None => Forall (fun m => encloses selOffset m = false) (preorder ast)
     end.
Proof.
  assert (E : Ast.visit selOffset ast None
              = last_such (encloses selOffset) (preorder ast))
    by apply visit_preorder.
  split; [exact E|]. rewrite E. apply last_such_spec.
Qed.

Lemma skip_quoted_body (quote : ascii) (s : str) :
  is_quote quote = true -> StringBody quote s ->
  forall rest i, skip_quoted quote (s ++ quote :: rest) i = i + length s.
Proof.
  intros Hq. induction 1 as [| c s Hc Hb _ IH | c s _ IH]; intros rest i.
  - simpl. rewrite Ascii.eqb_refl. lia.
  - cbn [app skip_quoted].
    destruct (Ascii.eqb c quote) eqn:E1; [apply Ascii.eqb_eq in E1; contradiction|].
    destruct (Ascii.eqb c (ch "\")) eqn:E2; [apply Ascii.eqb_eq in E2; contradiction|].
    rewrite IH. simpl. lia.
  - cbn [app skip_quoted].
    destruct (Ascii.eqb (ch "\") quote) eqn:E1.
    + apply Ascii.eqb_eq in E1. subst quote. discriminate Hq.
    + rewrite Ascii.eqb_refl, IH. simpl. lia.
Qed.

Lemma at_of_suffix (src : str) (i : nat) (c : ascii) (t : str) :
  skipn i src = c :: t -> at_ src i = Some c.
Proof.
  intros H. unfold at_. rewrite <- (Nat.add_0_r i), <- nth_error_skipn, H. reflexivity.
Qed.

Lemma suffix_step (src : str) (i : nat) (a b : str) :
  skipn i src = a ++ b -> skipn (i + length a) src = b.
Proof.
  intros H. rewrite Nat.add_comm, <- skipn_skipn, H, skipn_app, Nat.sub_diag, skipn_all.
  reflexivity.
Qed.

Lemma suffix_bound (src : str) (i : nat) (c : ascii) (t : str) :
  skipn i src = c :: t -> i < length src.
Proof.
  intros H. destruct (Nat.lt_ge_cases i (length src)) as [Hl | Hl]; [exact Hl|].
  rewrite skipn_all2 in H by exact Hl. discriminate.
Qed.

Lemma starts_with_app_l (n x r : str) :
  starts_with n (x ++ r) = true -> length n <= length x -> starts_with n x = true.
Proof.
  revert x. induction n as [|a n IH]; intros [|b x]; simpl; intros H L; try lia; auto.
  apply andb_true_iff in H as [-> H]. simpl. apply IH; [exact H | lia].
Qed.

Lemma index_from_first (n : str) : forall B R pos,
  (forall k, k < length B -> starts_with n (skipn k (B ++ n ++ R)) = false) ->
  index_from n (B ++ n ++ R) pos = Some (pos + length B).
Proof.
  induction B as [|b B IH]; intros R pos Hk.
  - cbn [app index_from length].
    assert (E : starts_with n (n ++ R) = true) by (apply starts_with_iff; now exists R).
    destruct (n ++ R) eqn:En.
    + cbn [index_from]. rewrite E. f_equal. lia.
    + cbn [index_from]. rewrite E. f_equal. lia.
  - cbn [app index_from].
    pose proof (Hk 0 ltac:(simpl; lia)) as H0. cbn [skipn app] in H0. rewrite H0.
    rewrite IH; [f_equal; simpl; lia|].
    intros k Hlt. apply (Hk (S k)). simpl. lia.
Qed.

Lemma indexOf_first (n src : str) (from : nat) (B R : str) :
  skipn from src = B ++ n ++ R ->
  n <> [] ->
  (forall k, k < length B -> ~ occurs_at n (B ++ n) k) ->
  indexOf n src from = Some (from + length B).
Proof.
  intros Hs Hn Hk. unfold indexOf. rewrite Hs.
  assert (Hb : from < length src).
  { assert (L : length (skipn from src) = length (B ++ n ++ R)) by now rewrite Hs.
    rewrite length_skipn, !length_app in L.
    destruct n; [congruence|]. simpl in L. lia. }
  rewrite Nat.min_l by lia. apply index_from_first.
  intros k Hlt. destruct (starts_with n (skipn k (B ++ n ++ R))) eqn:E; [|reflexivity].
  exfalso. apply (Hk k Hlt). apply occurs_at_iff. split.
  - rewrite length_app. lia.
  - rewrite app_assoc, skipn_app in E.
    replace (k - length (B ++ n)) with 0 in E by (rewrite length_app; lia).
    simpl in E. apply starts_with_app_l in E; [exact E|].
    rewrite length_skipn, length_app. lia.
Qed.

Lemma long_open_opener (eq : nat) (t : str) :
  long_open (ch "[" :: repeat (ch "=") eq ++ ch "[" :: t) = Some eq.
Proof.
  unfold long_open. rewrite Ascii.eqb_refl.
  rewrite count_leading_repeat by reflexivity.
  now rewrite at_is_after_repeat.
Qed.

Lemma plain_step (c : ascii) : plain c = true ->
  is_quote c = false /\ Ascii.eqb c (ch "[") = false
  /\ Ascii.eqb c (ch "(") = false /\ Ascii.eqb c (ch ")") = false.
Proof.
  unfold plain. intros H. apply negb_true_iff in H.
  apply orb_false_iff in H as [H H4]. apply orb_false_iff in H as [H H3].
  apply orb_false_iff in H as [H1 H2]. auto.
Qed.

Ltac list_eq :=
  cbn [app]; repeat (rewrite <- app_assoc; cbn [app]); reflexivity.

Lemma findMatchingParen_nested (w : str) :
  Nested w ->
  forall src i tail depth,
  skipn i src = w ++ tail -> (0 < depth)%Z ->
  exists n, n <= length w /\ forall fuel,
    Structural.findMatchingParen_loop (n + fuel) src i depth
    = Structural.findMatchingParen_loop fuel src (i + length w) depth.
Proof.
  induction 1 as [| c w Hc _ IH | quote s w Hq Hs _ IH | w1 w2 _ IH1 _ IH2
                  | eq body w Hfirst _ IH]; intros src i tail depth Hsrc Hd.
  - exists 0. split; [lia|]. intros fuel. simpl. now rewrite Nat.add_0_r.
  - destruct (IH src (i + 1) tail depth) as (n & Hn & Hrun); [|exact Hd|].
    { change (c :: w ++ tail) with ([c] ++ (w ++ tail)) in Hsrc.
      exact (suffix_step _ _ [c] _ Hsrc). }
    exists (S n). split; [simpl; lia|]. intros fuel.
    cbn [Nat.add Structural.findMatchingParen_loop].
    rewrite (at_of_suffix _ _ _ _ Hsrc).
    destruct (plain_step _ Hc) as (-> & -> & -> & ->).
    rewrite Hrun. f_equal. simpl. lia.
  - assert (Ea : after_quoted src i quote = i + (2 + length s)).
    { unfold after_quoted.
      change (quote :: s ++ quote :: w) with ([quote] ++ (s ++ quote :: w)) in Hsrc.
      rewrite <- app_assoc in Hsrc.
      pose proof (suffix_step _ _ [quote] _ Hsrc) as Hin. cbn [length] in Hin.
      rewrite Hin, <- app_assoc. cbn [app].
      rewrite skip_quoted_body by assumption. simpl. lia. }
    destruct (IH src (i + (2 + length s)) tail depth) as (n & Hn & Hrun); [|exact Hd|].
    { replace (2 + length s) with (length (quote :: s ++ [quote]))
        by (simpl; rewrite length_app; simpl; lia).
      apply suffix_step. rewrite Hsrc. simpl. now rewrite <- !app_assoc. }
    exists (S n). split; [simpl; rewrite length_app; simpl; lia|]. intros fuel.
    cbn [Nat.add Structural.findMatchingParen_loop].
    rewrite (at_of_suffix _ _ _ _ Hsrc), Hq, Ea, Hrun. f_equal.
    simpl. rewrite length_app. simpl. lia.
  - destruct (IH1 src (i + 1) (ch ")" :: w2 ++ tail) (depth + 1)%Z)
      as (n1 & Hn1 & Hrun1); [|lia|].
    { change (ch "(" :: w1 ++ ch ")" :: w2) with ([ch "("] ++ (w1 ++ ch ")" :: w2)) in Hsrc.
      rewrite <- app_assoc in Hsrc.
      pose proof (suffix_step _ _ [ch "("] _ Hsrc) as Hin. cbn [length] in Hin.
      rewrite Hin, <- app_assoc. reflexivity. }
    assert (Hclose : skipn (i + 1 + length w1) src = ch ")" :: w2 ++ tail).
    { replace (i + 1 + length w1) with (i + length (ch "(" :: w1)) by (simpl; lia).
      apply suffix_step. rewrite Hsrc. simpl. now rewrite <- app_assoc. }
    destruct (IH2 src (i + 1 + length w1 + 1) tail depth) as (n2 & Hn2 & Hrun2);
      [|exact Hd|].
    { change (ch ")" :: w2 ++ tail) with ([ch ")"] ++ (w2 ++ tail)) in Hclose.
      exact (suffix_step _ _ [ch ")"] _ Hclose). }
    exists (S (n1 + S n2)). split; [simpl; rewrite length_app; simpl; lia|].
    intros fuel. cbn [Nat.add Structural.findMatchingParen_loop].
    rewrite (at_of_suffix _ _ _ _ Hsrc). cbn.
    replace (n1 + S n2 + fuel) with (n1 + (S (n2 + fuel))) by lia.
    rewrite Hrun1. cbn [Structural.findMatchingParen_loop].
    rewrite (at_of_suffix _ _ _ _ Hclose). cbn.
    replace (depth + 1 - 1)%Z with depth by lia.
    destruct (depth =? 0)%Z eqn:E0; [apply Z.eqb_eq in E0; lia|].
    rewrite Hrun2. f_equal. simpl. rewrite length_app. simpl. lia.
  - assert (Hafter : skipn (i + (2 + eq)) src
                     = body ++ close_token eq ++ (w ++ tail)).
    { replace (2 + eq) with (length (ch "[" :: repeat (ch "=") eq ++ [ch "["]))
        by (simpl; rewrite length_app, repeat_length; simpl; lia).
      apply suffix_step. rewrite Hsrc. list_eq. }
    assert (Ei : indexOf (close_token eq) src (i + (2 + eq))
                 = Some (i + (2 + eq) + length body)).
    { apply indexOf_first with (R := w ++ tail);
        [exact Hafter | discriminate | exact Hfirst]. }
    destruct (IH src (i + (2 + eq) + length body + length (close_token eq)) tail depth)
      as (n & Hn & Hrun); [|exact Hd|].
    { replace (i + (2 + eq) + length body + length (close_token eq))
        with (i + (2 + eq) + length (body ++ close_token eq))
        by (rewrite length_app; lia).
      apply suffix_step. rewrite Hafter. list_eq. }
    exists (S n). split.
    { cbn [length]. rewrite !length_app, repeat_length. cbn [length].
      rewrite !length_app. lia. }
    intros fuel. cbn [Nat.add Structural.findMatchingParen_loop].
    rewrite (at_of_suffix _ _ _ _ Hsrc).
    change (is_quote (ch "[")) with false. cbv iota.
    rewrite Ascii.eqb_refl. unfold substring_from. rewrite Hsrc.
    replace ((ch "[" :: repeat (ch "=") eq ++ ch "[" :: body ++ close_token eq ++ w) ++ tail)
      with (ch "[" :: repeat (ch "=") eq ++ ch "[" :: (body ++ close_token eq ++ w ++ tail))
      by list_eq.
    rewrite long_open_opener. cbv zeta. cbn [Nat.add] in Ei, Hrun.
    rewrite Ei, Hrun. f_equal.
    cbn [length]. rewrite !length_app, repeat_length. cbn [length].
    rewrite !length_app. lia.
Qed.

Lemma findMatchingParen_loop_sound (src : str) : forall fuel i depth k,
  Structural.findMatchingParen_loop fuel src i depth = Ok (Some k) ->
  i <= k /\ at_ src k = Some (ch ")").
Proof.
  induction fuel as [|fuel IH]; intros i depth k; [discriminate|].
  cbn [Structural.findMatchingParen_loop].
  destruct (at_ src i) as [c|] eqn:Ec; [|discriminate].
  destruct (is_quote c).
  { intros H. apply IH in H as [H1 H2]. pose proof (after_quoted_gt src i c).
    split; [lia | exact H2]. }
  destruct (if Ascii.eqb c (ch "[") then long_open (substring_from src i) else None)
    as [eq|].
  { destruct (indexOf (close_token eq) src (i + (2 + eq))) as [endIdx|] eqn:Ei;
      [|discriminate].
    apply indexOf_Some_ge in Ei as [Hge _]; [|apply close_token_not_nil].
    intros H. apply IH in H as [H1 H2]. split; [lia | exact H2]. }
  destruct (Ascii.eqb c (ch "(")).
  { intros H. apply IH in H as [H1 H2]. split; [lia | exact H2]. }
  destruct (Ascii.eqb c (ch ")")) eqn:Ep.
  - destruct (depth - 1 =? 0)%Z.
    + intros H. injection H as <-. apply Ascii.eqb_eq in Ep. subst c.
      split; [lia | exact Ec].
    + intros H. apply IH in H as [H1 H2]. split; [lia | exact H2].
  - intros H. apply IH in H as [H1 H2]. split; [lia | exact H2].
Qed.

(** X5.  An index that [findMatchingParen] returns is an index of the
    text, it does not lie before the index the scan started at, and the
    character there is a closing parenthesis. *)
Theorem findMatchingParen_returns_a_closing_paren
  (fuel : nat) (src : str) (openIdx k : nat) :
  Structural.findMatchingParen fuel src openIdx = Ok (Some k) ->
  openIdx <= k /\ k < length src /\ at_ src k = Some (ch ")").
Proof.
  intros H. apply findMatchingParen_loop_sound in H as [H1 H2].
  split; [exact H1 | split; [| exact H2]].
  apply nth_error_Some. unfold at_ in H2. congruence.
Qed.

(** [findMatchingParen_returns_a_closing_paren] at a call with a nested
    argument. *)
Lemma findMatchingParen_returns_a_closing_paren_witness :
  5 <= 12 /\ 12 < length (lit "f = g((1), 2) + 3")
  /\ at_ (lit "f = g((1), 2) + 3") 12 = Some (ch ")").
Proof.
  assert (H : Structural.findMatchingParen 20 (lit "f = g((1), 2) + 3") 5 = Ok (Some 12))
    by (vm_compute; reflexivity).
  apply findMatchingParen_returns_a_closing_paren in H. 
  destruct H as (H1 & H2 & H3). split; [lia | split; [exact H2 | exact H3]].
Defined.

Lemma findMatchingParen_at (src : str) (i : nat) (w rest : str) (fuel : nat) :
  skipn i src = ch "(" :: w ++ ch ")" :: rest ->
  Nested w -> length w + 2 <= fuel ->
  Structural.findMatchingParen fuel src i = Ok (Some (i + 1 + length w)).
Proof.
  intros Hopen Hw Hf.
  assert (Hin : skipn (i + 1) src = w ++ ch ")" :: rest).
  { exact (suffix_step _ _ [ch "("] _ Hopen). }
  destruct (findMatchingParen_nested w Hw src (i + 1) (ch ")" :: rest) 1%Z Hin)
    as (n & Hn & Hrun); [lia|].
  assert (Hclose : skipn (i + 1 + length w) src = ch ")" :: rest).
  { exact (suffix_step _ _ w _ Hin). }
  unfold Structural.findMatchingParen.
  replace fuel with (S (n + S (fuel - n - 2))) by lia.
  cbn [Structural.findMatchingParen_loop].
  rewrite (at_of_suffix _ _ _ _ Hopen). cbn.
  rewrite Hrun. cbn [Structural.findMatchingParen_loop].
  rewrite (at_of_suffix _ _ _ _ Hclose). reflexivity.
Qed.



(** ** What the resolver can raise *)

Lemma bind_Throw {A B : Type} (m : result A) (k : A -> result B) (e : error) :
  bind m k = Throw e -> m = Throw e \/ exists a, m = Ok a /\ k a = Throw e.
Proof.
  destruct m as [a| |]; simpl; intros H; [right; exists a; auto | left; congruence | discriminate].
Qed.

Lemma insert_In (c x : nat * BodyEnd.keyword) : forall l,
  In x (BodyEnd.insert c l) -> x = c \/ In x l.
Proof.
  induction l as [|d l IH]; simpl.
  - intros [H | []]; auto.
  - destruct (fst c <=? fst d); simpl.
    + intros [H | H]; auto.
    + intros [H | H]; auto. apply IH in H as [H | H]; auto.
Qed.

Lemma sort_In (x : nat * BodyEnd.keyword) : forall l,
  In x (BodyEnd.sort l) -> In x l.
Proof.
  induction l as [|c l IH]; simpl; [auto|].
  intros H. apply insert_In in H as [H | H]; auto.
Qed.

Lemma candidates_In (m : BodyEnd.Matches) (i : nat) (k : BodyEnd.keyword) :
  In (i, k) (BodyEnd.candidates m) ->
  match k with
  | BodyEnd.KFunction => BodyEnd.funcMatch m
  | BodyEnd.KDo => BodyEnd.doMatch m
  | BodyEnd.KRepeat => BodyEnd.repeatMatch m
  | BodyEnd.KIf => BodyEnd.ifMatch m
  | BodyEnd.KFor => BodyEnd.forMatch m
  | BodyEnd.KWhile => BodyEnd.whileMatch m
  | BodyEnd.KEnd => BodyEnd.endMatch m
  | BodyEnd.KUntil => BodyEnd.untilMatch m
  end = Some i.
Proof.
  unfold BodyEnd.candidates. destruct m as [mf md mr mi mo mw me mu]. cbn.
  rewrite !in_app_iff.
  destruct mf, md, mr, mi, mo, mw, me, mu; cbn;
    intuition (try match goal with H : (_, _) = (_, _) |- _ => inversion H; subst end;
               congruence).
Qed.

(** The first candidate of a turn is one of the matches of that turn. *)
Lemma picked_matches (m : BodyEnd.Matches) (i : nat) (k : BodyEnd.keyword)
    (rest : list (nat * BodyEnd.keyword)) :
  BodyEnd.sort (BodyEnd.candidates m) = (i, k) :: rest ->
  In (i, k) (BodyEnd.candidates m).
Proof. intros H. apply sort_In. rewrite H. now left. Qed.

Lemma scan_tokens_never_raises (fuel : nat) :
  forall lineText sub ln searchFrom startIndent rx depth e,
  BodyEnd.scan_tokens fuel lineText sub ln searchFrom startIndent rx depth <> Throw e.
Proof.
  induction fuel as [|fuel IH]; intros lineText sub ln searchFrom startIndent rx depth e;
    cbn [BodyEnd.scan_tokens]; [discriminate|].
  destruct (BodyEnd.exec_all sub rx) as [m rx'].
  destruct (BodyEnd.sort (BodyEnd.candidates m)) as [|[idx pick] rest] eqn:Es;
    [discriminate|].
  apply picked_matches, candidates_In in Es.
  destruct pick; try (apply IH).
  - destruct (BodyEnd.ifMatch m); [destruct (test_else_tail _)|]; apply IH.
  - destruct (depth =? 0); [|apply IH].
    destruct (streq _ _); [|apply IH]. rewrite Es. discriminate.
  - destruct (depth =? 0); [|apply IH].
    destruct (streq _ _); [|apply IH]. rewrite Es. discriminate.
Qed.

Lemma body_scan_line_never_raises fuel lineText ln bsl bsc startIndent inBlock rx depth e :
  BodyEnd.scan_line fuel lineText ln bsl bsc startIndent inBlock rx depth <> Throw e.
Proof.
  unfold BodyEnd.scan_line.
  destruct (BodyEnd.uncomment_line inBlock lineText) as [[textLine inBlock']|];
    [|discriminate].
  destruct (length _ =? 0); [discriminate|].
  intros H. apply bind_Throw in H as [H | (r & _ & H)].
  - now apply scan_tokens_never_raises in H.
  - destruct r; discriminate.
Qed.

Lemma scan_lines_never_raises fuel :
  forall rest ln bsl bsc startIndent inBlock rx depth e,
  BodyEnd.scan_lines fuel rest ln bsl bsc startIndent inBlock rx depth <> Throw e.
Proof.
  induction rest as [|lineText rest IH]; intros ln bsl bsc startIndent inBlock rx depth e;
    cbn [BodyEnd.scan_lines]; [discriminate|].
  intros H. apply bind_Throw in H as [H | (r & _ & H)].
  - now apply body_scan_line_never_raises in H.
  - destruct r; [discriminate | now apply IH in H].
Qed.

Lemma lineAt_raises (d : TextDocument) (ln : nat) (e : error) :
  lineAt d ln = Throw e -> e = IllegalLine /\ lineCount d <= ln.
Proof.
  unfold lineAt, lineCount. destruct (nth_error (lines d) ln) eqn:E; [discriminate|].
  intros [= <-]. split; [reflexivity | now apply nth_error_None].
Qed.

Lemma find_end_raises fuel d hsl bsl bsc e :
  BodyEnd.find_end fuel d hsl bsl bsc = Throw e ->
  e = IllegalLine /\ lineCount d <= hsl.
Proof.
  unfold BodyEnd.find_end. intros H. apply bind_Throw in H as [H | (t & _ & H)].
  - now apply lineAt_raises in H.
  - now apply scan_lines_never_raises in H.
Qed.

Lemma paren_scan_line_never_raises fuel d lineText : forall ln i depth e,
  ParenScan.scan_line fuel d lineText ln i depth <> Throw e.
Proof.
  induction fuel as [|fuel IH]; intros ln i depth e; cbn [ParenScan.scan_line];
    [discriminate|].
  destruct (at_ lineText i) as [c|]; [|discriminate].
  destruct (is_quote c); [apply IH|].
  destruct (if Ascii.eqb c (ch "[") then long_open (substring_from lineText i) else None)
    as [eq|].
  { destruct (ParenScan.find_close _ _ _ _ _) as [[ln2 idx]|]; [apply IH | discriminate]. }
  destruct (Ascii.eqb c (ch "(")); [apply IH|].
  destruct (Ascii.eqb c (ch ")")); [|apply IH].
  destruct (depth - 1 <=? 0); [discriminate | apply IH].
Qed.

Lemma scan_from_never_raises d parenLoc : forall fuel ln depth e,
  ParenScan.scan_from fuel d parenLoc ln depth <> Throw e.
Proof.
  induction fuel as [|fuel IH]; intros ln depth e; cbn [ParenScan.scan_from];
    [discriminate|].
  destruct (ln <? lineCount d) eqn:El; [|discriminate].
  apply Nat.ltb_lt in El.
  intros H. apply bind_Throw in H as [H | (t & _ & H)].
  { apply lineAt_raises in H as [_ H]. lia. }
  apply bind_Throw in H as [H | (r & _ & H)].
  { now apply paren_scan_line_never_raises in H. }
  destruct r; try discriminate. now apply IH in H.
Qed.

Lemma head_end_raises find rfa fuel d sym e :
  head_end find rfa fuel d sym = Throw e ->
  e = IllegalLine /\ lineCount d <= line (range_start (selectionRange sym)).
Proof.
  unfold head_end. intros H. apply bind_Throw in H as [H | (h1 & _ & H)].
  { unfold paren_head_end in H.
    destruct (indexOf _ _ _); [|discriminate].
    now apply scan_from_never_raises in H. }
  cbn [fst snd] in H.
  match type of H with
  | match ?x with Some _ => _ | None => _ end = _ => destruct x; [discriminate|]
  end.
  apply bind_Throw in H as [H | (t & _ & H)].
  { now apply lineAt_raises in H. }
  destruct (indexOf (lit " do") t _); [discriminate|].
  destruct (indexOf (lit "repeat") t _); discriminate.
Qed.

Lemma body_start_raises d headEnd e :
  body_start d headEnd = Throw e -> e = IllegalLine /\ lineCount d <= line headEnd.
Proof.
  unfold body_start. intros H. apply bind_Throw in H as [H | (t & _ & H)].
  { now apply lineAt_raises in H. }
  destruct (_ && _); destruct (is_blank _); discriminate.
Qed.

Lemma heuristic_raises find rfa fuel d sym e :
  heuristic find rfa fuel d sym = Throw e ->
  e = NoMatchingEnd \/ e = IllegalLine.
Proof.
  unfold heuristic. intros H. apply bind_Throw in H as [H | (headEnd & _ & H)].
  { apply head_end_raises in H as [-> _]. now right. }
  apply bind_Throw in H as [H | ([bsl bsc] & _ & H)].
  { apply body_start_raises in H as [-> _]. now right. }
  apply bind_Throw in H as [H | (endPos & _ & H)].
  { apply find_end_raises in H as [-> _]. now right. }
  destruct endPos as [[el ec]|]; [discriminate|]. injection H as <-. now left.
Qed.

(** X7.  A resolution raises one of two errors only: the one that reports
    that no matching [end] was found, or the editor's own for a line
    number outside the document.  What the parser raises, and what goes
    wrong on the structural route, never reaches the caller; the guard on
    a missing head range never fires, and the token loop never reads the
    index of a match that is missing. *)
Theorem resolution_raises_two_errors luaparse find rfa fuel d sym e :
  getLanguageSpecificSymbolInformation luaparse find rfa fuel d sym = Throw e ->
  e = NoMatchingEnd \/ e = IllegalLine.
Proof.
  unfold getLanguageSpecificSymbolInformation.
  destruct (structural luaparse fuel d sym) as [[r|]|e'|];
    try discriminate; apply heuristic_raises.
Qed.

(** [resolution_raises_two_errors] at a function that is never closed,
    with a parser that rejects the text. *)
Lemma resolution_raises_two_errors_witness :
  NoMatchingEnd = NoMatchingEnd \/ NoMatchingEnd = IllegalLine.
Proof.
  apply (resolution_raises_two_errors (Some (fun _ => Throw ParseFailure))
           findInDocument_first (fun _ _ => true) 30 unterminated unterminated_f).
  vm_compute. reflexivity.
Defined.

(** ** The line of an accepted terminator *)

Lemma streq_eq : forall a b : str, streq a b = true -> a = b.
Proof.
  induction a as [|x a IH]; intros [|y b]; simpl; intros H; try discriminate; auto.
  apply andb_true_iff in H as [H1 H2]. apply Ascii.eqb_eq in H1. subst y.
  f_equal. now apply IH.
Qed.

Lemma scan_tokens_indent (fuel : nat) :
  forall lineText sub ln searchFrom startIndent rx depth p,
  BodyEnd.scan_tokens fuel lineText sub ln searchFrom startIndent rx depth
    = Ok (BodyEnd.Accepted p) ->
  leading_space lineText = startIndent.
Proof.
  induction fuel as [|fuel IH]; intros lineText sub ln searchFrom startIndent rx depth p;
    cbn [BodyEnd.scan_tokens]; [discriminate|].
  destruct (BodyEnd.exec_all sub rx) as [m rx'].
  destruct (BodyEnd.sort (BodyEnd.candidates m)) as [|[idx pick] rest]; [discriminate|].
  destruct pick; try (apply IH).
  - destruct (BodyEnd.ifMatch m); [destruct (test_else_tail _)|]; apply IH.
  - destruct (depth =? 0); [|apply IH].
    destruct (streq _ _) eqn:E; [|apply IH]. intros _. now apply streq_eq.
  - destruct (depth =? 0); [|apply IH].
    destruct (streq _ _) eqn:E; [|apply IH]. intros _. now apply streq_eq.
Qed.

Lemma scan_lines_indent fuel :
  forall rest ln bsl bsc startIndent inBlock rx depth p,
  BodyEnd.scan_lines fuel rest ln bsl bsc startIndent inBlock rx depth = Ok (Some p) ->
  exists endLine,
    nth_error rest (fst p - ln) = Some endLine
    /\ ln <= fst p
    /\ leading_space endLine = startIndent.
Proof.
  induction rest as [|lineText rest IH]; intros ln bsl bsc startIndent inBlock rx depth p;
    cbn [BodyEnd.scan_lines]; [discriminate|].
  intros H. apply bind_Ok in H as (r & Hr & H).
  destruct r as [q | inBlock' rx' depth'].
  - injection H as ->. pose proof (scan_line_found _ _ _ _ _ _ _ _ _ Hr) as [H1 _].
    exists lineText. rewrite H1, Nat.sub_diag. split; [reflexivity|]. split; [lia|].
    unfold BodyEnd.scan_line in Hr.
    destruct (BodyEnd.uncomment_line inBlock lineText) as [[textLine inBlock']|];
      [|discriminate].
    destruct (length _ =? 0); [discriminate|].
    apply bind_Ok in Hr as (r & Hr & H).
    destruct r as [q|]; [|discriminate].
    now apply scan_tokens_indent in Hr.
  - apply IH in H as (endLine & H1 & H2 & H3). exists endLine.
    replace (fst p - ln) with (S (fst p - S ln)) by lia. repeat split; auto. lia.
Qed.

(** X8.  The heuristic route accepts a terminator only on a line that is
    indented exactly like the line the head starts on: the body range it
    returns ends on a line of the document whose leading white space is
    that of the head's first line.  An [end] at another indentation is
    passed over, whatever the nesting depth says. *)
Theorem terminator_is_indented_like_the_head find rfa fuel d sym r :
  heuristic find rfa fuel d sym = Ok r ->
  exists headLine endLine,
    nth_error (lines d) (line (range_start (rangeHead r))) = Some headLine
    /\ nth_error (lines d) (line (range_end (rangeBody r))) = Some endLine
    /\ leading_space endLine = leading_space headLine.
Proof.
  unfold heuristic. intros H.
  apply bind_Ok in H as (headEnd & _ & H).
  apply bind_Ok in H as ([bsl bsc] & Hbs & H).
  apply bind_Ok in H as (endPos & He & H).
  destruct endPos as [[el ec]|]; [|discriminate].
  injection H as <-. cbn [rangeHead rangeBody].
  pose proof (find_end_some _ _ _ _ _ He) as [H1 H2]. cbn [fst snd] in H1, H2.
  assert (Hb : isBefore (mkPos bsl bsc) (mkPos el (ec + END_KEYWORD_length)) = true).
  { apply isBefore_spec. simpl. unfold END_KEYWORD_length. lia. }
  assert (Er : range_new bsl bsc el (ec + END_KEYWORD_length)
               = mkRange (mkPos bsl bsc) (mkPos el (ec + END_KEYWORD_length)))
    by (unfold range_new; exact (Range_new_ordered _ _ Hb)).
  rewrite Er. cbn [range_end line].
  unfold BodyEnd.find_end in He. apply bind_Ok in He as (headLine & Hh & He).
  apply scan_lines_indent in He as (endLine & E1 & _ & E3). cbn [fst] in E1.
  exists headLine, endLine. split; [|split; [|exact E3]].
  - unfold lineAt in Hh. destruct (nth_error _ _); [congruence | discriminate].
  - rewrite nth_error_skipn in E1. rewrite <- E1. f_equal. lia.
Qed.

(** [terminator_is_indented_like_the_head] at a function whose body holds
    an [if] block on lines of its own. *)
Lemma terminator_is_indented_like_the_head_witness :
  exists headLine endLine,
    nth_error (lines nested_blocks) 0 = Some headLine
    /\ nth_error (lines nested_blocks) 6 = Some endLine
    /\ leading_space endLine = leading_space headLine.
Proof.
  assert (H : exists r, heuristic_first 40 nested_blocks nested_blocks_f = Ok r
                        /\ line (range_start (rangeHead r)) = 0
                        /\ line (range_end (rangeBody r)) = 6).
  { eexists. vm_compute. repeat split. }
  destruct H as (r & Hr & E1 & E2).
  apply terminator_is_indented_like_the_head in Hr. rewrite E1, E2 in Hr. exact Hr.
Defined.

(** ** The stripped text *)

Lemma index_from_never (n : str) : forall s p,
  (forall k, starts_with n (skipn k s) = false) -> index_from n s p = None.
Proof.
  induction s as [|c s IH]; intros p H.
  - cbn [index_from]. pose proof (H 0) as H0. cbn [skipn] in H0. now rewrite H0.
  - cbn [index_from]. pose proof (H 0) as H0. cbn [skipn] in H0. rewrite H0.
    apply IH. intros k. exact (H (S k)).
Qed.

Lemma indexOf_None_iff (n s : str) :
  indexOf n s 0 = None <-> forall k, starts_with n (skipn k s) = false.
Proof.
  unfold indexOf. cbn [skipn]. split.
  - apply index_from_None.
  - apply index_from_never.
Qed.

Lemma spaces_no_dashes (o : str) :
  (forall k, starts_with (lit "--") (skipn k o) = false) ->
  forall n k, starts_with (lit "--") (skipn k (spaces n ++ o)) = false.
Proof.
  intros H. induction n as [|n IH]; intros k; [exact (H k)|].
  destruct k as [|k]; [reflexivity | exact (IH k)].
Qed.

Lemma Stripped_no_dashes (s o : str) :
  Stripped s o -> forall k, starts_with (lit "--") (skipn k o) = false.
Proof.
  induction 1 as [| c s o Hc HS IH | body rest o _ _ _ _ IH
                  | eq body rest o _ _ IH | eq body _].
  - intros k. now rewrite skipn_nil.
  - intros [|k]; [|exact (IH k)].
    cbn [skipn]. destruct (starts_with (lit "--") (c :: o)) eqn:E; [|reflexivity].
    exfalso. apply starts_with_iff in E as [t Et]. injection Et as -> ->.
    apply Stripped_pointwise in HS. inversion HS as [|a b s' o' Hab _ Ea Eb]. subst.
    destruct Hab as [Hab | Hab]; [discriminate Hab|]. subst a.
    now apply (Hc s').
  - now apply spaces_no_dashes.
  - now apply spaces_no_dashes.
  - intros k. rewrite <- (app_nil_r (spaces _)). apply spaces_no_dashes.
    intros j. now rewrite skipn_nil.
Qed.

Lemma Stripped_refl : forall s : str,
  (forall k, starts_with (lit "--") (skipn k s) = false) -> Stripped s s.
Proof.
  induction s as [|c s IH]; intros H; [constructor|].
  apply Stripped_code.
  - intros t Et. pose proof (H 0) as H0. cbn [skipn] in H0.
    rewrite Et in H0. 
    assert (E : starts_with (lit "--") (lit "--" ++ t) = true)
      by (apply starts_with_iff; now exists t).
    congruence.
  - apply IH. intros k. exact (H (S k)).
Qed.

Lemma stripLuaComments_unique (src o : str) :
  Stripped src o -> stripLuaComments src = o.
Proof.
  intros H. destruct (strip_loop_runs src) as [_ HS].
  exact (Stripped_functional HS H).
Qed.

(** X9.  The stripped text holds no comment: two dashes in a row occur
    nowhere in it.  A text without two dashes in a row comes back as it
    is, so stripping a second time changes nothing. *)
Theorem stripLuaComments_leaves_no_comment :
  (forall src, indexOf (lit "--") (stripLuaComments src) 0 = None)
  /\ (forall src, indexOf (lit "--") src 0 = None -> stripLuaComments src = src)
  /\ (forall src, stripLuaComments (stripLuaComments src) = stripLuaComments src).
Proof.
  assert (H1 : forall src, indexOf (lit "--") (stripLuaComments src) 0 = None).
  { intros src. apply indexOf_None_iff.
    destruct (strip_loop_runs src) as [_ HS]. exact (Stripped_no_dashes _ _ HS). }
  assert (H2 : forall src, indexOf (lit "--") src 0 = None -> stripLuaComments src = src).
  { intros src H. apply stripLuaComments_unique, Stripped_refl.
    now apply indexOf_None_iff. }
  split; [exact H1 | split; [exact H2|]].
  intros src. apply H2, H1.
Qed.

(** [stripLuaComments_leaves_no_comment] at a line with single dashes. *)
Lemma stripLuaComments_leaves_no_comment_witness :
  stripLuaComments (lit "x = a - b") = lit "x = a - b".
Proof.
  apply (proj1 (proj2 stripLuaComments_leaves_no_comment)). reflexivity.
Defined.

(** A block opener somewhere in a text, read at the place of the tail. *)
Lemma occurs_at_shift (tok pre s : str) (k : nat) :
  occurs_at tok s k -> occurs_at tok (pre ++ s) (length pre + k).
Proof.
  intros (a & b & -> & <-). exists (pre ++ a), b.
  rewrite <- app_assoc, length_app. auto.
Qed.

Lemma at_spaces_app (n : nat) (o : str) (k : nat) :
  at_ (spaces n ++ o) (n + k) = at_ o k.
Proof.
  unfold at_. rewrite nth_error_app2; unfold spaces; rewrite repeat_length; [|lia].
  f_equal. lia.
Qed.

Lemma Stripped_keeps_line_feeds (s o : str) :
  Stripped s o ->
  (forall eq k, ~ occurs_at (block_opener eq) s k) ->
  forall k, at_ s k = Some LF -> at_ o k = Some LF.
Proof.
  induction 1 as [| c s o Hc HS IH | body rest o _ Hin _ _ IH
                  | eq body rest o _ _ IH | eq body _]; intros Hno k Hk.
  - exact Hk.
  - destruct k as [|k]; [exact Hk|].
    apply IH; [|exact Hk].
    intros eq j Ho. apply (Hno eq (length [c] + j)).
    now apply (occurs_at_shift _ [c]).
  - assert (Hlt : ~ k < 2 + length body).
    { intros Hlt. unfold at_ in Hk.
      rewrite app_assoc, nth_error_app1 in Hk
        by (rewrite length_app; simpl; lia).
      destruct k as [|[|k]]; try discriminate Hk.
      cbn [lit list_ascii_of_string app nth_error] in Hk.
      apply nth_error_In in Hk. contradiction. }
    replace k with (2 + length body + (k - (2 + length body))) by lia.
    rewrite at_spaces_app. apply IH.
    + intros eq j Ho. apply (Hno eq (length (lit "--" ++ body) + j)).
      rewrite app_assoc. now apply occurs_at_shift.
    + unfold at_ in *. rewrite app_assoc, nth_error_app2 in Hk
        by (rewrite length_app; simpl; lia).
      rewrite length_app in Hk. exact Hk.
  - exfalso. apply (Hno eq 0). exists [], (body ++ close_token eq ++ rest). auto.
  - exfalso. apply (Hno eq 0). exists [], body. auto.
Qed.

Lemma no_block_opener (src : str) :
  indexOf (lit "--[") src 0 = None ->
  forall eq k, ~ occurs_at (block_opener eq) src k.
Proof.
  intros H eq k (a & b & -> & <-).
  apply indexOf_None_iff with (k := length a) in H.
  rewrite skipn_app, Nat.sub_diag, skipn_all in H. cbn [skipn app] in H.
  unfold block_opener in H. rewrite <- !app_assoc in H.
  assert (E : starts_with (lit "--[")
                (lit "--[" ++ repeat (ch "=") eq ++ lit "[" ++ b) = true)
    by (apply starts_with_iff; eauto).
  congruence.
Qed.

(** X10.  Outside block comments the line structure is kept: in a text in
    which no block-comment opener occurs, every line feed stands in the
    stripped text at the index it has in the text, so the two have the
    same number of line feeds, and a line comment ends before the line
    feed that follows it. *)
Theorem stripLuaComments_keeps_line_feeds (src : str) :
  (forall eq k, ~ occurs_at (block_opener eq) src k) ->
  (forall k, at_ src k = Some LF -> at_ (stripLuaComments src) k = Some LF)
  /\ newlines (stripLuaComments src) = newlines src.
Proof.
  intros Hno. destruct (strip_loop_runs src) as [_ HS].
  assert (Hkeep := Stripped_keeps_line_feeds _ _ HS Hno).
  split; [exact Hkeep|].
  apply Nat.le_antisymm; [apply newlines_le, Stripped_pointwise, HS|].
  pose proof (Stripped_length HS) as Hlen. revert Hkeep Hlen.
  generalize (stripLuaComments src) as o. clear.
  unfold newlines. induction src as [|c s IH]; intros [|b o] Hkeep Hlen;
    try discriminate Hlen; [reflexivity|].
  cbn [filter]. assert (Hrec : length (filter (Ascii.eqb LF) s)
                               <= length (filter (Ascii.eqb LF) o)).
  { apply IH; [|simpl in Hlen; lia]. intros k Hk. exact (Hkeep (S k) Hk). }
  destruct (Ascii.eqb LF c) eqn:Ec.
  - apply Ascii.eqb_eq in Ec. subst c. pose proof (Hkeep 0 eq_refl) as H0.
    injection H0 as ->. rewrite Ascii.eqb_refl. cbn [length]. lia.
  - destruct (Ascii.eqb LF b); cbn [length]; lia.
Qed.

(** [stripLuaComments_keeps_line_feeds] at two lines, the first with a
    line comment. *)
Lemma stripLuaComments_keeps_line_feeds_witness :
  (forall k, at_ (lit "a -- c" ++ [LF] ++ lit "b") k = Some LF ->
             at_ (stripLuaComments (lit "a -- c" ++ [LF] ++ lit "b")) k = Some LF)
  /\ newlines (stripLuaComments (lit "a -- c" ++ [LF] ++ lit "b"))
     = newlines (lit "a -- c" ++ [LF] ++ lit "b").
Proof.
  apply (stripLuaComments_keeps_line_feeds (lit "a -- c" ++ [LF] ++ lit "b")).
  apply no_block_opener. reflexivity.
Defined.

(** ** Head and body of the heuristic route *)

Lemma body_start_after d headEnd bs :
  body_start d headEnd = Ok bs ->
  (fst bs = line headEnd
   /\ character headEnd <= snd bs <= character headEnd + 1)
  \/ (fst bs = line headEnd + 1 /\ snd bs = 0).
Proof.
  unfold body_start. intros H. apply bind_Ok in H as (text & _ & H).
  rewrite Nat.max_0_l in H.
  destruct (_ && _); destruct (is_blank _); injection H as <-; cbn [fst snd];
    auto; left; split; auto; lia.
Qed.

(** X11.  On the heuristic route the body never reaches into the head: it
    starts on the line the head ends on, at the head's end or one
    character behind it (the step over a closing parenthesis), or at the
    first column of the next line. *)
Theorem heuristic_body_starts_behind_the_head find rfa fuel d sym r :
  heuristic find rfa fuel d sym = Ok r ->
  isBefore (range_start (rangeBody r)) (range_end (rangeHead r)) = false
  /\ ((line (range_start (rangeBody r)) = line (range_end (rangeHead r))
       /\ character (range_end (rangeHead r)) <= character (range_start (rangeBody r))
          <= character (range_end (rangeHead r)) + 1)
      \/ (line (range_start (rangeBody r)) = line (range_end (rangeHead r)) + 1
          /\ character (range_start (rangeBody r)) = 0)).
Proof.
  unfold heuristic. intros H.
  apply bind_Ok in H as (headEnd & _ & H).
  apply bind_Ok in H as ([bsl bsc] & Hbs & H).
  apply bind_Ok in H as (endPos & He & H).
  destruct endPos as [[el ec]|]; [|discriminate].
  injection H as <-. cbn [rangeHead rangeBody].
  apply find_end_some in He as [H1 H2]. cbn [fst snd] in H1, H2.
  assert (Hb : isBefore (mkPos bsl bsc) (mkPos el (ec + END_KEYWORD_length)) = true).
  { apply isBefore_spec. simpl. unfold END_KEYWORD_length. lia. }
  assert (Er : range_new bsl bsc el (ec + END_KEYWORD_length)
               = mkRange (mkPos bsl bsc) (mkPos el (ec + END_KEYWORD_length)))
    by (unfold range_new; exact (Range_new_ordered _ _ Hb)).
  rewrite Er. cbn [range_start line character].
  apply body_start_after in Hbs. cbn [fst snd] in Hbs.
  split; [|exact Hbs].
  destruct (isBefore (mkPos bsl bsc) (range_end (head_range sym headEnd))) eqn:E;
    [|reflexivity].
  apply isBefore_spec in E. cbn [line character] in E. lia.
Qed.

(** [heuristic_body_starts_behind_the_head] at a function whose first
    statement shares the line of its head. *)
Lemma heuristic_body_starts_behind_the_head_witness :
  exists r, heuristic_first 30 same_line_body same_line_body_foo = Ok r
    /\ isBefore (range_start (rangeBody r)) (range_end (rangeHead r)) = false
    /\ ((line (range_start (rangeBody r)) = line (range_end (rangeHead r))
         /\ character (range_end (rangeHead r)) <= character (range_start (rangeBody r))
            <= character (range_end (rangeHead r)) + 1)
        \/ (line (range_start (rangeBody r)) = line (range_end (rangeHead r)) + 1
            /\ character (range_start (rangeBody r)) = 0)).
Proof.
  eexists. split; [vm_compute; reflexivity|].
  apply (heuristic_body_starts_behind_the_head findInDocument_first (fun _ _ => true) 30
           same_line_body same_line_body_foo).
  vm_compute. reflexivity.
Defined.

(** ** The parenthesis scan of the second and third strategies *)

Lemma plain_line_sound : forall rest ln i depth p,
  ParenScan.plain_line rest ln i depth = inl p ->
  fst p = ln /\ i <= snd p /\ at_ rest (snd p - i) = Some (ch ")").
Proof.
  induction rest as [|c t IH]; intros ln i depth p; cbn [ParenScan.plain_line];
    [discriminate|].
  assert (Hstep : forall depth', ParenScan.plain_line t ln (i + 1) depth' = inl p ->
            fst p = ln /\ i <= snd p /\ at_ (c :: t) (snd p - i) = Some (ch ")")).
  { intros depth' H. apply IH in H as (H1 & H2 & H3). split; [exact H1|].
    split; [lia|]. replace (snd p - i) with (S (snd p - (i + 1))) by lia. exact H3. }
  destruct (Ascii.eqb c (ch "(")); [apply Hstep|].
  destruct (Ascii.eqb c (ch ")")) eqn:Ec; [|apply Hstep].
  destruct (depth - 1 <=? 0); [|apply Hstep].
  intros [= <-]. cbn [fst snd]. rewrite Nat.sub_diag. apply Ascii.eqb_eq in Ec.
  subst c. auto.
Qed.

Lemma plain_from_sound (parenLoc : loc) : forall rest ln depth p,
  ParenScan.plain_from rest parenLoc ln depth = Some p ->
  exists text,
    nth_error rest (fst p - ln) = Some text
    /\ ln <= fst p
    /\ at_ text (snd p) = Some (ch ")")
    /\ (fst p = fst parenLoc -> snd parenLoc <= snd p).
Proof.
  induction rest as [|text rest IH]; intros ln depth p; cbn [ParenScan.plain_from];
    [discriminate|].
  destruct (ParenScan.plain_line _ _ _ _) as [q | depth'] eqn:El.
  - intros [= ->]. apply plain_line_sound in El as (H1 & H2 & H3).
    exists text. rewrite H1, Nat.sub_diag. split; [reflexivity|]. split; [lia|].
    split.
    + unfold at_, substring_from in *. rewrite nth_error_skipn in H3.
      rewrite <- H3. f_equal. lia.
    + intros E. rewrite <- E, Nat.eqb_refl in H2. exact H2.
  - intros H. apply IH in H as (t & H1 & H2 & H3 & H4). exists t.
    replace (fst p - ln) with (S (fst p - S ln)) by lia. auto with arith.
Qed.

(** X12.  A location that the scan of the second and third strategies
    returns is a closing parenthesis of the document that does not stand
    before the location the scan started from. *)
Theorem plain_matching_paren_returns_a_closing_paren
    (d : TextDocument) (parenLoc p : loc) :
  ParenScan.plain_matching_paren d parenLoc = Some p ->
  exists text,
    nth_error (lines d) (fst p) = Some text
    /\ at_ text (snd p) = Some (ch ")")
    /\ later parenLoc p = false.
Proof.
  unfold ParenScan.plain_matching_paren. intros H.
  apply plain_from_sound in H as (text & H1 & H2 & H3 & H4).
  exists text. split; [|split; [exact H3|]].
  - rewrite nth_error_skipn in H1. rewrite <- H1. f_equal. lia.
  - unfold later. apply orb_false_iff. split; [apply Nat.ltb_ge; lia|].
    destruct (fst parenLoc =? fst p) eqn:E; [|reflexivity].
    apply Nat.eqb_eq in E. cbn [andb]. apply Nat.ltb_ge. auto.
Qed.

(** [plain_matching_paren_returns_a_closing_paren] at a parameter list
    that runs over two lines. *)
Lemma plain_matching_paren_returns_a_closing_paren_witness :
  exists text,
    nth_error [lit "local f = function(a,"; lit "  b) return a end"] 1 = Some text
    /\ at_ text 3 = Some (ch ")")
    /\ later (0, 18) (1, 3) = false.
Proof.
  apply (plain_matching_paren_returns_a_closing_paren
           (document [lit "local f = function(a,"; lit "  b) return a end"])
           (0, 18) (1, 3)).
  vm_compute. reflexivity.
Defined.

(** ** The parenthesis scan of the first strategy *)






(** ** The terminator in a document without comments *)

Lemma exec_spells (kw sub : str) (li idx li' : nat) :
  exec kw sub li = (Some idx, li') -> ci_starts_with kw (skipn idx sub) = true.
Proof.
  unfold exec. destruct (kw_search kw sub (skipn li sub) li) as [i|] eqn:E; [|discriminate].
  intros [= <- _]. apply kw_search_Some in E as (dd & -> & H).
  rewrite skipn_skipn in H. now rewrite Nat.add_comm.
Qed.

Lemma exec_all_spells (sub : str) (rx rx' : BodyEnd.Regexes) (m : BodyEnd.Matches) :
  BodyEnd.exec_all sub rx = (m, rx') ->
  (forall idx, BodyEnd.endMatch m = Some idx ->
     ci_starts_with (lit "end") (skipn idx sub) = true)
  /\ (forall idx, BodyEnd.untilMatch m = Some idx ->
     ci_starts_with (lit "until") (skipn idx sub) = true).
Proof.
  unfold BodyEnd.exec_all.
  destruct (exec (lit "function") sub _) as [mf lf].
  destruct (exec (lit "do") sub _) as [md ld].
  destruct (exec (lit "repeat") sub _) as [mr lr].
  destruct (exec (lit "if") sub _) as [mi li].
  destruct (exec (lit "for") sub _) as [mo lo].
  destruct (exec (lit "while") sub _) as [mw lw].
  destruct (exec (lit "end") sub _) as [me le] eqn:Ee.
  destruct (exec (lit "until") sub _) as [mu lu] eqn:Eu.
  intros [= <- _]. cbn [BodyEnd.endMatch BodyEnd.untilMatch]. split; intros idx ->.
  - exact (exec_spells _ _ _ _ _ Ee).
  - exact (exec_spells _ _ _ _ _ Eu).
Qed.

Lemma scan_tokens_keyword (fuel : nat) :
  forall lineText sub ln searchFrom startIndent rx depth p,
  BodyEnd.scan_tokens fuel lineText sub ln searchFrom startIndent rx depth
    = Ok (BodyEnd.Accepted p) ->
  exists idx, snd p = searchFrom + idx
    /\ (ci_starts_with (lit "end") (skipn idx sub) = true
        \/ ci_starts_with (lit "until") (skipn idx sub) = true).
Proof.
  induction fuel as [|fuel IH]; intros lineText sub ln searchFrom startIndent rx depth p;
    cbn [BodyEnd.scan_tokens]; [discriminate|].
  destruct (BodyEnd.exec_all sub rx) as [m rx'] eqn:Ex.
  apply exec_all_spells in Ex as [Hend Huntil].
  destruct (BodyEnd.sort (BodyEnd.candidates m)) as [|[idx pick] rest]; [discriminate|].
  destruct pick; try (apply IH).
  - destruct (BodyEnd.ifMatch m); [destruct (test_else_tail _)|]; apply IH.
  - destruct (depth =? 0); [|apply IH].
    destruct (streq _ _); [|apply IH].
    destruct (BodyEnd.endMatch m) as [i|]; [|discriminate].
    intros [= <-]. exists i. auto.
  - destruct (depth =? 0); [|apply IH].
    destruct (streq _ _); [|apply IH].
    destruct (BodyEnd.untilMatch m) as [i|]; [|discriminate].
    intros [= <-]. exists i. auto.
Qed.

Lemma block_open_search_dashes : forall s pos,
  (forall k, starts_with (lit "--") (skipn k s) = false) ->
  block_open_search s pos = None.
Proof.
  induction s as [|c s IH]; intros pos H; [reflexivity|].
  cbn [block_open_search].
  assert (E : block_open_here (c :: s) = None).
  { pose proof (H 0) as H0. cbn [skipn] in H0. unfold block_open_here.
    destruct s as [|b t]; [reflexivity|].
    destruct (Ascii.eqb c (ch "-")) eqn:Ec; [|reflexivity].
    destruct (Ascii.eqb b (ch "-")) eqn:Eb; [|reflexivity].
    apply Ascii.eqb_eq in Ec, Eb. subst c b. discriminate H0. }
  rewrite E. apply IH. intros k. exact (H (S k)).
Qed.

Lemma uncomment_line_plain (lineText : str) :
  indexOf (lit "--") lineText 0 = None ->
  BodyEnd.uncomment_line None lineText = Some (lineText, None).
Proof.
  intros H. unfold BodyEnd.uncomment_line.
  rewrite block_open_search_dashes by now apply indexOf_None_iff.
  now rewrite H.
Qed.

Lemma scan_lines_keyword fuel :
  forall rest ln bsl bsc startIndent rx depth p,
  Forall (fun l => indexOf (lit "--") l 0 = None) rest ->
  BodyEnd.scan_lines fuel rest ln bsl bsc startIndent None rx depth = Ok (Some p) ->
  exists endLine,
    nth_error rest (fst p - ln) = Some endLine
    /\ ln <= fst p
    /\ (ci_starts_with (lit "end") (skipn (snd p) endLine) = true
        \/ ci_starts_with (lit "until") (skipn (snd p) endLine) = true).
Proof.
  induction rest as [|lineText rest IH]; intros ln bsl bsc startIndent rx depth p Hall;
    cbn [BodyEnd.scan_lines]; [discriminate|].
  inversion Hall as [|? ? Hl Hrest]; subst.
  unfold BodyEnd.scan_line. rewrite (uncomment_line_plain _ Hl).
  destruct (length _ =? 0).
  { cbn [bind]. intros H. apply IH in H as (endLine & H1 & H2 & H3); [|exact Hrest].
    exists endLine. replace (fst p - ln) with (S (fst p - S ln)) by lia.
    split; [exact H1 | split; [lia | exact H3]]. }
  intros H. apply bind_Ok in H as (r & Hr & H).
  apply bind_Ok in Hr as (r' & Hr' & Hr).
  destruct r' as [q | rx' depth']; injection Hr as <-.
  - injection H as ->.
    pose proof (scan_tokens_accepted _ _ _ _ _ _ _ _ Hr') as [E1 _].
    apply scan_tokens_keyword in Hr' as (idx & E2 & Hk).
    exists lineText. rewrite E1, Nat.sub_diag. split; [reflexivity|]. split; [lia|].
    unfold substring_from in Hk. rewrite !skipn_skipn in Hk.
    rewrite E2. rewrite (Nat.add_comm _ idx). exact Hk.
  - apply IH in H as (endLine & H1 & H2 & H3); [|exact Hrest].
    exists endLine. replace (fst p - ln) with (S (fst p - S ln)) by lia.
    split; [exact H1 | split; [lia | exact H3]].
Qed.

(** X14.  In a document none of whose lines holds two dashes in a row, a
    body found by the heuristic route ends three characters behind the
    start of an [end] or an [until], in any case of letters, on its last
    line: the terminator is read off the text, and the three characters
    of [end] are added for [until] as well. *)
Theorem heuristic_body_ends_at_a_terminator find rfa fuel d sym r :
  Forall (fun l => indexOf (lit "--") l 0 = None) (lines d) ->
  heuristic find rfa fuel d sym = Ok r ->
  exists endLine idx,
    nth_error (lines d) (line (range_end (rangeBody r))) = Some endLine
    /\ character (range_end (rangeBody r)) = idx + 3
    /\ (ci_starts_with (lit "end") (skipn idx endLine) = true
        \/ ci_starts_with (lit "until") (skipn idx endLine) = true).
Proof.
  intros Hall. unfold heuristic. intros H.
  apply bind_Ok in H as (headEnd & _ & H).
  apply bind_Ok in H as ([bsl bsc] & Hbs & H).
  apply bind_Ok in H as (endPos & He & H).
  destruct endPos as [[el ec]|]; [|discriminate].
  injection H as <-. cbn [rangeHead rangeBody].
  pose proof (find_end_some _ _ _ _ _ He) as [H1 H2]. cbn [fst snd] in H1, H2.
  assert (Hb : isBefore (mkPos bsl bsc) (mkPos el (ec + END_KEYWORD_length)) = true).
  { apply isBefore_spec. simpl. unfold END_KEYWORD_length. lia. }
  assert (Er : range_new bsl bsc el (ec + END_KEYWORD_length)
               = mkRange (mkPos bsl bsc) (mkPos el (ec + END_KEYWORD_length)))
    by (unfold range_new; exact (Range_new_ordered _ _ Hb)).
  rewrite Er. cbn [range_end line character].
  unfold BodyEnd.find_end in He. apply bind_Ok in He as (headLine & _ & He).
  apply scan_lines_keyword in He as (endLine & E1 & _ & E3).
  - cbn [fst snd] in E1, E3. exists endLine, ec. split; [|split; [reflexivity | exact E3]].
    rewrite nth_error_skipn in E1. rewrite <- E1. f_equal. lia.
  - apply Forall_forall. intros l Hl. apply (proj1 (Forall_forall _ _) Hall).
    rewrite <- (firstn_skipn bsl (lines d)). apply in_or_app. now right.
Qed.

(** [heuristic_body_ends_at_a_terminator] at the spec's first scenario. *)
Lemma heuristic_body_ends_at_a_terminator_witness :
  exists endLine idx,
    nth_error (lines scenario1) 2 = Some endLine
    /\ 3 = idx + 3
    /\ (ci_starts_with (lit "end") (skipn idx endLine) = true
        \/ ci_starts_with (lit "until") (skipn idx endLine) = true).
Proof.
  apply (heuristic_body_ends_at_a_terminator findInDocument_first (fun _ _ => true) 30
           scenario1 scenario1_foo
           (mkResolved (mkRange (mkPos 0 9) (mkPos 0 16))
                       (mkRange (mkPos 1 0) (mkPos 2 3)) [])).
  - repeat constructor.
  - vm_compute. reflexivity.
Defined.

(** ** The earlier version of the provider *)

Lemma later_false (a b : loc) :
  later a b = false <-> fst a < fst b \/ (fst a = fst b /\ snd a <= snd b).
Proof.
  unfold later. rewrite orb_false_iff, andb_false_iff, !Nat.ltb_ge, Nat.eqb_neq. lia.
Qed.

Lemma blank_rest (text : str) (a k : nat) (c : ascii) :
  is_blank (skipn a text) = true -> a <= k -> at_ text k = Some c -> is_space c = true.
Proof.
  unfold is_blank, at_. intros Hb Hle Hk.
  rewrite forallb_forall in Hb. apply Hb.
  apply nth_error_In with (n := k - a). rewrite nth_error_skipn. rewrite <- Hk.
  f_equal. lia.
Qed.

Lemma starts_with_head (n s : str) (c : ascii) (t : str) :
  n = c :: t -> starts_with n s = true -> at_ s 0 = Some c.
Proof.
  intros -> H. destruct s as [|y s]; [discriminate|]. simpl in H.
  apply andb_true_iff in H as [H _]. apply Ascii.eqb_eq in H. now subst.
Qed.

Lemma needle_stands (needle text : str) (i : nat) (c : ascii) (t : str) :
  needle = c :: t -> starts_with needle (skipn i text) = true -> at_ text i = Some c.
Proof.
  intros E H. apply (starts_with_head _ _ _ _ E) in H. unfold at_ in *.
  rewrite nth_error_skipn in H. now rewrite Nat.add_0_r in H.
Qed.

(** X15.  The earlier version of the resolver, run with a finder that
    looks forward and reports places where the needle stands, on a symbol
    whose selection range is in order: the head runs from the start of the
    name to a closing parenthesis of the document, the body starts behind
    the head and ends three characters behind the start of an [end] of the
    document, and neither range is turned round.  The guard on a missing
    head range never fires. *)
Theorem legacy_ranges_are_in_order find d sym :
  finds_forward find d ->
  isBefore (range_end (selectionRange sym)) (range_start (selectionRange sym)) = false ->
  Legacy.getLanguageSpecificSymbolInformation find d sym
    <> Legacy.Raised Legacy.RangeHeadNull
  /\ forall r,
     Legacy.getLanguageSpecificSymbolInformation find d sym = Legacy.Returned r ->
     range_start (rangeHead r) = range_start (selectionRange sym)
     /\ (exists text,
           nth_error (lines d) (line (range_end (rangeHead r))) = Some text
           /\ at_ text (character (range_end (rangeHead r))) = Some (ch ")"))
     /\ isBefore (range_end (rangeHead r)) (range_start (rangeBody r)) = true
     /\ isBefore (range_start (rangeBody r)) (range_end (rangeBody r)) = true
     /\ exists text idx,
          nth_error (lines d) (line (range_end (rangeBody r))) = Some text
          /\ character (range_end (rangeBody r)) = idx + 3
          /\ starts_with (lit "end") (skipn idx text) = true.
Proof.
  intros Hfind Hsel. unfold Legacy.getLanguageSpecificSymbolInformation.
  destruct (selectionRange sym) as [[sl sc] [el ec]]. cbn [range_start range_end line character fst snd] in *.
  destruct (find (lit "(") d (el, ec)) as [parenLoc|] eqn:Eo; [|split; [discriminate | intros; discriminate]].
  destruct (find (lit ")") d parenLoc) as [[hl hc]|] eqn:Ec; [|split; [discriminate | intros; discriminate]].
  cbn [fst snd].
  apply Hfind in Eo as [Ho _]; [|discriminate].
  apply Hfind in Ec as [Hc (htext & Hh & Hparen)]; [|discriminate].
  apply later_false in Ho, Hc. cbn [fst snd] in *.
  assert (Hs : ~ (el < sl \/ (el = sl /\ ec < sc))).
  { rewrite <- (isBefore_spec (mkPos el ec) (mkPos sl sc)). cbn. congruence. }
  assert (Eh : range_new sl sc hl hc = mkRange (mkPos sl sc) (mkPos hl hc)).
  { unfold range_new, Range_new.
    destruct (isBefore (mkPos sl sc) (mkPos hl hc)) eqn:E; [reflexivity|].
    destruct (isBefore (mkPos hl hc) (mkPos sl sc)) eqn:E'.
    - apply isBefore_spec in E'. cbn in E'. lia.
    - now rewrite (isBefore_neither _ _ E E'). }
  rewrite Eh. cbn [range_end line character].
  destruct (find (lit "end") d (hl, hc + 1)) as [[bl bc]|] eqn:Ee; [|split; [discriminate | intros; discriminate]].
  apply Hfind in Ee as [He (etext & Het & Hend)]; [|discriminate].
  apply later_false in He. cbn [fst snd] in *.
  rewrite Hh. split; [discriminate|]. intros r [= <-]. cbn [rangeHead rangeBody].
  set (bs := if is_blank (substring_from htext (hc + 1)) then (hl + 1, 0) else (hl, hc + 1)).
  assert (Hbs : (fst bs = hl /\ snd bs = hc + 1 \/ fst bs = hl + 1 /\ snd bs = 0)
                /\ (fst bs < bl \/ (fst bs = bl /\ snd bs <= bc))).
  { unfold bs. destruct (is_blank _) eqn:Eb; cbn [fst snd]; [|split; [auto | lia]].
    split; [auto|].
    destruct (Nat.eq_dec bl hl) as [-> | Hne]; [|lia]. exfalso.
    assert (etext = htext) by congruence. subst etext.
    assert (Hat : at_ htext bc = Some (ch "e"))
      by (exact (needle_stands _ _ _ _ _ eq_refl Hend)).
    apply (blank_rest _ _ _ _ Eb) in Hat; [discriminate | lia]. }
  destruct Hbs as [Hbs1 Hbs2].
  assert (Eb : range_new (fst bs) (snd bs) bl (bc + 3)
               = mkRange (mkPos (fst bs) (snd bs)) (mkPos bl (bc + 3))).
  { unfold range_new. apply Range_new_ordered, isBefore_spec. cbn. lia. }
  rewrite Eb. cbn [range_start range_end line character].
  split; [reflexivity|]. split.
  { exists htext. split; [exact Hh|]. exact (needle_stands _ _ _ _ _ eq_refl Hparen). }
  split; [apply isBefore_spec; cbn; lia|].
  split; [apply isBefore_spec; cbn; lia|].
  exists etext, bc. auto.
Qed.

(** [findInDocument_first] looks forward and reports places where the
    needle stands. *)
Lemma find_in_lines_forward (needle : str) (start : loc) : forall rest ln p,
  needle <> [] ->
  find_in_lines needle rest ln start = Some p ->
  ln <= fst p
  /\ (fst p = fst start -> snd start <= snd p)
  /\ exists text, nth_error rest (fst p - ln) = Some text
       /\ starts_with needle (skipn (snd p) text) = true.
Proof.
  induction rest as [|text rest IH]; intros ln p Hn; cbn [find_in_lines]; [discriminate|].
  destruct (indexOf needle text _) as [idx|] eqn:Ei.
  - intros [= <-]. cbn [fst snd]. split; [lia|]. split.
    + intros E. rewrite E, Nat.eqb_refl in Ei.
      apply indexOf_Some_ge in Ei as [H _]; [exact H | exact Hn].
    + exists text. rewrite Nat.sub_diag. split; [reflexivity|].
      unfold indexOf in Ei. apply index_from_Some in Ei as (k & -> & Hk & Hs & _).
      rewrite skipn_skipn in Hs.
      destruct (Nat.le_gt_cases (length text)
                  (if ln =? fst start then snd start else 0)) as [Hl | Hl].
      * rewrite skipn_all2 in Hk by exact Hl. cbn [length] in Hk.
        assert (k = 0) by lia. subst k. cbn [Nat.add] in Hs.
        rewrite skipn_all2 in Hs by exact Hl. now rewrite starts_with_nil in Hs.
      * rewrite Nat.min_l by lia. now rewrite Nat.add_comm.
  - intros H. apply IH in H as (H1 & H2 & text' & H3 & H4); [|exact Hn].
    split; [lia|]. split; [exact H2|]. exists text'.
    replace (fst p - ln) with (S (fst p - S ln)) by lia. auto.
Qed.

Lemma findInDocument_first_forward (d : TextDocument) :
  finds_forward findInDocument_first d.
Proof.
  intros needle start p Hn H. unfold findInDocument_first in H.
  apply find_in_lines_forward in H as (H1 & H2 & text & H3 & H4); [|exact Hn].
  split.
  - apply later_false. destruct (Nat.eq_dec (fst p) (fst start)) as [E | E]; [|lia].
    right. split; [lia | auto].
  - exists text. split; [|exact H4].
    rewrite nth_error_skipn in H3. rewrite <- H3. f_equal. lia.
Qed.

(** [legacy_ranges_are_in_order] at the spec's first scenario. *)
Lemma legacy_ranges_are_in_order_witness :
  exists r,
    Legacy.getLanguageSpecificSymbolInformation findInDocument_first scenario1 scenario1_foo
      = Legacy.Returned r
    /\ range_start (rangeHead r) = range_start (selectionRange scenario1_foo)
    /\ (exists text,
          nth_error (lines scenario1) (line (range_end (rangeHead r))) = Some text
          /\ at_ text (character (range_end (rangeHead r))) = Some (ch ")"))
    /\ isBefore (range_end (rangeHead r)) (range_start (rangeBody r)) = true
    /\ isBefore (range_start (rangeBody r)) (range_end (rangeBody r)) = true
    /\ exists text idx,
         nth_error (lines scenario1) (line (range_end (rangeBody r))) = Some text
         /\ character (range_end (rangeBody r)) = idx + 3
         /\ starts_with (lit "end") (skipn idx text) = true.
Proof.
  eexists. split; [vm_compute; reflexivity|].
  apply (proj2 (legacy_ranges_are_in_order findInDocument_first scenario1 scenario1_foo
                  (findInDocument_first_forward scenario1) eq_refl)).
  vm_compute. reflexivity.
Defined.

(** ** The end of a body without blocks *)

Lemma kw_search_never (kw s : str) : forall rest pos,
  (forall k, ci_starts_with kw (skipn k rest) = false) ->
  kw_search kw s rest pos = None.
Proof.
  induction rest as [|c rest IH]; intros pos H; cbn [kw_search]; unfold kw_at.
  - pose proof (H 0) as H0. cbn [skipn] in H0. now rewrite H0.
  - pose proof (H 0) as H0. cbn [skipn] in H0. rewrite H0. cbn [andb].
    apply IH. intros k. exact (H (S k)).
Qed.

Lemma exec_never (kw sub : str) (li : nat) :
  (forall k, ci_starts_with kw (skipn k sub) = false) -> exec kw sub li = (None, 0).
Proof.
  intros H. unfold exec. rewrite kw_search_never; [reflexivity|].
  intros k. rewrite skipn_skipn. apply H.
Qed.

Lemma space_lower (c : ascii) : is_space c = true -> lower c = c.
Proof. destruct c as [[] [] [] [] [] [] [] []]; intros H; try discriminate H; reflexivity. Qed.

Lemma space_no_word (c : ascii) : is_space c = true -> is_word c = false.
Proof. destruct c as [[] [] [] [] [] [] [] []]; intros H; try discriminate H; reflexivity. Qed.

(** A word does not start inside the indentation. *)
Lemma indented_no_word (kw : str) (c : ascii) (kw' : str) (t : str) :
  kw = c :: kw' -> is_space c = false ->
  (forall k, ci_starts_with kw (skipn k t) = false) ->
  forall indent, is_blank indent = true ->
  forall k, ci_starts_with kw (skipn k (indent ++ t)) = false.
Proof.
  intros -> Hc Ht. induction indent as [|y indent IH]; intros Hb k; [apply Ht|].
  cbn [is_blank forallb] in Hb. apply andb_true_iff in Hb as [Hy Hb].
  destruct k as [|k]; [|exact (IH Hb k)].
  cbn [skipn app ci_starts_with]. rewrite (space_lower _ Hy).
  destruct (Ascii.eqb c y) eqn:E; [|reflexivity].
  apply Ascii.eqb_eq in E. congruence.
Qed.

Lemma indented_no_dashes (t : str) :
  (forall k, starts_with (lit "--") (skipn k t) = false) ->
  forall indent, is_blank indent = true ->
  forall k, starts_with (lit "--") (skipn k (indent ++ t)) = false.
Proof.
  intros Ht. induction indent as [|y indent IH]; intros Hb k; [apply Ht|].
  cbn [is_blank forallb] in Hb. apply andb_true_iff in Hb as [Hy Hb].
  destruct k as [|k]; [|exact (IH Hb k)].
  cbn [skipn app]. destruct (starts_with (lit "--") (y :: indent ++ t)) eqn:E;
    [|reflexivity].
  apply starts_with_iff in E as [r Er]. injection Er as -> _. discriminate Hy.
Qed.

Lemma leading_space_blank (s : str) : is_blank (leading_space s) = true.
Proof.
  induction s as [|c s IH]; [reflexivity|]. cbn [leading_space].
  destruct (is_space c) eqn:E; [|reflexivity].
  cbn [is_blank forallb]. now rewrite E.
Qed.

Lemma leading_space_indent (c : ascii) (t : str) :
  is_space c = false ->
  forall indent, is_blank indent = true -> leading_space (indent ++ c :: t) = indent.
Proof.
  intros Hc. induction indent as [|y indent IH]; intros Hb.
  - cbn [app leading_space]. now rewrite Hc.
  - cbn [is_blank forallb] in Hb. apply andb_true_iff in Hb as [Hy Hb].
    cbn [app leading_space]. rewrite Hy. f_equal. now apply IH.
Qed.

Lemma streq_refl (a : str) : streq a a = true.
Proof. induction a as [|x a IH]; [reflexivity|]. simpl. now rewrite Ascii.eqb_refl. Qed.

Lemma kw_search_eq (kw s rest : str) (pos : nat) :
  kw_search kw s rest pos
  = if kw_at kw s rest pos then Some pos
    else match rest with
         | [] => None
         | _ :: t => kw_search kw s t (S pos)
         end.
Proof. destruct rest; reflexivity. Qed.

(** The expression for [end] on a line that holds the indentation and
    the word: the match stands behind the indentation. *)
Lemma end_search (ind2 : str) : forall ind1,
  is_blank ind1 = true -> is_blank ind2 = true ->
  kw_search (lit "end") (ind1 ++ ind2 ++ lit "end") (ind2 ++ lit "end") (length ind1)
  = Some (length ind1 + length ind2).
Proof.
  induction ind2 as [|y ind2 IH]; intros ind1 H1 H2.
  - cbn [app length]. rewrite Nat.add_0_r.
    assert (E : kw_at (lit "end") (ind1 ++ lit "end") (lit "end") (length ind1) = true).
    { unfold kw_at. apply andb_true_iff. split; [apply andb_true_iff; split|].
      - reflexivity.
      - unfold boundary, word_at, at_.
        rewrite nth_error_app2, Nat.sub_diag by lia.
        change (nth_error (lit "end") 0) with (Some (ch "e")). cbv iota.
        destruct (length ind1) as [|q] eqn:El; [reflexivity|].
        rewrite nth_error_app1 by lia.
        destruct (nth_error ind1 q) as [c|] eqn:Eq; [|apply nth_error_None in Eq; lia].
        unfold is_blank in H1. rewrite forallb_forall in H1.
        apply nth_error_In, H1 in Eq. rewrite (space_no_word _ Eq). reflexivity.
      - unfold boundary, word_at, at_.
        replace (length ind1 + length (lit "end")) with (S (length ind1 + 2))
          by (simpl; lia).
        rewrite !nth_error_app2 by lia.
        replace (length ind1 + 2 - length ind1) with 2 by lia.
        replace (S (length ind1 + 2) - length ind1) with 3 by lia.
        reflexivity. }
    now rewrite kw_search_eq, E.
  - cbn [is_blank forallb] in H2. apply andb_true_iff in H2 as [Hy H2].
    assert (E : kw_at (lit "end") (ind1 ++ (y :: ind2) ++ lit "end")
                  ((y :: ind2) ++ lit "end") (length ind1) = false).
    { unfold kw_at. cbn [app]. 
      change (ci_starts_with (lit "end") (y :: ind2 ++ lit "end"))
        with (Ascii.eqb (ch "e") (lower y) && ci_starts_with (lit "nd") (ind2 ++ lit "end")).
      rewrite (space_lower _ Hy).
      destruct (Ascii.eqb (ch "e") y) eqn:E; [|reflexivity].
      apply Ascii.eqb_eq in E. subst y. discriminate Hy. }
    rewrite kw_search_eq, E. cbn [app].
    replace (ind1 ++ y :: ind2 ++ lit "end") with ((ind1 ++ [y]) ++ ind2 ++ lit "end")
      by (now rewrite <- app_assoc).
    replace (S (length ind1)) with (length (ind1 ++ [y]))
      by (rewrite length_app; simpl; lia).
    rewrite IH; [f_equal; rewrite length_app; simpl; lia | | exact H2].
    unfold is_blank. rewrite forallb_app. cbn [forallb]. 
    unfold is_blank in H1. now rewrite H1, Hy.
Qed.

Lemma end_line_matches (indent : str) (rx : BodyEnd.Regexes) :
  is_blank indent = true ->
  exists rx',
    BodyEnd.exec_all (indent ++ lit "end") (BodyEnd.reset_lastIndex rx)
    = (BodyEnd.mkMatches None None None None None None (Some (length indent)) None, rx').
Proof.
  intros Hb. unfold BodyEnd.exec_all, BodyEnd.reset_lastIndex.
  cbn [BodyEnd.funcRegex BodyEnd.doRegex BodyEnd.repeatRegex BodyEnd.ifRegex
       BodyEnd.forRegex BodyEnd.whileRegex BodyEnd.endRegex BodyEnd.untilRegex].
  assert (Hno : forall kw c kw', kw = c :: kw' -> is_space c = false ->
            (forall k, ci_starts_with kw (skipn k (lit "end")) = false) ->
            forall li, exec kw (indent ++ lit "end") li = (None, 0)).
  { intros kw c kw' E Hc Ht li. apply exec_never.
    exact (indented_no_word kw c kw' _ E Hc Ht indent Hb). }
  assert (Hshort : forall kw, (forall k, k < 4 -> ci_starts_with kw (skipn k (lit "end")) = false) ->
            forall k, ci_starts_with kw (skipn k (lit "end")) = false).
  { intros kw H k. destruct (Nat.lt_ge_cases k 4) as [Hk | Hk]; [now apply H|].
    rewrite skipn_all2 by (simpl; lia). apply (H 3). lia. }
  rewrite (Hno (lit "function") _ _ eq_refl eq_refl)
    by (apply Hshort; intros [|[|[|[|k]]]] Hk; try reflexivity; lia).
  rewrite (Hno (lit "do") _ _ eq_refl eq_refl)
    by (apply Hshort; intros [|[|[|[|k]]]] Hk; try reflexivity; lia).
  rewrite (Hno (lit "repeat") _ _ eq_refl eq_refl)
    by (apply Hshort; intros [|[|[|[|k]]]] Hk; try reflexivity; lia).
  rewrite (Hno (lit "if") _ _ eq_refl eq_refl)
    by (apply Hshort; intros [|[|[|[|k]]]] Hk; try reflexivity; lia).
  rewrite (Hno (lit "for") _ _ eq_refl eq_refl)
    by (apply Hshort; intros [|[|[|[|k]]]] Hk; try reflexivity; lia).
  rewrite (Hno (lit "while") _ _ eq_refl eq_refl)
    by (apply Hshort; intros [|[|[|[|k]]]] Hk; try reflexivity; lia).
  rewrite (Hno (lit "until") _ _ eq_refl eq_refl)
    by (apply Hshort; intros [|[|[|[|k]]]] Hk; try reflexivity; lia).
  unfold exec at 1. cbn [skipn].
  pose proof (end_search indent [] eq_refl Hb) as E. cbn [app length Nat.add] in E.
  rewrite E. eexists. reflexivity.
Qed.

Lemma end_line_accepted (indent : str) (ln bsl : nat) (rx : BodyEnd.Regexes) (fuel : nat) :
  is_blank indent = true ->
  BodyEnd.scan_line (S fuel) (indent ++ lit "end") ln bsl 0 indent None rx 0
  = Ok (BodyEnd.Found (ln, length indent)).
Proof.
  intros Hb. unfold BodyEnd.scan_line.
  rewrite uncomment_line_plain.
  2:{ apply indexOf_None_iff. apply indented_no_dashes; [|exact Hb].
      intros [|[|[|[|k]]]]; reflexivity. }
  replace (if ln =? bsl then 0 else 0) with 0 by (destruct (ln =? bsl); reflexivity).
  unfold substring_from. cbn [skipn].
  assert (El : (length (indent ++ lit "end") =? 0) = false)
    by (apply Nat.eqb_neq; rewrite length_app; simpl; lia).
  rewrite El. cbn [BodyEnd.scan_tokens].
  destruct (end_line_matches indent rx Hb) as [rx' ->].
  cbn [BodyEnd.candidates BodyEnd.funcMatch BodyEnd.doMatch BodyEnd.repeatMatch
       BodyEnd.ifMatch BodyEnd.forMatch BodyEnd.whileMatch BodyEnd.endMatch
       BodyEnd.untilMatch app BodyEnd.sort fold_right BodyEnd.insert Nat.eqb].
  pose proof (leading_space_indent (ch "e") (lit "nd") eq_refl indent Hb) as Els.
  change (ch "e" :: lit "nd") with (lit "end") in Els.
  rewrite Els, streq_refl. reflexivity.
Qed.

Lemma wordless_line_passed (l : str) (ln bsl : nat) (indent : str)
    (rx : BodyEnd.Regexes) (fuel : nat) :
  wordless l ->
  exists rx',
    BodyEnd.scan_line (S fuel) l ln bsl 0 indent None rx 0
    = Ok (BodyEnd.Continue None rx' 0).
Proof.
  intros [Hd Hw]. unfold BodyEnd.scan_line. rewrite (uncomment_line_plain _ Hd).
  replace (if ln =? bsl then 0 else 0) with 0 by (destruct (ln =? bsl); reflexivity).
  unfold substring_from. cbn [skipn].
  destruct (length l =? 0); [eexists; reflexivity|].
  cbn [BodyEnd.scan_tokens]. unfold BodyEnd.exec_all.
  rewrite (exec_never (lit "function") l _ (fun k => Hw (lit "function") k ltac:(simpl; auto 10))).
  rewrite (exec_never (lit "do") l _ (fun k => Hw (lit "do") k ltac:(simpl; auto 10))).
  rewrite (exec_never (lit "repeat") l _ (fun k => Hw (lit "repeat") k ltac:(simpl; auto 10))).
  rewrite (exec_never (lit "if") l _ (fun k => Hw (lit "if") k ltac:(simpl; auto 10))).
  rewrite (exec_never (lit "for") l _ (fun k => Hw (lit "for") k ltac:(simpl; auto 10))).
  rewrite (exec_never (lit "while") l _ (fun k => Hw (lit "while") k ltac:(simpl; auto 10))).
  rewrite (exec_never (lit "end") l _ (fun k => Hw (lit "end") k ltac:(simpl; auto 10))).
  rewrite (exec_never (lit "until") l _ (fun k => Hw (lit "until") k ltac:(simpl; auto 10))).
  eexists. reflexivity.
Qed.

Lemma scan_lines_flat (indent : str) (post : list str) (bsl : nat) (fuel : nat) :
  is_blank indent = true ->
  forall body ln rx,
  Forall wordless body ->
  BodyEnd.scan_lines (S fuel) (body ++ (indent ++ lit "end") :: post) ln bsl 0
    indent None rx 0
  = Ok (Some (ln + length body, length indent)).
Proof.
  intros Hb. induction body as [|l body IH]; intros ln rx Hall.
  - cbn [app BodyEnd.scan_lines]. rewrite (end_line_accepted indent ln bsl rx fuel Hb).
    cbn [bind length]. now rewrite Nat.add_0_r.
  - inversion Hall as [|? ? Hl Hrest]; subst.
    cbn [app BodyEnd.scan_lines].
    destruct (wordless_line_passed l ln bsl indent rx fuel Hl) as [rx' ->].
    cbn [bind]. rewrite (IH (S ln) rx' Hrest). cbn [length]. do 3 f_equal. lia.
Qed.

(** X16.  A body without blocks is closed by its [end]: when the lines
    from the body start on are lines that hold no comment and none of the
    eight words of the scan, followed by a line that holds [end] alone at
    the indentation of the head's first line, the body-end scan returns
    that [end], whatever follows it. *)
Theorem find_end_of_a_flat_body
    (d : TextDocument) (hsl : nat) (headLine : str)
    (pre body post : list str) (fuel : nat) :
  lines d = pre ++ body ++ (leading_space headLine ++ lit "end") :: post ->
  nth_error (lines d) hsl = Some headLine ->
  Forall wordless body ->
  0 < fuel ->
  BodyEnd.find_end fuel d hsl (length pre) 0
  = Ok (Some (length pre + length body, length (leading_space headLine))).
Proof.
  intros Hlines Hhead Hall Hf. unfold BodyEnd.find_end, lineAt.
  rewrite Hhead. cbn [bind]. rewrite Hlines, skipn_app, Nat.sub_diag, skipn_all.
  cbn [skipn app]. destruct fuel as [|fuel]; [lia|].
  apply scan_lines_flat; [apply leading_space_blank | exact Hall].
Qed.

Lemma wordless_check (l : str) :
  indexOf (lit "--") l 0 = None ->
  forallb (fun kw =>
             forallb (fun k => negb (ci_starts_with kw (skipn k l)))
                     (seq 0 (S (length l)))) keywords = true ->
  wordless l.
Proof.
  intros Hd Hc. split; [exact Hd|]. intros kw k Hin.
  rewrite forallb_forall in Hc. specialize (Hc kw Hin). rewrite forallb_forall in Hc.
  destruct (Nat.le_gt_cases k (length l)) as [Hk | Hk].
  - apply negb_true_iff, Hc, in_seq. lia.
  - rewrite skipn_all2 by lia. rewrite <- (skipn_all l).
    apply negb_true_iff, Hc, in_seq. lia.
Qed.

(** [find_end_of_a_flat_body] at the spec's first scenario. *)
Lemma find_end_of_a_flat_body_witness :
  BodyEnd.find_end 1 scenario1 0 1 0 = Ok (Some (2, 0)).
Proof.
  apply (find_end_of_a_flat_body scenario1 0 (lit "function foo(a,b)")
           [lit "function foo(a,b)"] [lit "  return a+b"] [] 1).
  - reflexivity.
  - reflexivity.
  - constructor; [|constructor]. apply wordless_check; reflexivity.
  - lia.
Defined.

(** ** The head end and the next [do] *)

Lemma later_irrefl (p : loc) : later p p = false.
Proof. apply later_false. lia. Qed.

(** X17.  The head reaches at least to the [do] behind the name: when the
    finder reports a [do] (with a blank before it, or else without)
    anywhere behind the end of the name, the head end that the heuristic
    route settles on is that place or a later one, also when the first
    strategy has found the closing parenthesis of the parameter list
    before it. *)
Theorem head_reaches_the_next_do find rfa fuel d sym h p :
  head_end find rfa fuel d sym = Ok h ->
  match find (lit " do") d (line (range_end (selectionRange sym)),
                            character (range_end (selectionRange sym))) with
  | Some q => Some q
  | None => find (lit "do") d (line (range_end (selectionRange sym)),
                               character (range_end (selectionRange sym)))
  end = Some p ->
  later p h = false.
Proof.
  unfold head_end. intros H Hdo.
  apply bind_Ok in H as (headEnd1 & _ & H). cbn [fst snd] in H.
  rewrite Hdo in H. destruct headEnd1 as [he|].
  - destruct (later p he) eqn:E; injection H as <-; [apply later_irrefl | exact E].
  - injection H as <-. apply later_irrefl.
Qed.

(** [head_reaches_the_next_do] at a function whose body holds a [for]
    loop: the head runs to the [do] of the loop. *)
Lemma head_reaches_the_next_do_witness :
  head_end findInDocument_first (fun _ _ => true) 40 nested_blocks nested_blocks_f
    = Ok (2, 13)
  /\ paren_head_end 40 nested_blocks nested_blocks_f = Ok (Some (0, 11))
  /\ later (2, 13) (2, 13) = false.
Proof.
  split; [vm_compute; reflexivity|]. split; [vm_compute; reflexivity|].
  apply (head_reaches_the_next_do findInDocument_first (fun _ _ => true) 40
           nested_blocks nested_blocks_f (2, 13) (2, 13));
    vm_compute; reflexivity.
Defined.

(** ** Where the first strategy starts *)

Lemma Forall2_at {A B : Type} (R : A -> B -> Prop) (s : list A) (o : list B) :
  Forall2 R s o ->
  forall k b, nth_error o k = Some b -> exists a, nth_error s k = Some a /\ R a b.
Proof.
  induction 1 as [|a b s o Hab _ IH]; intros [|k] b' Hk; try discriminate.
  - injection Hk as <-. exists a. auto.
  - exact (IH k b' Hk).
Qed.

Lemma indexOf_stands (c : ascii) (s : str) (from k : nat) :
  indexOf [c] s from = Some k -> from <= k /\ at_ s k = Some c.
Proof.
  intros H. pose proof (@indexOf_Some_ge [c] s from k ltac:(discriminate) H) as [Hge Hlt].
  split; [exact Hge|].
  unfold indexOf in H. apply index_from_Some in H as (j & -> & _ & Hs & _).
  rewrite skipn_skipn in Hs. apply (needle_stands [c] _ _ c [] eq_refl).
  rewrite Nat.min_l by lia. now rewrite Nat.add_comm.
Qed.

Lemma positionAt_from_cons (l r : str) (rest : list str) (eolLen ln k : nat) :
  positionAt_from (l :: r :: rest) eolLen ln k
  = if k <? length l + eolLen then mkPos ln (Nat.min k (length l))
    else positionAt_from (r :: rest) eolLen (S ln) (k - (length l + eolLen)).
Proof. reflexivity. Qed.

Lemma positionAt_from_stands (eol_ : str) (c : ascii) :
  ~ In c eol_ ->
  forall ls ln k,
  at_ (join eol_ ls) k = Some c ->
  exists text,
    nth_error ls (line (positionAt_from ls (length eol_) ln k) - ln) = Some text
    /\ ln <= line (positionAt_from ls (length eol_) ln k)
    /\ at_ text (character (positionAt_from ls (length eol_) ln k)) = Some c.
Proof.
  intros Hc. induction ls as [|l rest IH]; intros ln k Hk; [destruct k; discriminate|].
  destruct rest as [|r rest'].
  - cbn [join positionAt_from line character] in *. exists l.
    rewrite Nat.sub_diag. split; [reflexivity|]. split; [lia|].
    assert (k < length l) by (apply nth_error_Some; unfold at_ in Hk; congruence).
    now rewrite Nat.min_l by lia.
  - change (join eol_ (l :: r :: rest')) with (l ++ eol_ ++ join eol_ (r :: rest')) in Hk.
    rewrite positionAt_from_cons.
    destruct (k <? length l + length eol_) eqn:E.
    + apply Nat.ltb_lt in E. cbn [line character]. exists l.
      rewrite Nat.sub_diag. split; [reflexivity|]. split; [lia|].
      unfold at_ in *.
      destruct (Nat.lt_ge_cases k (length l)) as [Hlt | Hge].
      * rewrite nth_error_app1 in Hk by lia. now rewrite Nat.min_l by lia.
      * exfalso. rewrite nth_error_app2 in Hk by lia.
        rewrite nth_error_app1 in Hk by lia. apply nth_error_In in Hk. contradiction.
    + apply Nat.ltb_ge in E.
      destruct (IH (S ln) (k - (length l + length eol_))) as (text & H1 & H2 & H3).
      { unfold at_ in *. rewrite nth_error_app2 in Hk by lia.
        rewrite nth_error_app2 in Hk by lia. rewrite <- Hk. f_equal. lia. }
      exists text. split; [|split; [lia | exact H3]].
      replace (line (positionAt_from (r :: rest') (length eol_) (S ln)
                       (k - (length l + length eol_))) - ln)
        with (S (line (positionAt_from (r :: rest') (length eol_) (S ln)
                         (k - (length l + length eol_))) - S ln)) by lia.
      exact H1.
Qed.

(** X18.  The first strategy starts at a parenthesis of the document:
    the index found in the stripped text does not lie before the start of
    the symbol's range, the text itself holds an opening parenthesis at
    that index (blanking comments moves no character), and the line and
    column that [positionAt] gives for it are those of that parenthesis. *)
Theorem first_strategy_starts_at_a_parenthesis
    (d : TextDocument) (sym : DocumentSymbol) (parenIdx : nat) :
  ~ In (ch "(") (eol d) ->
  indexOf (lit "(") (stripLuaComments (getText d))
    (offsetAt d (range_start (symRange sym))) = Some parenIdx ->
  offsetAt d (range_start (symRange sym)) <= parenIdx
  /\ at_ (getText d) parenIdx = Some (ch "(")
  /\ exists text,
       nth_error (lines d) (line (positionAt d parenIdx)) = Some text
       /\ at_ text (character (positionAt d parenIdx)) = Some (ch "(").
Proof.
  intros Heol H. apply indexOf_stands in H as [Hge Hat].
  split; [exact Hge|].
  assert (Hsrc : at_ (getText d) parenIdx = Some (ch "(")).
  { destruct (strip_loop_runs (getText d)) as [_ HS].
    apply Stripped_pointwise in HS.
    destruct (Forall2_at _ _ _ HS parenIdx _ Hat) as (a & Ha & [Hsp | Hsame]).
    - discriminate Hsp.
    - unfold at_. now rewrite Ha, Hsame. }
  split; [exact Hsrc|].
  destruct (positionAt_from_stands (eol d) (ch "(") Heol (lines d) 0 parenIdx Hsrc)
    as (text & H1 & _ & H3).
  exists text. rewrite Nat.sub_0_r in H1. auto.
Qed.

(** [first_strategy_starts_at_a_parenthesis] at a function behind a
    comment that holds a parenthesis. *)
Lemma first_strategy_starts_at_a_parenthesis_witness :
  0 <= 18
  /\ at_ (getText (document [lit "-- f(x)"; lit "function f(a)"; lit "end"])) 18
     = Some (ch "(")
  /\ exists text,
       nth_error [lit "-- f(x)"; lit "function f(a)"; lit "end"] 1 = Some text
       /\ at_ text 10 = Some (ch "(").
Proof.
  apply (first_strategy_starts_at_a_parenthesis
           (document [lit "-- f(x)"; lit "function f(a)"; lit "end"])
           (symbol ((0, 0), (2, 3)) ((1, 9), (1, 10))) 18).
  - intros [H | []]. discriminate H.
  - vm_compute. reflexivity.
Defined.

(** ** Only the first word of a line counts *)

Lemma second_round (l lineText : str) (ln searchFrom : nat) (indent : str)
    (m : BodyEnd.Matches) (rx1 : BodyEnd.Regexes) (fuel depth : nat) :
  at_most_once l = true ->
  BodyEnd.exec_all l BodyEnd.fresh = (m, rx1) ->
  BodyEnd.scan_tokens (S fuel) lineText l ln searchFrom indent rx1 depth
  = Ok (BodyEnd.LineDone BodyEnd.fresh depth).
Proof.
  unfold at_most_once. intros Hc E1. rewrite E1 in Hc. cbn [snd] in Hc.
  cbn [BodyEnd.scan_tokens].
  pose proof (@exec_all_none l rx1) as Hn.
  destruct (BodyEnd.exec_all l rx1) as [m0 rx2]. cbn [fst snd] in Hc, Hn.
  destruct (BodyEnd.candidates m0); [|discriminate Hc].
  cbn [BodyEnd.sort fold_right]. now rewrite Hn.
Qed.

Lemma scan_tokens_S (fuel : nat) (lineText sub : str) (ln searchFrom : nat)
    (startIndent : str) (rx : BodyEnd.Regexes) (depth : nat) :
  BodyEnd.scan_tokens (S fuel) lineText sub ln searchFrom startIndent rx depth
  = let '(m, rx') := BodyEnd.exec_all sub rx in
    let again := BodyEnd.scan_tokens fuel lineText sub ln searchFrom startIndent rx' in
    match BodyEnd.sort (BodyEnd.candidates m) with
    | [] => Ok (BodyEnd.LineDone rx' depth)
    | (_, pick) :: _ =>
      match pick with
      | BodyEnd.KFunction | BodyEnd.KDo | BodyEnd.KRepeat | BodyEnd.KFor
      | BodyEnd.KWhile => again (depth + 1)
      | BodyEnd.KIf =>
        match BodyEnd.ifMatch m with
        | Some idx =>
          if test_else_tail (substring lineText 0 (searchFrom + idx))
          then again depth else again (depth + 1)
        | None => again (depth + 1)
        end
      | BodyEnd.KEnd =>
        if depth =? 0 then
          if streq (leading_space lineText) startIndent
          then match BodyEnd.endMatch m with
               | Some idx => Ok (BodyEnd.Accepted (ln, searchFrom + idx))
               | None => Throw HostFailure
               end
          else again depth
        else again (depth - 1)
      | BodyEnd.KUntil =>
        if depth =? 0 then
          if streq (leading_space lineText) startIndent
          then match BodyEnd.untilMatch m with
               | Some idx => Ok (BodyEnd.Accepted (ln, searchFrom + idx))
               | None => Throw HostFailure
               end
          else again depth
        else again (depth - 1)
      end
    end.
Proof. reflexivity. Qed.

Lemma line_by_first_word (l : str) (ln bsl : nat) (indent : str) (fuel depth : nat) :
  calm l ->
  BodyEnd.scan_line (S (S fuel)) l ln bsl 0 indent None BodyEnd.fresh depth
  = Ok match kind l with
       | Passes => BodyEnd.Continue None BodyEnd.fresh depth
       | Opens => BodyEnd.Continue None BodyEnd.fresh (depth + 1)
       | Closes idx =>
         if depth =? 0 then
           if streq (leading_space l) indent then BodyEnd.Found (ln, idx)
           else BodyEnd.Continue None BodyEnd.fresh depth
         else BodyEnd.Continue None BodyEnd.fresh (depth - 1)
       end.
Proof.
  intros [Hd Hc]. unfold BodyEnd.scan_line. rewrite (uncomment_line_plain _ Hd).
  replace (if ln =? bsl then 0 else 0) with 0 by (destruct (ln =? bsl); reflexivity).
  unfold substring_from. cbn [skipn].
  destruct (length l =? 0) eqn:El.
  { apply Nat.eqb_eq in El. destruct l; [reflexivity | discriminate El]. }
  change (BodyEnd.reset_lastIndex BodyEnd.fresh) with BodyEnd.fresh.
  unfold kind, first_word.
  rewrite scan_tokens_S.
  pose proof (@exec_all_none l BodyEnd.fresh) as Hn.
  destruct (BodyEnd.exec_all l BodyEnd.fresh) as [m rx1] eqn:E1. cbn [fst snd] in *.
  assert (H2 : forall depth',
    BodyEnd.scan_tokens (S fuel) l l ln 0 indent rx1 depth'
    = Ok (BodyEnd.LineDone BodyEnd.fresh depth')).
  { intros depth'. exact (second_round l l ln 0 indent m rx1 fuel depth' Hc E1). }
  destruct (BodyEnd.sort (BodyEnd.candidates m)) as [|[idx pick] rest] eqn:Es.
  - cbn [hd_error bind]. rewrite Hn; [reflexivity | now apply sort_nil].
  - cbn [hd_error]. apply picked_matches, candidates_In in Es.
    cbv zeta. destruct pick; rewrite ?H2; cbn [bind]; try reflexivity.
    + rewrite Es. cbn [Nat.add].
      destruct (test_else_tail (substring l 0 idx)); rewrite ?H2; reflexivity.
    + destruct (depth =? 0); [|rewrite ?H2; reflexivity].
      destruct (streq (leading_space l) indent); [|rewrite ?H2; reflexivity].
      rewrite Es. reflexivity.
    + destruct (depth =? 0); [|rewrite ?H2; reflexivity].
      destruct (streq (leading_space l) indent); [|rewrite ?H2; reflexivity].
      rewrite Es. reflexivity.
Qed.

(** X19.  On a line without comment on which none of the eight
    expressions matches twice, only the first word counts: scanned from
    its first column, the line raises the depth by one when its first
    word opens a block (an [if] that does not follow [else]), lowers it
    by one when the first word is [end] or [until] and the depth is not
    zero, and leaves it alone otherwise, whatever other words follow on
    the line; at depth zero an [end] or [until] is the terminator when
    the line is indented like the head, and is passed over when it is
    not. *)
Theorem only_the_first_word_counts
    (l : str) (ln bsl : nat) (indent : str) (fuel depth : nat) :
  calm l ->
  2 <= fuel ->
  BodyEnd.scan_line fuel l ln bsl 0 indent None BodyEnd.fresh depth
  = Ok match kind l with
       | Passes => BodyEnd.Continue None BodyEnd.fresh depth
       | Opens => BodyEnd.Continue None BodyEnd.fresh (depth + 1)
       | Closes idx =>
         if depth =? 0 then
           if streq (leading_space l) indent then BodyEnd.Found (ln, idx)
           else BodyEnd.Continue None BodyEnd.fresh depth
         else BodyEnd.Continue None BodyEnd.fresh (depth - 1)
       end.
Proof.
  intros Hc Hf. destruct fuel as [|[|fuel]]; [lia | lia |].
  now apply line_by_first_word.
Qed.

(** [only_the_first_word_counts] at a line that opens a block and closes
    it again: the depth goes up by one. *)
Lemma only_the_first_word_counts_witness :
  BodyEnd.scan_line 2 (lit "  if x then return end") 1 1 0 [] None BodyEnd.fresh 0
  = Ok (BodyEnd.Continue None BodyEnd.fresh 1).
Proof.
  apply (only_the_first_word_counts (lit "  if x then return end") 1 1 [] 2 0).
  - split; reflexivity.
  - lia.
Defined.

(** ** The end of a body of balanced blocks *)

Lemma scan_lines_balanced (bsl : nat) (indent : str) (fuel : nat) (body : list str) :
  Balanced body ->
  Forall calm body ->
  forall rest ln depth,
  BodyEnd.scan_lines (S (S fuel)) (body ++ rest) ln bsl 0 indent None BodyEnd.fresh depth
  = BodyEnd.scan_lines (S (S fuel)) rest (ln + length body) bsl 0 indent None
      BodyEnd.fresh depth.
Proof.
  induction 1 as [| l ls Hk _ IH | l inner c idx tail Hl _ IH1 Hc _ IH2];
    intros Hall rest ln depth.
  - cbn [app length]. now rewrite Nat.add_0_r.
  - inversion Hall as [|? ? Hcalm Hrest]; subst.
    cbn [app BodyEnd.scan_lines].
    rewrite (line_by_first_word l ln bsl indent fuel depth Hcalm), Hk. cbn [bind].
    rewrite (IH Hrest). cbn [length]. f_equal. lia.
  - inversion Hall as [|? ? Hcalm Hrest]; subst.
    apply Forall_app in Hrest as [Hinner Hrest].
    inversion Hrest as [|? ? Hccalm Htail]; subst.
    cbn [app BodyEnd.scan_lines].
    rewrite (line_by_first_word l ln bsl indent fuel depth Hcalm), Hl. cbn [bind].
    rewrite <- app_assoc. rewrite (IH1 Hinner). cbn [app BodyEnd.scan_lines].
    rewrite (line_by_first_word c _ bsl indent fuel (depth + 1) Hccalm), Hc.
    replace (depth + 1 =? 0) with false by (symmetry; apply Nat.eqb_neq; lia).
    cbn [bind]. replace (depth + 1 - 1) with depth by lia.
    rewrite (IH2 Htail). f_equal. cbn [length]. rewrite length_app. cbn [length]. lia.
Qed.

(** X20.  A body of balanced blocks is closed by the line behind it:
    when the lines from the body start (first column) on are lines
    without comment on which no expression matches twice, in which every
    line that opens a block has its closing line behind balanced lines,
    and the next line starts (among the eight words) with [end] or
    [until] and is indented like the head's first line, the body-end
    scan returns the place of that word. *)
Theorem find_end_of_balanced_blocks
    (d : TextDocument) (hsl : nat) (headLine : str)
    (pre body : list str) (endLine : str) (post : list str)
    (idx fuel : nat) :
  lines d = pre ++ body ++ endLine :: post ->
  nth_error (lines d) hsl = Some headLine ->
  Forall calm body -> calm endLine ->
  Balanced body ->
  kind endLine = Closes idx ->
  leading_space endLine = leading_space headLine ->
  2 <= fuel ->
  BodyEnd.find_end fuel d hsl (length pre) 0
  = Ok (Some (length pre + length body, idx)).
Proof.
  intros Hlines Hhead Hall Hend Hbal Hk Hind Hf.
  destruct fuel as [|[|fuel]]; [lia | lia |].
  unfold BodyEnd.find_end, lineAt. rewrite Hhead. cbn [bind].
  rewrite Hlines, skipn_app, Nat.sub_diag, skipn_all. cbn [skipn app].
  rewrite (scan_lines_balanced _ _ _ body Hbal Hall). cbn [BodyEnd.scan_lines].
  rewrite (line_by_first_word endLine _ _ _ fuel 0 Hend), Hk. cbn [Nat.eqb].
  rewrite Hind, streq_refl. reflexivity.
Qed.

(** [find_end_of_balanced_blocks] at a function that holds an [if] block
    and a [for] loop inside it. *)
Lemma find_end_of_balanced_blocks_witness :
  BodyEnd.find_end 2 nested_blocks 0 1 0 = Ok (Some (6, 0)).
Proof.
  apply (find_end_of_balanced_blocks nested_blocks 0 (lit "function f()")
           [lit "function f()"]
           [lit "  if a then"; lit "    for i=1,2 do"; lit "      print(i)";
            lit "    end"; lit "  end"]
           (lit "end") [] 0 2).
  - reflexivity.
  - reflexivity.
  - repeat (constructor; [split; reflexivity|]). constructor.
  - split; reflexivity.
  - apply (Balanced_block (lit "  if a then")
             [lit "    for i=1,2 do"; lit "      print(i)"; lit "    end"]
             (lit "  end") 2 []); [reflexivity | | reflexivity | constructor].
    apply (Balanced_block (lit "    for i=1,2 do") [lit "      print(i)"]
             (lit "    end") 4 []); [reflexivity | | reflexivity | constructor].
    apply Balanced_pass; [reflexivity | constructor].
  - reflexivity.
  - reflexivity.
  - lia.
Defined.

(** ** A function with a parameter list and a body of balanced blocks *)




(** ** The head of a function on the structural route *)

(** X22.  On the structural route the head of a function ends right
    behind its parameter list: for a node of kind [FunctionDeclaration]
    or [FunctionStatement], when the first opening parenthesis at or
    behind the head start lies inside the node and the text behind it is
    [w] and a closing parenthesis, with every parenthesis of [w] matched,
    the head runs from the identifier (or, without one, from the start of
    the node) to the index behind that closing parenthesis, where the
    body begins, and the body ends with the node. *)
Theorem function_head_ends_behind_the_parameters
    (fuel : nat) (src : str) (selOffset : nat)
    (type : string) (s e : nat) (props : list (string * Ast.value))
    (pre w rest : str) :
  let n := Ast.Node type (s, e) props in
  let headStart :=
    match Structural.range_start_of (Ast.prop "identifier" n) with
    | Some i => i
    | None => s
    end in
  type = "FunctionDeclaration"%string \/ type = "FunctionStatement"%string ->
  src = pre ++ ch "(" :: w ++ ch ")" :: rest ->
  Nested w ->
  indexOf (lit "(") src headStart = Some (length pre) ->
  length pre < e ->
  length w + 2 <= fuel ->
  Structural.split fuel src selOffset n
  = Ok (Structural.mkSplit headStart (length pre + 1 + length w + 1)
          (length pre + 1 + length w + 1) e).
Proof.
  intros n headStart Htype Hsrc Hw Hidx Hlt Hf.
  assert (Hparen : Structural.findMatchingParen fuel src (length pre)
                   = Ok (Some (length pre + 1 + length w))).
  { apply findMatchingParen_at with (rest := rest); [|exact Hw | exact Hf].
    rewrite Hsrc, skipn_app, Nat.sub_diag, skipn_all. reflexivity. }
  assert (Ht : Ast.has_type n "FunctionDeclaration" || Ast.has_type n "FunctionStatement"
               = true).
  { unfold Ast.has_type, n. cbn [Ast.type_of].
    destruct Htype as [-> | ->]; reflexivity. }
  unfold Structural.split. cbn [Ast.range_of n]. rewrite Ht.
  fold n. fold headStart. rewrite Hidx.
  apply Nat.ltb_lt in Hlt. rewrite Hlt, Hparen. reflexivity.
Qed.

(** [function_head_ends_behind_the_parameters] at a function whose
    parameter list holds a default written with parentheses. *)
Lemma function_head_ends_behind_the_parameters_witness :
  Structural.split 20 (lit "function f(a, (b)) end") 9
    (Ast.Node "FunctionDeclaration" (0, 22) [])
  = Ok (Structural.mkSplit 0 18 18 22).
Proof.
  apply (function_head_ends_behind_the_parameters 20 (lit "function f(a, (b)) end") 9
           "FunctionDeclaration" 0 22 [] (lit "function f") (lit "a, (b)") (lit " end")).
  - now left.
  - reflexivity.
  - do 3 (apply Nested_plain; [reflexivity|]).
    apply (Nested_parens (lit "b") []); [|apply Nested_end].
    apply Nested_plain; [reflexivity | apply Nested_end].
  - reflexivity.
  - simpl. lia.
  - simpl. lia.
Defined.
